(** * Asynchronous download jobs: job store, queue, worker and routes

    A shallow embedding of the in-memory job store ([src/utils/jobStore.ts]),
    the FIFO queue (the module [./queue.ts] of the worker, listed after the
    store), the download worker ([src/jobs/downloadWorker.ts]) and the async
    download routes (the module listed after the worker), followed by the
    properties of the asynchronous job life cycle.

    Conventions.
    - A [Date] is its millisecond time stamp, a [Z]; every operation that
      reads the clock ([new Date()], [Date.now()]) takes the reading as its
      argument [now].
    - A JavaScript number that holds a count, an index or a time stamp is a
      [Z] (a [nat] where it is an array index or a length); the one
      computation carried out in floating point,
      [Math.round((processedCount / totalFiles) * 100)], is evaluated on
      IEEE 754 binary64 values ([PrimFloat]).
    - An [EventEmitter] is the chronological list of what it emitted.
    - The [Map] of the job store is a [gmap]; nothing below depends on the
      iteration order of the map. *)

From Stdlib Require Import ZArith Lia List Bool Ascii.
From Stdlib Require Floats.PrimFloat Floats.SpecFloat Floats.FloatOps.
From Stdlib Require Numbers.Cyclic.Int63.Uint63.
From stdpp Require Import gmap strings list fin_maps.

Local Open Scope Z_scope.

(* ===================================================================== *)
(** ** The job store ([src/utils/jobStore.ts]) *)
(* ===================================================================== *)

Module JobStore.

(** [type JobStatus = "queued" | "processing" | "ready" | "failed"] *)
Inductive JobStatus : Type :=
  | queued
  | processing
  | ready
  | failed.

#[global] Instance JobStatus_eq_dec : EqDecision JobStatus.
Proof. solve_decision. Defined.

(** [interface Job]; an optional field is an [option]. *)
Record Job : Type := mkJob {
  jobId : string;
  fileIds : list Z;
  status : JobStatus;
  progress : Z;
  downloadUrl : option string;
  s3Key : option string;
  error : option string;
  createdAt : Z;
  updatedAt : Z;
  processingStartedAt : option Z;
  completedAt : option Z;
}.

(** [interface CreateJobInput] *)
Record CreateJobInput : Type := mkCreateJobInput {
  input_jobId : string;
  input_fileIds : list Z;
}.

(** [interface UpdateJobInput]: every key is optional; [None] is a key the
    object literal does not have, [Some v] a key with the value [v]. *)
Record UpdateJobInput : Type := mkUpdateJobInput {
  upd_status : option JobStatus;
  upd_progress : option Z;
  upd_downloadUrl : option string;
  upd_s3Key : option string;
  upd_error : option string;
  upd_processingStartedAt : option Z;
  upd_completedAt : option Z;
}.

(** The update [{}]. *)
Definition noUpdates : UpdateJobInput :=
  mkUpdateJobInput None None None None None None None.

(** What a listener receives: [{ type, job }] on the channel of one job,
    the bare job on the global channels. *)
Inductive Payload : Type :=
  | TypedJob (type : string) (job : Job)
  | BareJob (job : Job).

(** One call of [this.emit(event, payload)]. *)
Record Emitted : Type := mkEmitted {
  event : string;
  payload : Payload;
}.

(** [class JobStore extends EventEmitter]: the private map [jobs] and the
    events emitted so far, oldest first. *)
Record JobStore : Type := mkJobStore {
  jobs : gmap string Job;
  emitted : list Emitted;
}.

(** [new JobStore()] *)
Definition empty : JobStore := mkJobStore ∅ [].

(** The channel name [`job:${jobId}`]. *)
Definition jobChannel (id : string) : string := "job:" +:+ id.

Definition emit (e : string) (p : Payload) (st : JobStore) : JobStore :=
  mkJobStore (jobs st) (emitted st ++ [mkEmitted e p]).

(** [createJob(input)] *)
Definition createJob (now : Z) (input : CreateJobInput) (st : JobStore)
  : JobStore * Job :=
  let job :=
    {| jobId := input_jobId input;
       fileIds := input_fileIds input;
       status := queued;
       progress := 0;
       downloadUrl := None;
       s3Key := None;
       error := None;
       createdAt := now;
       updatedAt := now;
       processingStartedAt := None;
       completedAt := None |} in
  let st1 := mkJobStore (<[input_jobId input := job]> (jobs st)) (emitted st) in
  let st2 := emit (jobChannel (input_jobId input)) (TypedJob "created" job) st1 in
  let st3 := emit "job:created" (BareJob job) st2 in
  (st3, job).

(** [getJob(jobId)] *)
Definition getJob (id : string) (st : JobStore) : option Job :=
  jobs st !! id.

(** A key of the second spread wins when it is there. *)
Definition spread {A : Type} (old : A) (new : option A) : A :=
  match new with
  | Some v => v
  | None => old
  end.

Definition spreadOpt {A : Type} (old new : option A) : option A :=
  match new with
  | Some v => Some v
  | None => old
  end.

(** [{ ...job, ...updates, updatedAt: new Date() }] *)
Definition applyUpdates (now : Z) (job : Job) (updates : UpdateJobInput) : Job :=
  {| jobId := jobId job;
     fileIds := fileIds job;
     status := spread (status job) (upd_status updates);
     progress := spread (progress job) (upd_progress updates);
     downloadUrl := spreadOpt (downloadUrl job) (upd_downloadUrl updates);
     s3Key := spreadOpt (s3Key job) (upd_s3Key updates);
     error := spreadOpt (error job) (upd_error updates);
     createdAt := createdAt job;
     updatedAt := now;
     processingStartedAt :=
       spreadOpt (processingStartedAt job) (upd_processingStartedAt updates);
     completedAt := spreadOpt (completedAt job) (upd_completedAt updates) |}.

(** The completion events of [updateJob], after the [updated] one. *)
Definition emitCompletion (id : string) (updatedJob : Job) (st : JobStore)
  : JobStore :=
  match status updatedJob with
  | ready =>
      emit "job:completed" (BareJob updatedJob)
        (emit (jobChannel id) (TypedJob "completed" updatedJob) st)
  | failed =>
      emit "job:failed" (BareJob updatedJob)
        (emit (jobChannel id) (TypedJob "failed" updatedJob) st)
  | _ => st
  end.

(** [updateJob(jobId, updates)]; [None] is [undefined]. *)
Definition updateJob (now : Z) (id : string) (updates : UpdateJobInput)
    (st : JobStore) : JobStore * option Job :=
  match jobs st !! id with
  | None => (st, None)
  | Some job =>
      let updatedJob := applyUpdates now job updates in
      let st1 := mkJobStore (<[id := updatedJob]> (jobs st)) (emitted st) in
      let st2 := emit (jobChannel id) (TypedJob "updated" updatedJob) st1 in
      (emitCompletion id updatedJob st2, Some updatedJob)
  end.

(** [deleteJob(jobId)] *)
Definition deleteJob (id : string) (st : JobStore) : JobStore * bool :=
  (mkJobStore (delete id (jobs st)) (emitted st), bool_decide (is_Some (jobs st !! id))).

(** [getAllJobs()] *)
Definition getAllJobs (st : JobStore) : list Job :=
  (map_to_list (jobs st)).*2.

(** [getJobsByStatus(status)] *)
Definition getJobsByStatus (s : JobStatus) (st : JobStore) : list Job :=
  List.filter (fun job => bool_decide (status job = s)) (getAllJobs st).

(** [getQueuedJobs()] *)
Definition getQueuedJobs (st : JobStore) : list Job := getJobsByStatus queued st.

(** [getJobCount()] *)
Definition getJobCount (st : JobStore) : nat := size (jobs st).

(** The object [getStats()] returns. *)
Record Stats : Type := mkStats {
  total : nat;
  stats_queued : nat;
  stats_processing : nat;
  stats_ready : nat;
  stats_failed : nat;
}.

(** [getStats()] *)
Definition getStats (st : JobStore) : Stats :=
  let all := getAllJobs st in
  let count s := length (List.filter (fun j => bool_decide (status j = s)) all) in
  {| total := length all;
     stats_queued := count queued;
     stats_processing := count processing;
     stats_ready := count ready;
     stats_failed := count failed |}.

(** [clear()] *)
Definition clear (st : JobStore) : JobStore := mkJobStore ∅ (emitted st).

(** The default of [cleanup]'s parameter: [24 * 60 * 60 * 1000]. *)
Definition defaultMaxAgeMs : Z := 24 * 60 * 60 * 1000.

(** The test of [cleanup]'s loop body:
    [(job.status === "ready" || job.status === "failed") &&
     now - job.updatedAt.getTime() > maxAgeMs] *)
Definition isOld (now maxAgeMs : Z) (job : Job) : bool :=
  (bool_decide (status job = ready) || bool_decide (status job = failed))
  && (maxAgeMs <? now - updatedAt job).

(** One turn of [for (const [jobId, job] of this.jobs.entries())]: the
    state is the map as deleted from so far and the counter [cleaned]. *)
Definition cleanupEntry (now maxAgeMs : Z) (id : string) (job : Job)
    (acc : gmap string Job * nat) : gmap string Job * nat :=
  if isOld now maxAgeMs job then (delete id acc.1, S acc.2) else acc.

(** [cleanup(maxAgeMs)]: the loop runs over the entries the map had when it
    started (deleting the entry under the iterator does not disturb a [Map]
    iteration); [maxAgeMs = None] is a call without the argument. *)
Definition cleanup (now : Z) (maxAgeMs : option Z) (st : JobStore)
  : JobStore * nat :=
  let age := default defaultMaxAgeMs maxAgeMs in
  let r := map_fold (cleanupEntry now age) (jobs st, O) (jobs st) in
  (mkJobStore r.1 (emitted st), r.2).

(** [status === "ready" || status === "failed"], the test the routes and the
    clean-up share. *)
Definition isTerminal (s : JobStatus) : bool :=
  bool_decide (s = ready) || bool_decide (s = failed).

End JobStore.

(* ===================================================================== *)
(** ** Promises and numbers *)
(* ===================================================================== *)

(** What a rejected promise or a [catch] clause receives: an [Error] with
    its message, or some other thrown value. *)
Inductive Thrown : Type :=
  | ErrorObject (message : string)
  | OtherValue.

(** A promise that has settled. *)
Inductive Settled (A : Type) : Type :=
  | Fulfilled (value : A)
  | RejectedWith (reason : Thrown).
Arguments Fulfilled {A} value.
Arguments RejectedWith {A} reason.

(** [Promise.all] over promises that have all settled: the values in order,
    or a rejection. When several members reject, the one that rejects first
    in time wins; the model takes the first in the list, and no property
    below depends on which reason is kept. *)
Fixpoint promiseAll {A : Type} (ps : list (Settled A)) : Settled (list A) :=
  match ps with
  | [] => Fulfilled []
  | Fulfilled v :: rest =>
      match promiseAll rest with
      | Fulfilled vs => Fulfilled (v :: vs)
      | RejectedWith e => RejectedWith e
      end
  | RejectedWith e :: _ => RejectedWith e
  end.

(** [array.slice(start, end)] for [0 <= start <= end]. *)
Definition slice {A : Type} (start stop : nat) (l : list A) : list A :=
  take (stop - start) (drop start l).

Module Number.

(** A count as a double: exact below [2^53]. *)
Definition ofZ (z : Z) : PrimFloat.float :=
  PrimFloat.of_uint63 (Uint63.of_Z z).

(** [Math.round(x)]: the integer nearest to [x], a tie going up, which is
    [floor (x + 1/2)] on the exact value [m * 2^e] of the double. [NaN] and
    the infinities, which [Math.round] returns as they are, have no integer
    to stand for them and are read as [0]; the worker never rounds one. *)
Definition Math_round (x : PrimFloat.float) : Z :=
  match FloatOps.Prim2SF x with
  | SpecFloat.S754_finite s m e =>
      let n := if s then Z.neg m else Z.pos m in
      (Z.shiftl n (e + 1) + 1) / 2
  | _ => 0
  end.

End Number.

(* ===================================================================== *)
(** ** The queue ([queue.ts]) *)
(* ===================================================================== *)

Module Queue.

(** [interface QueueJob] *)
Record QueueJob : Type := mkQueueJob {
  jobId : string;
  fileIds : list Z;
  addedAt : Z;
  attempts : Z;
}.

(** [job.attempts++] *)
Definition bumpAttempts (job : QueueJob) : QueueJob :=
  mkQueueJob (jobId job) (fileIds job) (addedAt job) (attempts job + 1).

(** One call of [this.emit(event, job, error)]; the job is the object as it
    was when the event went out. *)
Record Emitted : Type := mkEmitted {
  event : string;
  job : option QueueJob;
  error : option Thrown;
}.

Section SimpleQueue.

(** The queue is generic in its handler. [World] is the state a handler may
    touch, [Pending] the state of a handler call suspended at an [await]. *)
Context {World Pending : Type}.

(** The promise a handler call returned. *)
Inductive Call : Type :=
  | Awaiting (p : Pending)
  | Resolved
  | Rejected (e : Thrown).

(** [type JobHandler = (job: QueueJob) => Promise<void>]: the part of the
    call that runs before its first [await], at the time [now]. *)
Definition JobHandler : Type := Z → QueueJob → World → World * Call.

(** [class SimpleQueue extends EventEmitter]. Besides the fields of the
    class: [emitted], the events so far; [calls], the calls of [processJob]
    that are suspended at [await this.handler(job)], oldest first, each with
    the promise it waits for; [waiters], the calls of [shutdown] suspended
    in their waiting loop, each with its [startTime] and [timeoutMs]. *)
Record SimpleQueue : Type := mkSimpleQueue {
  queue : list QueueJob;
  processing : bool;
  handler : option JobHandler;
  concurrency : Z;
  activeJobs : Z;
  maxRetries : Z;
  isRunning : bool;
  emitted : list Emitted;
  calls : list (QueueJob * Call);
  waiters : list (Z * Z);
}.

Definition set_queue (l : list QueueJob) (q : SimpleQueue) : SimpleQueue :=
  mkSimpleQueue l (processing q) (handler q) (concurrency q) (activeJobs q)
    (maxRetries q) (isRunning q) (emitted q) (calls q) (waiters q).

Definition set_handler (h : option JobHandler) (q : SimpleQueue) : SimpleQueue :=
  mkSimpleQueue (queue q) (processing q) h (concurrency q) (activeJobs q)
    (maxRetries q) (isRunning q) (emitted q) (calls q) (waiters q).

Definition set_activeJobs (n : Z) (q : SimpleQueue) : SimpleQueue :=
  mkSimpleQueue (queue q) (processing q) (handler q) (concurrency q) n
    (maxRetries q) (isRunning q) (emitted q) (calls q) (waiters q).

Definition set_isRunning (b : bool) (q : SimpleQueue) : SimpleQueue :=
  mkSimpleQueue (queue q) (processing q) (handler q) (concurrency q) (activeJobs q)
    (maxRetries q) b (emitted q) (calls q) (waiters q).

Definition set_calls (cs : list (QueueJob * Call)) (q : SimpleQueue) : SimpleQueue :=
  mkSimpleQueue (queue q) (processing q) (handler q) (concurrency q) (activeJobs q)
    (maxRetries q) (isRunning q) (emitted q) cs (waiters q).

Definition set_waiters (ws : list (Z * Z)) (q : SimpleQueue) : SimpleQueue :=
  mkSimpleQueue (queue q) (processing q) (handler q) (concurrency q) (activeJobs q)
    (maxRetries q) (isRunning q) (emitted q) (calls q) ws.

Definition emit (e : string) (j : option QueueJob) (err : option Thrown)
    (q : SimpleQueue) : SimpleQueue :=
  mkSimpleQueue (queue q) (processing q) (handler q) (concurrency q) (activeJobs q)
    (maxRetries q) (isRunning q) (emitted q ++ [mkEmitted e j err]) (calls q)
    (waiters q).

(** [new SimpleQueue(options)]: [options?.concurrency ?? 1] and
    [options?.maxRetries ?? 3]. *)
Definition create (optConcurrency optMaxRetries : option Z) : SimpleQueue :=
  {| queue := [];
     processing := false;
     handler := None;
     concurrency := default 1 optConcurrency;
     activeJobs := 0;
     maxRetries := default 3 optMaxRetries;
     isRunning := false;
     emitted := [];
     calls := [];
     waiters := [] |}.

(** [processJob(job)] up to [await this.handler(job)]: the counters, the
    [job:processing] event, and the handler's own first stretch. *)
Definition processJob (now : Z) (job : QueueJob) (q : SimpleQueue) (w : World)
  : SimpleQueue * World :=
  match handler q with
  | None => (q, w)
  | Some h =>
      let q1 := set_activeJobs (activeJobs q + 1) q in
      let job1 := bumpAttempts job in
      let q2 := emit "job:processing" (Some job1) None q1 in
      let '(w1, c) := h now job1 w in
      (set_calls (calls q2 ++ [(job1, c)]) q2, w1)
  end.

(** The loop of [tryProcess]:
    [while (this.activeJobs < this.concurrency && this.queue.length > 0)]
    with [this.queue.shift()] and [void this.processJob(job)] as its body.
    [pending] is [this.queue]; every turn shifts it, so the loop ends. *)
Fixpoint tryProcessLoop (now : Z) (pending : list QueueJob) (q : SimpleQueue)
    (w : World) : SimpleQueue * World :=
  match pending with
  | [] => (set_queue [] q, w)
  | job :: rest =>
      if activeJobs q <? concurrency q then
        let '(q1, w1) := processJob now job (set_queue rest q) w in
        tryProcessLoop now rest q1 w1
      else (set_queue (job :: rest) q, w)
  end.

(** [tryProcess()] *)
Definition tryProcess (now : Z) (q : SimpleQueue) (w : World)
  : SimpleQueue * World :=
  if negb (isRunning q) || negb (bool_decide (is_Some (handler q))) then (q, w)
  else tryProcessLoop now (queue q) q w.

(** [add(jobId, fileIds)] *)
Definition add (now : Z) (id : string) (files : list Z) (q : SimpleQueue)
    (w : World) : SimpleQueue * World :=
  let job := mkQueueJob id files now 0 in
  let q1 := set_queue (queue q ++ [job]) q in
  let q2 := emit "job:added" (Some job) None q1 in
  tryProcess now q2 w.

(** [process(handler)] *)
Definition process (now : Z) (h : JobHandler) (q : SimpleQueue) (w : World)
  : SimpleQueue * World :=
  tryProcess now (set_isRunning true (set_handler (Some h) q)) w.

(** The [finally] clause of [processJob]. *)
Definition processJobFinally (now : Z) (q : SimpleQueue) (w : World)
  : SimpleQueue * World :=
  tryProcess now (set_activeJobs (activeJobs q - 1) q) w.

(** [processJob(job)] from [await this.handler(job)] on, for the [k]-th
    suspended call once its promise has settled: the [try] branch, or the
    [catch] branch with the retry decision, then [finally]. [None] when
    there is no such call or its promise is still pending. *)
Definition processJobSettled (now : Z) (k : nat) (q : SimpleQueue) (w : World)
  : option (SimpleQueue * World) :=
  match calls q !! k with
  | Some (job, Resolved) =>
      let q1 := set_calls (delete k (calls q)) q in
      let q2 := emit "job:completed" (Some job) None q1 in
      Some (processJobFinally now q2 w)
  | Some (job, Rejected e) =>
      let q1 := set_calls (delete k (calls q)) q in
      let q2 :=
        if attempts job <? maxRetries q1 then
          emit "job:retry" (Some job) (Some e)
            (set_queue (queue q1 ++ [job]) q1)
        else emit "job:failed" (Some job) (Some e) q1 in
      Some (processJobFinally now q2 w)
  | _ => None
  end.

(** [size()] *)
Definition size (q : SimpleQueue) : nat := length (queue q).

(** [getActiveCount()] *)
Definition getActiveCount (q : SimpleQueue) : Z := activeJobs q.

(** [isQueueRunning()] *)
Definition isQueueRunning (q : SimpleQueue) : bool := isRunning q.

(** [pause()] *)
Definition pause (q : SimpleQueue) : SimpleQueue :=
  emit "queue:paused" None None (set_isRunning false q).

(** [resume()] *)
Definition resume (now : Z) (q : SimpleQueue) (w : World) : SimpleQueue * World :=
  tryProcess now (emit "queue:resumed" None None (set_isRunning true q)) w.

(** [stop()] *)
Definition stop (q : SimpleQueue) : SimpleQueue :=
  emit "queue:stopped" None None (set_queue [] (set_isRunning false q)).

(** The end of [shutdown]: [this.queue = []] and the [queue:shutdown] event. *)
Definition shutdownEnd (q : SimpleQueue) : SimpleQueue :=
  emit "queue:shutdown" None None (set_queue [] q).

(** One test of the waiting loop of [shutdown], at the time [now]:
    [while (this.activeJobs > 0)], the time-out [break], else another
    [await] of 100 ms. *)
Definition shutdownLoop (now startTime timeoutMs : Z) (q : SimpleQueue)
  : SimpleQueue :=
  if 0 <? activeJobs q then
    if timeoutMs <? now - startTime then shutdownEnd q
    else set_waiters (waiters q ++ [(startTime, timeoutMs)]) q
  else shutdownEnd q.

(** [shutdown(timeoutMs)] up to its first [await]; [None] is a call without
    the argument ([30000]). The clock is read once in this stretch, for
    [startTime] and for the first test of the loop. *)
Definition shutdown (now : Z) (timeoutMs : option Z) (q : SimpleQueue)
  : SimpleQueue :=
  shutdownLoop now now (default 30000 timeoutMs) (set_isRunning false q).

(** The [k]-th waiting [shutdown] wakes up from its [await]. *)
Definition shutdownWake (now : Z) (k : nat) (q : SimpleQueue)
  : option SimpleQueue :=
  match waiters q !! k with
  | Some (startTime, timeoutMs) =>
      Some (shutdownLoop now startTime timeoutMs
              (set_waiters (delete k (waiters q)) q))
  | None => None
  end.

End SimpleQueue.

Arguments Call : clear implicits.
Arguments JobHandler : clear implicits.
Arguments SimpleQueue : clear implicits.

End Queue.

(* ===================================================================== *)
(** ** The download worker ([src/jobs/downloadWorker.ts]) *)
(* ===================================================================== *)

Module Worker.

(** [s3Service] ([src/services/s3Service.ts]) is an external collaborator:
    the worker awaits [uploadFile(fileId)], a promise of [{ s3Key, size }],
    and [generatePresignedUrl(key)], a promise of the URL. Either may
    reject, and the outcome may change with the time of the call. *)
Record S3Service : Type := mkS3Service {
  uploadFile : Z → Z → Settled (string * Z);
  generatePresignedUrl : Z → string → Settled string;
}.

(** [const PARALLEL_FILE_BATCH_SIZE = 3] *)
Definition PARALLEL_FILE_BATCH_SIZE : nat := 3.

(** [Math.round((processedCount / totalFiles) * 100)], in doubles. *)
Definition percent (processedCount totalFiles : Z) : Z :=
  Number.Math_round
    (PrimFloat.mul
       (PrimFloat.div (Number.ofZ processedCount) (Number.ofZ totalFiles))
       (Number.ofZ 100)).

(** The same for the two counters of the loop. *)
Definition progressOf (processedCount totalFiles : nat) : Z :=
  percent (Z.of_nat processedCount) (Z.of_nat totalFiles).

(** Where a call of [processDownloadJob] can be suspended, with the local
    variables that are live there: at [await Promise.all(...)] for the
    batch that starts at index [i], or at
    [await s3Service.generatePresignedUrl(finalS3Key)]. *)
Inductive Pending : Type :=
  | AwaitBatch (i processedCount : nat) (processedS3Keys : list string)
  | AwaitUrl (finalS3Key : string).

Abbreviation Call := (Queue.Call Pending).
Abbreviation DownloadQueue := (Queue.SimpleQueue JobStore.JobStore Pending).

(** The batch of the loop turn at index [i]:
    [fileIds.slice(i, i + PARALLEL_FILE_BATCH_SIZE)]. *)
Definition batchAt (i : nat) (fileIds : list Z) : list Z :=
  slice i (i + PARALLEL_FILE_BATCH_SIZE) fileIds.

(** [processFile(fileId)], once the simulated delay and the upload are over:
    the upload's result. *)
Definition processFile (s3 : S3Service) (now fileId : Z) : Settled (string * Z) :=
  uploadFile s3 now fileId.

(** [Promise.all(batch.map(async (fileId) => (await processFile(fileId)).s3Key))] *)
Definition processBatch (s3 : S3Service) (now : Z) (batch : list Z)
  : Settled (list string) :=
  match promiseAll (map (processFile s3 now) batch) with
  | Fulfilled results => Fulfilled (results.*1)
  | RejectedWith e => RejectedWith e
  end.

(** The [catch] clause: the job is marked failed and the error is thrown
    again for the queue. *)
Definition catchClause (now : Z) (id : string) (e : Thrown)
    (store : JobStore.JobStore) : JobStore.JobStore * Call :=
  let errorMessage :=
    match e with
    | ErrorObject message => message
    | OtherValue => "Unknown error"
    end in
  let updates :=
    {| JobStore.upd_status := Some JobStore.failed;
       JobStore.upd_progress := None;
       JobStore.upd_downloadUrl := None;
       JobStore.upd_s3Key := None;
       JobStore.upd_error := Some errorMessage;
       JobStore.upd_processingStartedAt := None;
       JobStore.upd_completedAt := Some now |} in
  ((JobStore.updateJob now id updates store).1, Queue.Rejected e).

(** After the loop: the key the URL is asked for, and the call is
    suspended on [generatePresignedUrl]. *)
Definition afterLoop (id : string) (processedS3Keys : list string) : Pending :=
  AwaitUrl
    match last processedS3Keys with
    | Some key => key
    | None => "downloads/" +:+ id +:+ ".zip"
    end.

(** The test [i < totalFiles] of the [for] loop: another batch, or the
    code after the loop. *)
Definition loopTest (queueJob : Queue.QueueJob) (i processedCount : nat)
    (processedS3Keys : list string) : Pending :=
  if (i <? length (Queue.fileIds queueJob))%nat
  then AwaitBatch i processedCount processedS3Keys
  else afterLoop (Queue.jobId queueJob) processedS3Keys.

(** [processDownloadJob(queueJob)] up to its first [await]. *)
Definition processDownloadJob : Queue.JobHandler JobStore.JobStore Pending :=
  λ now queueJob store,
    match JobStore.getJob (Queue.jobId queueJob) store with
    | None =>
        (store,
         Queue.Rejected (ErrorObject ("Job not found: " +:+ Queue.jobId queueJob)))
    | Some _ =>
        let updates :=
          {| JobStore.upd_status := Some JobStore.processing;
             JobStore.upd_progress := Some 0;
             JobStore.upd_downloadUrl := None;
             JobStore.upd_s3Key := None;
             JobStore.upd_error := None;
             JobStore.upd_processingStartedAt := Some now;
             JobStore.upd_completedAt := None |} in
        ((JobStore.updateJob now (Queue.jobId queueJob) updates store).1,
         Queue.Awaiting (loopTest queueJob 0 0 []))
    end.

(** [processDownloadJob(queueJob)] from the [await] it is suspended at to
    the next one, or to its end. *)
Definition resume (s3 : S3Service) (now : Z) (queueJob : Queue.QueueJob)
    (p : Pending) (store : JobStore.JobStore) : JobStore.JobStore * Call :=
  let id := Queue.jobId queueJob in
  let fileIds := Queue.fileIds queueJob in
  let totalFiles := length fileIds in
  match p with
  | AwaitBatch i processedCount processedS3Keys =>
      let batch := batchAt i fileIds in
      match processBatch s3 now batch with
      | Fulfilled batchResults =>
          let processedS3Keys1 := processedS3Keys ++ batchResults in
          let processedCount1 := (processedCount + length batch)%nat in
          let progress := progressOf processedCount1 totalFiles in
          let updates :=
            {| JobStore.upd_status := None;
               JobStore.upd_progress := Some progress;
               JobStore.upd_downloadUrl := None;
               JobStore.upd_s3Key := None;
               JobStore.upd_error := None;
               JobStore.upd_processingStartedAt := None;
               JobStore.upd_completedAt := None |} in
          ((JobStore.updateJob now id updates store).1,
           Queue.Awaiting
             (loopTest queueJob (i + PARALLEL_FILE_BATCH_SIZE) processedCount1
                processedS3Keys1))
      | RejectedWith e => catchClause now id e store
      end
  | AwaitUrl finalS3Key =>
      match generatePresignedUrl s3 now finalS3Key with
      | Fulfilled url =>
          let updates :=
            {| JobStore.upd_status := Some JobStore.ready;
               JobStore.upd_progress := Some 100;
               JobStore.upd_downloadUrl := Some url;
               JobStore.upd_s3Key := None;
               JobStore.upd_error := None;
               JobStore.upd_processingStartedAt := None;
               JobStore.upd_completedAt := Some now |} in
          ((JobStore.updateJob now id updates store).1, Queue.Resolved)
      | RejectedWith e => catchClause now id e store
      end
  end.

(** The two singletons the worker module works on: [jobStore] and
    [downloadQueue]. *)
Record System : Type := mkSystem {
  jobStore : JobStore.JobStore;
  downloadQueue : DownloadQueue;
}.

Definition ofPair (r : DownloadQueue * JobStore.JobStore) : System :=
  mkSystem r.2 r.1.

(** The process at start-up, with the options the queue is built with. *)
Definition boot (optConcurrency optMaxRetries : option Z) : System :=
  mkSystem JobStore.empty (Queue.create optConcurrency optMaxRetries).

(** [export const downloadQueue = new SimpleQueue({ concurrency: 5, maxRetries: 3 })] *)
Definition initial : System := boot (Some 5) (Some 3).

(** [initializeWorker()]; its listeners only log. *)
Definition initializeWorker (now : Z) (sys : System) : System :=
  ofPair (Queue.process now processDownloadJob (downloadQueue sys) (jobStore sys)).

(** [queueDownloadJob(jobId, fileIds)] *)
Definition queueDownloadJob (now : Z) (id : string) (files : list Z)
    (sys : System) : System :=
  let store := (JobStore.createJob now (JobStore.mkCreateJobInput id files)
                  (jobStore sys)).1 in
  ofPair (Queue.add now id files (downloadQueue sys) store).

(** [getQueueStats()] *)
Definition getQueueStats (sys : System) : nat * Z * JobStore.Stats :=
  (Queue.size (downloadQueue sys), Queue.getActiveCount (downloadQueue sys),
   JobStore.getStats (jobStore sys)).

(** [shutdownWorker()] up to the end of [await downloadQueue.shutdown()]'s
    first stretch. *)
Definition shutdownWorker (now : Z) (sys : System) : System :=
  mkSystem (jobStore sys) (Queue.shutdown now None (downloadQueue sys)).

(** The event loop resumes the [k]-th suspended call of [processJob]: a
    handler that waits for the storage service runs to its next [await]
    or to its end, and a call whose handler has settled runs the rest of
    [processJob]. *)
Definition wake (s3 : S3Service) (now : Z) (k : nat) (sys : System)
  : option System :=
  let q := downloadQueue sys in
  match Queue.calls q !! k with
  | Some (queueJob, Queue.Awaiting p) =>
      let '(store, c) := resume s3 now queueJob p (jobStore sys) in
      Some (mkSystem store (Queue.set_calls (<[k := (queueJob, c)]> (Queue.calls q)) q))
  | Some (_, _) => ofPair <$> Queue.processJobSettled now k q (jobStore sys)
  | None => None
  end.

End Worker.

(* ===================================================================== *)
(** ** The async download routes *)
(* ===================================================================== *)

Module Routes.

(** [z.number().int().min(10000).max(100000000)] *)
Definition fileIdSchema (n : Z) : bool :=
  (10000 <=? n) && (n <=? 100000000).

(** The [file_ids] of [AsyncDownloadRequestSchema] and of a job of
    [BatchDownloadRequestSchema]: [z.array(...).min(1).max(1000)]. *)
Definition fileIdsSchema (file_ids : list Z) : bool :=
  forallb fileIdSchema file_ids
  && (1 <=? length file_ids)%nat && (length file_ids <=? 1000)%nat.

(** The [jobs] of [BatchDownloadRequestSchema]: [z.array(...).min(1).max(10)]. *)
Definition batchSchema (reqs : list (list Z)) : bool :=
  forallb fileIdsSchema reqs
  && (1 <=? length reqs)%nat && (length reqs <=? 10)%nat.

(** [`/v1/download/status/${jobId}`] *)
Definition statusUrl (id : string) : string := "/v1/download/status/" +:+ id.

(** The body of a 202 answer for one job. *)
Record Accepted : Type := mkAccepted {
  acc_jobId : string;
  acc_status : JobStore.JobStatus;
  acc_totalFiles : nat;
  acc_statusUrl : string;
}.

(** The answers of the two submission routes. The request validator
    answers 400 before the handler runs when the body does not match the
    route's schema. *)
Inductive SubmitResponse : Type :=
  | Accepted202 (body : list Accepted)
  | InvalidInput400.

(** What a handler of a submission route does for one job, [jobId] being
    the value of [crypto.randomUUID()]. *)
Definition submitOne (now : Z) (id : string) (file_ids : list Z)
    (sys : Worker.System) : Accepted * Worker.System :=
  (mkAccepted id JobStore.queued (length file_ids) (statusUrl id),
   Worker.queueDownloadJob now id file_ids sys).

(** [POST /v1/download/async] *)
Definition asyncDownload (now : Z) (uuid : string) (file_ids : list Z)
    (sys : Worker.System) : SubmitResponse * Worker.System :=
  if fileIdsSchema file_ids then
    let '(body, sys1) := submitOne now uuid file_ids sys in
    (Accepted202 [body], sys1)
  else (InvalidInput400, sys).

(** The handler of the batch route: [jobRequests.map(async (req) => ...)]
    runs each callback up to its [await] in turn, so the jobs are created
    and queued in order; [uuids] are the values [crypto.randomUUID()]
    returns, one per job. *)
Fixpoint submitAll (now : Z) (uuids : list string) (reqs : list (list Z))
    (sys : Worker.System) : list Accepted * Worker.System :=
  match reqs, uuids with
  | file_ids :: reqs1, id :: uuids1 =>
      let '(body, sys1) := submitOne now id file_ids sys in
      let '(bodies, sys2) := submitAll now uuids1 reqs1 sys1 in
      (body :: bodies, sys2)
  | _, _ => ([], sys)
  end.

(** [POST /v1/download/batch] *)
Definition batchDownload (now : Z) (uuids : list string) (reqs : list (list Z))
    (sys : Worker.System) : SubmitResponse * Worker.System :=
  if batchSchema reqs then
    let '(bodies, sys1) := submitAll now uuids reqs sys in
    (Accepted202 bodies, sys1)
  else (InvalidInput400, sys).

(** [[0-9a-f]] under the [i] flag. *)
Definition isHex (c : ascii) : bool :=
  let n := nat_of_ascii c in
  ((48 <=? n) && (n <=? 57) || (97 <=? n) && (n <=? 102)
   || (65 <=? n) && (n <=? 70))%nat.

(** [[0-9a-f]{n}] at the head of [s]: what is left of [s], if it matches. *)
Fixpoint hexGroup (n : nat) (s : string) : option string :=
  match n with
  | O => Some s
  | S n1 =>
      match s with
      | String c rest => if isHex c then hexGroup n1 rest else None
      | EmptyString => None
      end
  end.

(** A [-] at the head of [s]. *)
Definition dash (s : string) : option string :=
  match s with
  | String "-"%char rest => Some rest
  | _ => None
  end.

(** Groups of hex digits of the given lengths with a [-] between two
    groups, at the head of [s]. *)
Fixpoint hexGroups (lengths : list nat) (s : string) : option string :=
  match lengths with
  | [] => Some s
  | n :: rest =>
      match hexGroup n s with
      | Some s1 =>
          match rest with
          | [] => Some s1
          | _ :: _ =>
              match dash s1 with
              | Some s2 => hexGroups rest s2
              | None => None
              end
          end
      | None => None
      end
  end.

(** [/^[0-9a-f]{8}-[0-9a-f]{4}-[0-9a-f]{4}-[0-9a-f]{4}-[0-9a-f]{12}$/i.test(jobId)] *)
Definition uuidRegexTest (jobId : string) : bool :=
  match hexGroups [8; 4; 4; 4; 12]%nat jobId with
  | Some EmptyString => true
  | _ => false
  end.

(** The JSON a subscriber gets for a job; [x ?? null] is the [option]. *)
Record JobView : Type := mkJobView {
  view_jobId : string;
  view_status : JobStore.JobStatus;
  view_progress : Z;
  view_downloadUrl : option string;
  view_error : option string;
}.

Definition viewOf (job : JobStore.Job) : JobView :=
  mkJobView (JobStore.jobId job) (JobStore.status job) (JobStore.progress job)
    (JobStore.downloadUrl job) (JobStore.error job).

(** The answers of [GET /v1/download/subscribe/:jobId]: the three JSON
    answers, or the event stream, which opens with the [connected] event
    ([jobId], [status] and [progress] of the job as read). *)
Inductive SubscribeResponse : Type :=
  | InvalidFormat400
  | JobNotFound404 (jobId : string)
  | AlreadyCompleted200 (view : JobView)
  | StreamSSE (jobId : string) (status : JobStore.JobStatus) (progress : Z).

(** [GET /v1/download/subscribe/:jobId], up to the answer. *)
Definition subscribe (jobId : string) (store : JobStore.JobStore)
  : SubscribeResponse :=
  if negb (uuidRegexTest jobId) then InvalidFormat400
  else
    match JobStore.getJob jobId store with
    | None => JobNotFound404 jobId
    | Some job =>
        if JobStore.isTerminal (JobStore.status job)
        then AlreadyCompleted200 (viewOf job)
        else StreamSSE (JobStore.jobId job) (JobStore.status job)
               (JobStore.progress job)
    end.

(** Whether an answer opened a stream. *)
Definition opensStream (r : SubscribeResponse) : bool :=
  match r with
  | StreamSSE _ _ _ => true
  | _ => false
  end.

End Routes.

(* ===================================================================== *)
(** ** The running process *)
(* ===================================================================== *)

Module App.

(** What can happen to the process: a request on a route, a call of the
    public operations of the worker, the queue and the store, or the event
    loop resuming a suspended call. A batch request that passes its schema
    acts as the single requests of its jobs, one after the other. *)
Inductive Op : Type :=
  | InitializeWorker (now : Z)
  | PostAsync (now : Z) (uuid : string) (file_ids : list Z)
  | Wake (now : Z) (k : nat)
  | Cleanup (now : Z) (maxAgeMs : option Z)
  | Pause
  | Resume (now : Z)
  | Stop
  | Shutdown (now : Z) (timeoutMs : option Z)
  | ShutdownWake (now : Z) (k : nat).

(** The job ids the queue holds an entry for, waiting or being processed. *)
Definition entryIds (q : Worker.DownloadQueue) : list string :=
  map Queue.jobId (Queue.queue q) ++ map (λ c, Queue.jobId c.1) (Queue.calls q).

(** The job ids that the events of a log of the queue carry. *)
Definition loggedIds (evs : list Queue.Emitted) : list string :=
  omap (λ ev, Queue.jobId <$> Queue.job ev) evs.

(** [crypto.randomUUID()] never returns an id it returned before: none that
    the store or the queue holds, and none that the queue has emitted an
    event for. *)
Definition fresh (uuid : string) (sys : Worker.System) : bool :=
  bool_decide (JobStore.jobs (Worker.jobStore sys) !! uuid = None)
  && bool_decide (uuid ∉ entryIds (Worker.downloadQueue sys))
  && bool_decide (uuid ∉ loggedIds (Queue.emitted (Worker.downloadQueue sys))).

(** One step of the process; [None] when the step cannot happen (no such
    suspended call, or an id that is not fresh). *)
Definition step (s3 : Worker.S3Service) (op : Op) (sys : Worker.System)
  : option Worker.System :=
  let store := Worker.jobStore sys in
  let q := Worker.downloadQueue sys in
  match op with
  | InitializeWorker now => Some (Worker.initializeWorker now sys)
  | PostAsync now uuid file_ids =>
      if fresh uuid sys
      then Some (Routes.asyncDownload now uuid file_ids sys).2
      else None
  | Wake now k => Worker.wake s3 now k sys
  | Cleanup now maxAgeMs =>
      Some (Worker.mkSystem (JobStore.cleanup now maxAgeMs store).1 q)
  | Pause => Some (Worker.mkSystem store (Queue.pause q))
  | Resume now => Some (Worker.ofPair (Queue.resume now q store))
  | Stop => Some (Worker.mkSystem store (Queue.stop q))
  | Shutdown now timeoutMs =>
      Some (Worker.mkSystem store (Queue.shutdown now timeoutMs q))
  | ShutdownWake now k => Worker.mkSystem store <$> Queue.shutdownWake now k q
  end.

(** Running a list of steps, while they can happen. *)
Fixpoint run (s3 : Worker.S3Service) (ops : list Op) (sys : Worker.System)
  : option Worker.System :=
  match ops with
  | [] => Some sys
  | op :: rest => step s3 op sys ≫= run s3 rest
  end.

(** The states the process can be in, from a start-up with the given queue
    options. *)
Inductive reachable (s3 : Worker.S3Service) (optConcurrency optMaxRetries : option Z)
  : Worker.System → Prop :=
  | reachable_boot :
      reachable s3 optConcurrency optMaxRetries
        (Worker.boot optConcurrency optMaxRetries)
  | reachable_step sys op sys' :
      reachable s3 optConcurrency optMaxRetries sys →
      step s3 op sys = Some sys' →
      reachable s3 optConcurrency optMaxRetries sys'.

End App.

(* ===================================================================== *)
(** ** Properties of the job store *)
(* ===================================================================== *)

Section JobStoreFacts.
Import JobStore.

Implicit Types (st : JobStore) (job : Job) (id : string) (u : UpdateJobInput).

Lemma updateJob_missing now id u st :
  jobs st !! id = None → updateJob now id u st = (st, None).
Proof. intros H. unfold updateJob. by rewrite H. Qed.

Lemma updateJob_present now id u st job :
  jobs st !! id = Some job →
  (updateJob now id u st).2 = Some (applyUpdates now job u) ∧
  jobs (updateJob now id u st).1 = <[id := applyUpdates now job u]> (jobs st).
Proof.
  intros H. unfold updateJob. rewrite H. cbn. split; [done|].
  unfold emitCompletion. by destruct (status (applyUpdates now job u)).
Qed.

(** Events a call added to the log: the log only grows at its end. *)
Definition emittedBy st st' : list Emitted :=
  drop (length (emitted st)) (emitted st').

(** The typed events ([{ type, job }]) of a list that went out on the
    channel of the job [id]: the per-job stream. *)
Definition onJobStream id (e : Emitted) : bool :=
  match payload e with
  | TypedJob _ _ => bool_decide (event e = jobChannel id)
  | BareJob _ => false
  end.

Definition perJobStream id (evs : list Emitted) : list Emitted :=
  List.filter (onJobStream id) evs.

Lemma emittedBy_app st evs :
  emittedBy st (mkJobStore (jobs st) (emitted st ++ evs)) = evs.
Proof. unfold emittedBy. cbn. by rewrite drop_app_length. Qed.

Lemma onJobStream_typed id ty job :
  onJobStream id (mkEmitted (jobChannel id) (TypedJob ty job)) = true.
Proof. unfold onJobStream. cbn. by rewrite bool_decide_eq_true. Qed.

Lemma onJobStream_bare id e job : onJobStream id (mkEmitted e (BareJob job)) = false.
Proof. done. Qed.

(** What one call of [updateJob] on a stored job emits, in order. *)
Definition updateEvents id (updatedJob : Job) : list Emitted :=
  mkEmitted (jobChannel id) (TypedJob "updated" updatedJob) ::
  match status updatedJob with
  | ready =>
      [mkEmitted (jobChannel id) (TypedJob "completed" updatedJob);
       mkEmitted "job:completed" (BareJob updatedJob)]
  | failed =>
      [mkEmitted (jobChannel id) (TypedJob "failed" updatedJob);
       mkEmitted "job:failed" (BareJob updatedJob)]
  | _ => []
  end.

Lemma updateJob_emitted now id u st job :
  jobs st !! id = Some job →
  emitted (updateJob now id u st).1 =
    emitted st ++ updateEvents id (applyUpdates now job u).
Proof.
  intros H. unfold updateJob, updateEvents, emitCompletion. rewrite H.
  generalize (applyUpdates now job u). intros j'. cbv zeta.
  destruct (status j'); cbn; rewrite <- ?app_assoc; done.
Qed.

Lemma perJobStream_updateEvents id job :
  perJobStream id (updateEvents id job) =
    mkEmitted (jobChannel id) (TypedJob "updated" job) ::
    match status job with
    | ready => [mkEmitted (jobChannel id) (TypedJob "completed" job)]
    | failed => [mkEmitted (jobChannel id) (TypedJob "failed" job)]
    | _ => []
    end.
Proof.
  unfold perJobStream, updateEvents.
  destruct (status job); simpl List.filter;
    rewrite ?onJobStream_typed, ?onJobStream_bare; done.
Qed.

Lemma updateJob_emittedBy now id u st job :
  jobs st !! id = Some job →
  emittedBy st (updateJob now id u st).1 = updateEvents id (applyUpdates now job u).
Proof.
  intros H. unfold emittedBy. rewrite (updateJob_emitted _ _ _ _ _ H).
  by rewrite drop_app_length.
Qed.

(** The loop of [cleanup], as an invariant over the entries visited. *)
Lemma cleanup_fold now age (m0 m : gmap string Job) :
  let r := map_fold (cleanupEntry now age) (m0, O) m in
  (∀ k, r.1 !! k =
        match m !! k with
        | Some j => if isOld now age j then None else m0 !! k
        | None => m0 !! k
        end) ∧
  (r.2 + size (filter (λ kv, isOld now age kv.2 = false) m) = size m)%nat.
Proof.
  cbv zeta. apply (map_fold_weak_ind (λ r m,
    (∀ k, r.1 !! k =
          match m !! k with
          | Some j => if isOld now age j then None else m0 !! k
          | None => m0 !! k
          end) ∧
    (r.2 + size (filter (λ kv, isOld now age kv.2 = false) m) = size m)%nat)).
  - split; [intros k; by rewrite lookup_empty|].
    by rewrite map_filter_empty, map_size_empty.
  - intros i x m' r Hi [Hlook Hsize]. unfold cleanupEntry.
    destruct (isOld now age x) eqn:Hold; cbn.
    + split.
      * intros k. destruct (decide (k = i)) as [->|Hne].
        -- by rewrite lookup_delete_eq, lookup_insert_eq, Hold.
        -- rewrite lookup_delete_ne, lookup_insert_ne by done. apply Hlook.
      * rewrite map_filter_insert_False by (cbn; congruence).
        rewrite delete_id by done.
        rewrite map_size_insert_None by done. lia.
    + split.
      * intros k. destruct (decide (k = i)) as [->|Hne].
        -- rewrite lookup_insert_eq, Hold. specialize (Hlook i).
           by rewrite Hi in Hlook.
        -- rewrite lookup_insert_ne by done. apply Hlook.
      * rewrite map_filter_insert_True by done.
        rewrite !map_size_insert_None; [lia|done|].
        apply map_lookup_filter_None. by left.
Qed.

Lemma cleanup_lookup now maxAgeMs st id :
  jobs (cleanup now maxAgeMs st).1 !! id =
    match jobs st !! id with
    | Some j => if isOld now (default defaultMaxAgeMs maxAgeMs) j then None else Some j
    | None => None
    end.
Proof.
  unfold cleanup. cbn.
  destruct (cleanup_fold now (default defaultMaxAgeMs maxAgeMs) (jobs st) (jobs st))
    as [Hlook _].
  rewrite Hlook. by destruct (jobs st !! id).
Qed.

Lemma cleanup_jobs now maxAgeMs st :
  jobs (cleanup now maxAgeMs st).1 =
    filter (λ kv, isOld now (default defaultMaxAgeMs maxAgeMs) kv.2 = false) (jobs st).
Proof.
  apply map_eq. intros k. rewrite cleanup_lookup, map_lookup_filter.
  destruct (jobs st !! k) as [j|]; cbn; [|done].
  destruct (isOld _ _ j) eqn:E.
  - by rewrite option_guard_False by (cbn; congruence).
  - by rewrite option_guard_True.
Qed.

Lemma cleanup_count now maxAgeMs st :
  (size (jobs st) = (cleanup now maxAgeMs st).2 + size (jobs (cleanup now maxAgeMs st).1))%nat.
Proof.
  rewrite cleanup_jobs. unfold cleanup. cbn.
  destruct (cleanup_fold now (default defaultMaxAgeMs maxAgeMs) (jobs st) (jobs st))
    as [_ Hsize].
  lia.
Qed.

Lemma isOld_spec now age job :
  isOld now age job = true ↔
  (status job = ready ∨ status job = failed) ∧ age < now - updatedAt job.
Proof.
  unfold isOld. rewrite andb_true_iff, orb_true_iff, !bool_decide_eq_true.
  by rewrite Z.ltb_lt.
Qed.

End JobStoreFacts.

(* ===================================================================== *)
(** ** Sample data *)
(* ===================================================================== *)

Module Sample.

(** An id as [crypto.randomUUID()] returns them. *)
Definition uuid1 : string := "123e4567-e89b-42d3-a456-426614174000".
Definition uuid2 : string := "123e4567-e89b-42d3-a456-426614174001".

(** A job that failed with one of its four files left. *)
Definition failedJob : JobStore.Job :=
  {| JobStore.jobId := uuid1;
     JobStore.fileIds := [10001; 10002; 10003; 10004];
     JobStore.status := JobStore.failed;
     JobStore.progress := 75;
     JobStore.downloadUrl := None;
     JobStore.s3Key := None;
     JobStore.error := Some "upload failed";
     JobStore.createdAt := 1000;
     JobStore.updatedAt := 5000;
     JobStore.processingStartedAt := Some 1000;
     JobStore.completedAt := Some 5000 |}.

(** A job half way through. *)
Definition processingJob : JobStore.Job :=
  {| JobStore.jobId := uuid2;
     JobStore.fileIds := [10001; 10002; 10003; 10004; 10005; 10006];
     JobStore.status := JobStore.processing;
     JobStore.progress := 50;
     JobStore.downloadUrl := None;
     JobStore.s3Key := None;
     JobStore.error := None;
     JobStore.createdAt := 2000;
     JobStore.updatedAt := 4000;
     JobStore.processingStartedAt := Some 2000;
     JobStore.completedAt := None |}.

Definition store : JobStore.JobStore :=
  JobStore.mkJobStore (<[uuid1 := failedJob]> (<[uuid2 := processingJob]> ∅)) [].

(** The update a new attempt of the worker starts with. *)
Definition startUpdate (now : Z) : JobStore.UpdateJobInput :=
  {| JobStore.upd_status := Some JobStore.processing;
     JobStore.upd_progress := Some 0;
     JobStore.upd_downloadUrl := None;
     JobStore.upd_s3Key := None;
     JobStore.upd_error := None;
     JobStore.upd_processingStartedAt := Some now;
     JobStore.upd_completedAt := None |}.

(** The update the worker ends a successful attempt with. *)
Definition readyUpdate (now : Z) (url : string) : JobStore.UpdateJobInput :=
  {| JobStore.upd_status := Some JobStore.ready;
     JobStore.upd_progress := Some 100;
     JobStore.upd_downloadUrl := Some url;
     JobStore.upd_s3Key := None;
     JobStore.upd_error := None;
     JobStore.upd_processingStartedAt := None;
     JobStore.upd_completedAt := Some now |}.

(** A storage service that takes every file below 20000 and issues every
    URL. *)
Definition s3 : Worker.S3Service :=
  Worker.mkS3Service
    (λ _ fileId,
       if fileId <? 20000 then Fulfilled ("downloads/file.zip", 1024)
       else RejectedWith (ErrorObject "upload failed"))
    (λ _ key, Fulfilled ("https://storage/" +:+ key)).

(** A storage service that takes every file and issues every URL. *)
Definition s3Up : Worker.S3Service :=
  Worker.mkS3Service
    (λ _ _, Fulfilled ("downloads/file.zip", 1024))
    (λ _ key, Fulfilled ("https://storage/" +:+ key)).

(** A storage service that is down. *)
Definition s3Down : Worker.S3Service :=
  Worker.mkS3Service
    (λ _ _, RejectedWith (ErrorObject "storage unavailable"))
    (λ _ _, RejectedWith (ErrorObject "storage unavailable")).

End Sample.

(* ===================================================================== *)
(** ** The store: updates, events and clean-up *)
(* ===================================================================== *)

Section JobStoreClaims.
Import JobStore.

Implicit Types (st : JobStore) (job : Job) (id : string) (u : UpdateJobInput).

Lemma sample_lookup_uuid1 : jobs Sample.store !! Sample.uuid1 = Some Sample.failedJob.
Proof. unfold Sample.store. cbn. apply lookup_insert_eq. Qed.

Lemma sample_lookup_uuid2 :
  jobs Sample.store !! Sample.uuid2 = Some Sample.processingJob.
Proof.
  unfold Sample.store. cbn. rewrite lookup_insert_ne by done.
  apply lookup_insert_eq.
Qed.

(** C1, the claim as stated, fails: the failed job [uuid1] is terminal, and
    the update a retried attempt starts with is applied to it: afterwards
    the stored job is no longer the one that was stored. *)
Lemma terminal_update_is_applied :
  jobs Sample.store !! Sample.uuid1 = Some Sample.failedJob ∧
  isTerminal (status Sample.failedJob) = true ∧
  ∃ job',
    jobs (updateJob 6000 Sample.uuid1 (Sample.startUpdate 6000) Sample.store).1
      !! Sample.uuid1 = Some job' ∧
    status job' = processing ∧ progress job' = 0 ∧ job' ≠ Sample.failedJob.
Proof.
  split; [apply sample_lookup_uuid1|]. split; [done|].
  destruct (updateJob_present 6000 Sample.uuid1 (Sample.startUpdate 6000)
              Sample.store Sample.failedJob sample_lookup_uuid1) as [_ Hjobs].
  eexists. rewrite Hjobs, lookup_insert_eq. split; [done|].
  split; [done|]. split; [done|]. intros Heq. discriminate Heq.
Qed.

(** C1, as amended: [updateJob] treats a terminal job like any other. For
    every stored job, whatever its status, the call returns and stores the
    merge of the job and the update: a field the update carries replaces
    the stored one, [updatedAt] becomes the time of the call, and [jobId],
    [fileIds], [createdAt] and the fields the update does not carry stay;
    no other job changes. *)
Theorem updateJob_merges_into_any_job now id u st job :
  jobs st !! id = Some job →
  let st' := (updateJob now id u st).1 in
  let job' := applyUpdates now job u in
  (updateJob now id u st).2 = Some job' ∧
  jobs st' !! id = Some job' ∧
  (∀ id', id' ≠ id → jobs st' !! id' = jobs st !! id') ∧
  jobId job' = jobId job ∧ fileIds job' = fileIds job ∧
  createdAt job' = createdAt job ∧ updatedAt job' = now ∧
  status job' = default (status job) (upd_status u) ∧
  progress job' = default (progress job) (upd_progress u) ∧
  downloadUrl job' = from_option Some (downloadUrl job) (upd_downloadUrl u) ∧
  s3Key job' = from_option Some (s3Key job) (upd_s3Key u) ∧
  error job' = from_option Some (error job) (upd_error u) ∧
  processingStartedAt job' =
    from_option Some (processingStartedAt job) (upd_processingStartedAt u) ∧
  completedAt job' = from_option Some (completedAt job) (upd_completedAt u).
Proof.
  intros H st' job'.
  destruct (updateJob_present now id u st job H) as [Hret Hjobs].
  split; [exact Hret|]. subst st'. rewrite Hjobs.
  split; [apply lookup_insert_eq|].
  split; [intros id' Hne; by rewrite lookup_insert_ne|].
  subst job'. destruct u as [us up ud uk ue ups uc]. cbn.
  destruct us, up, ud, uk, ue, ups, uc; done.
Qed.

(** The amended C1 at the failed sample job and the update of a retry. *)
Lemma updateJob_merges_into_any_job_witness :
  jobs (updateJob 6000 Sample.uuid1 (Sample.startUpdate 6000) Sample.store).1
    !! Sample.uuid1 =
  Some (applyUpdates 6000 Sample.failedJob (Sample.startUpdate 6000)).
Proof.
  exact (proj1 (proj2 (updateJob_merges_into_any_job 6000 Sample.uuid1
    (Sample.startUpdate 6000) Sample.store Sample.failedJob sample_lookup_uuid1))).
Defined.

(** C3, the claim as stated, fails: the update that completes the sample job
    [uuid2] puts two events on the stream of that job, [updated] and then
    [completed]. *)
Lemma update_to_ready_emits_two_events :
  let st' :=
    (updateJob 7000 Sample.uuid2 (Sample.readyUpdate 7000 "https://storage/x")
       Sample.store).1 in
  jobs Sample.store !! Sample.uuid2 = Some Sample.processingJob ∧
  length (perJobStream Sample.uuid2 (emittedBy Sample.store st')) = 2%nat.
Proof.
  cbv zeta. split; [apply sample_lookup_uuid2|].
  rewrite (updateJob_emittedBy _ _ _ _ _ sample_lookup_uuid2).
  by rewrite perJobStream_updateEvents.
Qed.

(** C3, as amended: one call of [updateJob] on a stored job always puts an
    [updated] event on the stream of that job; when the job it stored is
    [ready] it adds a [completed] event there and one on [job:completed],
    when it is [failed] a [failed] event there and one on [job:failed].
    So the stream of the job gets one event from a call that leaves the job
    queued or processing, and two from a call that leaves it terminal. *)
Theorem updateJob_events now id u st job :
  jobs st !! id = Some job →
  let st' := (updateJob now id u st).1 in
  let job' := applyUpdates now job u in
  emittedBy st st' = updateEvents id job' ∧
  perJobStream id (emittedBy st st') =
    mkEmitted (jobChannel id) (TypedJob "updated" job') ::
    match status job' with
    | ready => [mkEmitted (jobChannel id) (TypedJob "completed" job')]
    | failed => [mkEmitted (jobChannel id) (TypedJob "failed" job')]
    | _ => []
    end ∧
  length (perJobStream id (emittedBy st st')) =
    (if isTerminal (status job') then 2 else 1)%nat.
Proof.
  intros H st' job'. subst st'.
  rewrite (updateJob_emittedBy _ _ _ _ _ H). fold job'.
  rewrite perJobStream_updateEvents.
  split; [done|]. split; [done|]. by destruct (status job').
Qed.

(** The amended C3 at the sample job [uuid2] and the completing update. *)
Lemma updateJob_events_witness :
  emittedBy Sample.store
    (updateJob 7000 Sample.uuid2 (Sample.readyUpdate 7000 "https://storage/x")
       Sample.store).1 =
  updateEvents Sample.uuid2
    (applyUpdates 7000 Sample.processingJob
       (Sample.readyUpdate 7000 "https://storage/x")).
Proof.
  exact (proj1 (updateJob_events 7000 Sample.uuid2
    (Sample.readyUpdate 7000 "https://storage/x") Sample.store
    Sample.processingJob sample_lookup_uuid2)).
Defined.

(** C10: [updateJob] on an id the store does not hold returns [undefined]
    and leaves the store as it was: the same jobs, so no job was created,
    and the same event log, so nothing was emitted. *)
Theorem updateJob_unknown_id now id u st :
  jobs st !! id = None →
  (updateJob now id u st).2 = None ∧
  (updateJob now id u st).1 = st ∧
  jobs (updateJob now id u st).1 = jobs st ∧
  jobs (updateJob now id u st).1 !! id = None ∧
  emittedBy st (updateJob now id u st).1 = [].
Proof.
  intros H. rewrite (updateJob_missing _ _ _ _ H). cbn.
  repeat split; try done. unfold emittedBy. by rewrite drop_all.
Qed.

(** C10 at the sample store and an id it does not hold. *)
Lemma updateJob_unknown_id_witness :
  (updateJob 6000 "no-such-job" (Sample.startUpdate 6000) Sample.store).1
    = Sample.store.
Proof.
  refine (proj1 (proj2 (updateJob_unknown_id 6000 "no-such-job"
    (Sample.startUpdate 6000) Sample.store _))).
  unfold Sample.store. cbn.
  rewrite !lookup_insert_ne by done. apply lookup_empty.
Defined.

(** C9: [cleanup(maxAgeMs)] deletes exactly the jobs that are [ready] or
    [failed] and were last updated more than [maxAgeMs] before the call:
    a job it deleted was one of those; a queued or processing job, and a
    terminal job updated within [maxAgeMs], is still stored unchanged; a
    job it keeps is a job that was stored; and the number it returns is the
    number of jobs it deleted. It emits nothing. *)
Theorem cleanup_frame now maxAgeMs st :
  let age := default defaultMaxAgeMs maxAgeMs in
  let st' := (cleanup now maxAgeMs st).1 in
  let cleaned := (cleanup now maxAgeMs st).2 in
  (∀ id job, jobs st !! id = Some job → jobs st' !! id = None →
     (status job = ready ∨ status job = failed) ∧ age < now - updatedAt job) ∧
  (∀ id job, jobs st !! id = Some job →
     status job = queued ∨ status job = processing ∨ now - updatedAt job ≤ age →
     jobs st' !! id = Some job) ∧
  (∀ id job, jobs st !! id = Some job →
     (status job = ready ∨ status job = failed) → age < now - updatedAt job →
     jobs st' !! id = None) ∧
  (∀ id job, jobs st' !! id = Some job → jobs st !! id = Some job) ∧
  (size (jobs st) = cleaned + size (jobs st'))%nat ∧
  emitted st' = emitted st.
Proof.
  intros age st' cleaned. subst st' cleaned.
  split; [|split; [|split; [|split; [|split]]]].
  - intros id job H Hgone. revert Hgone. rewrite cleanup_lookup, H.
    destruct (isOld now _ job) eqn:E; [|done]. intros _.
    by apply isOld_spec in E.
  - intros id job H Hkeep. rewrite cleanup_lookup, H.
    destruct (isOld now _ job) eqn:E; [|done].
    apply isOld_spec in E. destruct E as [[E|E] Hage];
      destruct Hkeep as [K|[K|K]]; first [congruence | unfold age in K; lia].
  - intros id job H Hterm Hage. rewrite cleanup_lookup, H.
    destruct (isOld now _ job) eqn:E; [done|].
    assert (isOld now (default defaultMaxAgeMs maxAgeMs) job = true) as E'
      by (apply isOld_spec; done).
    congruence.
  - intros id job. rewrite cleanup_lookup.
    destruct (jobs st !! id) as [j|]; [|done].
    by destruct (isOld now _ j).
  - apply cleanup_count.
  - done.
Qed.

End JobStoreClaims.

(* ===================================================================== *)
(** ** The routes: submission and subscription *)
(* ===================================================================== *)

Section RoutesClaims.
Import Routes.

Lemma fileIdsSchema_length file_ids :
  fileIdsSchema file_ids = true → (1 ≤ length file_ids ≤ 1000)%nat.
Proof.
  unfold fileIdsSchema. rewrite !andb_true_iff.
  intros [[_ H1] H2]. apply Nat.leb_le in H1, H2. lia.
Qed.

Lemma fileIdsSchema_rejects file_ids :
  length file_ids = 0%nat ∨ (1000 < length file_ids)%nat →
  fileIdsSchema file_ids = false.
Proof.
  intros H. destruct (fileIdsSchema file_ids) eqn:E; [|done].
  apply fileIdsSchema_length in E. lia.
Qed.

Lemma batchSchema_rejects reqs file_ids :
  file_ids ∈ reqs →
  length file_ids = 0%nat ∨ (1000 < length file_ids)%nat →
  batchSchema reqs = false.
Proof.
  intros Hin Hbad. unfold batchSchema.
  assert (forallb fileIdsSchema reqs = false) as ->; [|done].
  apply not_true_is_false. intros Hall.
  rewrite forallb_forall in Hall.
  specialize (Hall file_ids (proj1 (list_elem_of_In _ _) Hin)).
  rewrite fileIdsSchema_rejects in Hall; done.
Qed.

(** C4: a submission whose [file_ids] is empty or longer than 1000 is
    answered 400 by either submission route and the handler does not run:
    the process is left as it was, so the job map and the statistics of the
    store (and the queue) are unchanged and no job was created. *)
Theorem invalid_submission_creates_nothing now uuid uuids file_ids reqs sys :
  length file_ids = 0%nat ∨ (1000 < length file_ids)%nat →
  let r := asyncDownload now uuid file_ids sys in
  let rb := batchDownload now uuids reqs sys in
  r.1 = InvalidInput400 ∧ r.2 = sys ∧
  JobStore.jobs (Worker.jobStore r.2) = JobStore.jobs (Worker.jobStore sys) ∧
  JobStore.getStats (Worker.jobStore r.2) = JobStore.getStats (Worker.jobStore sys) ∧
  Worker.getQueueStats r.2 = Worker.getQueueStats sys ∧
  (file_ids ∈ reqs → rb.1 = InvalidInput400 ∧ rb.2 = sys).
Proof.
  intros Hbad r rb. subst r rb. unfold asyncDownload, batchDownload.
  rewrite (fileIdsSchema_rejects _ Hbad). cbn.
  repeat split; try done.
  all: by rewrite (batchSchema_rejects _ _ H Hbad).
Qed.

(** C4 at the empty list, on the process as it starts. *)
Lemma invalid_submission_creates_nothing_witness :
  (asyncDownload 1000 Sample.uuid1 [] Worker.initial).1 = InvalidInput400.
Proof.
  refine (proj1 (invalid_submission_creates_nothing 1000 Sample.uuid1 [] [] []
    Worker.initial _)).
  left. reflexivity.
Defined.

(** C8, the claim as stated, fails: a request for an id the store does not
    know is not answered [NotFound] when the id is not in UUID format; the
    answer is 400, invalid format. *)
Lemma subscribe_unknown_malformed_id :
  JobStore.getJob "job-42" JobStore.empty = None ∧
  subscribe "job-42" JobStore.empty = InvalidFormat400 ∧
  subscribe "job-42" JobStore.empty ≠ JobNotFound404 "job-42".
Proof. split; [apply lookup_empty|]. split; [reflexivity|discriminate]. Qed.

(** C8, as amended: a request whose id is not in UUID format is answered
    400; for an id in UUID format, the answer is [NotFound] when the store
    does not know the id, and when the job is [ready] or [failed] it is one
    JSON snapshot with the job's status, progress, downloadUrl and error.
    In none of these cases a stream is opened: a stream is opened exactly
    for a well-formed id of a stored job that is queued or processing. *)
Theorem subscribe_short_circuits jobId store :
  (uuidRegexTest jobId = false → subscribe jobId store = InvalidFormat400) ∧
  (uuidRegexTest jobId = true → JobStore.getJob jobId store = None →
     subscribe jobId store = JobNotFound404 jobId) ∧
  (∀ job, uuidRegexTest jobId = true → JobStore.getJob jobId store = Some job →
     JobStore.status job = JobStore.ready ∨ JobStore.status job = JobStore.failed →
     subscribe jobId store =
       AlreadyCompleted200
         {| view_jobId := JobStore.jobId job;
            view_status := JobStore.status job;
            view_progress := JobStore.progress job;
            view_downloadUrl := JobStore.downloadUrl job;
            view_error := JobStore.error job |}) ∧
  (opensStream (subscribe jobId store) = true ↔
     uuidRegexTest jobId = true ∧
     ∃ job, JobStore.getJob jobId store = Some job ∧
            (JobStore.status job = JobStore.queued ∨
             JobStore.status job = JobStore.processing)).
Proof.
  unfold subscribe. destruct (uuidRegexTest jobId) eqn:Hfmt; cbn.
  - split; [done|]. split; [by intros _ ->|]. split.
    + intros job _ -> Hterm.
      assert (JobStore.isTerminal (JobStore.status job) = true) as ->
        by (destruct Hterm as [Hs|Hs]; rewrite Hs; reflexivity).
      reflexivity.
    + destruct (JobStore.getJob jobId store) as [job|] eqn:Hjob.
      * unfold JobStore.isTerminal. split.
        -- intros Hopen. split; [done|]. exists job. split; [done|].
           destruct (JobStore.status job); cbn in Hopen; auto; discriminate.
        -- intros [_ (j & [= <-] & [Hs|Hs])]; by rewrite Hs.
      * split; [done|]. by intros [_ (j & ? & _)].
  - split; [done|]. split; [done|]. split; [done|].
    split; [done|]. by intros [? _].
Qed.

End RoutesClaims.

(* ===================================================================== *)
(** ** The queue: dispatch keeps its counters *)
(* ===================================================================== *)

Section QueueFacts.
Import Queue.
Context {World Pending : Type}.

Local Abbreviation SQ := (SimpleQueue World Pending).
Implicit Types (q : SQ) (w : World) (job : QueueJob).

(** What dispatching never touches. *)
Definition sameSetup q q' : Prop :=
  concurrency q' = concurrency q ∧ maxRetries q' = maxRetries q ∧
  handler q' = handler q ∧ isRunning q' = isRunning q ∧
  waiters q' = waiters q.

(** [activeJobs] counts the suspended calls of [processJob]. *)
Definition counted q : Prop := activeJobs q = Z.of_nat (length (calls q)).

(** [activeJobs] is within the ceiling (a ceiling below zero lets nothing
    run). *)
Definition capped q : Prop := activeJobs q ≤ Z.max 0 (concurrency q).

Lemma sameSetup_refl q : sameSetup q q.
Proof. by repeat split. Qed.

Lemma sameSetup_trans q1 q2 q3 :
  sameSetup q1 q2 → sameSetup q2 q3 → sameSetup q1 q3.
Proof. unfold sameSetup. intuition congruence. Qed.

Lemma processJob_setup now job q w : sameSetup q (processJob now job q w).1.
Proof.
  unfold processJob. destruct (handler q) as [h|] eqn:Hh; [|apply sameSetup_refl].
  destruct (h now (bumpAttempts job) w) as [w1 c]. by repeat split.
Qed.

Lemma processJob_counted now job q w :
  counted q → counted (processJob now job q w).1.
Proof.
  unfold processJob, counted. destruct (handler q) as [h|]; [|done].
  destruct (h now (bumpAttempts job) w) as [w1 c]. cbn.
  rewrite length_app. cbn. lia.
Qed.

Lemma processJob_activeJobs now job q w :
  activeJobs (processJob now job q w).1 ≤ activeJobs q + 1.
Proof.
  unfold processJob. destruct (handler q) as [h|]; [|cbn; lia].
  destruct (h now (bumpAttempts job) w) as [w1 c]. cbn. lia.
Qed.

Lemma tryProcessLoop_inv now pending q w :
  counted q → capped q →
  let q' := (tryProcessLoop now pending q w).1 in
  counted q' ∧ capped q' ∧ sameSetup q q'.
Proof.
  revert q w. induction pending as [|job rest IH]; intros q w Hc Hb; cbn.
  - by repeat split.
  - destruct (activeJobs q <? concurrency q) eqn:Hlt; [|by repeat split].
    apply Z.ltb_lt in Hlt.
    destruct (processJob now job (set_queue rest q) w) as [q1 w1] eqn:E.
    assert (Hq1 : q1 = (processJob now job (set_queue rest q) w).1)
      by (by rewrite E).
    assert (counted q1) as Hc1.
    { rewrite Hq1. by apply processJob_counted. }
    assert (sameSetup q q1) as Hs1.
    { rewrite Hq1. apply (processJob_setup now job (set_queue rest q) w). }
    assert (capped q1) as Hb1.
    { unfold capped. destruct Hs1 as [-> _].
      pose proof (processJob_activeJobs now job (set_queue rest q) w) as Ha.
      rewrite <- Hq1 in Ha. cbn in Ha. lia. }
    destruct (IH q1 w1 Hc1 Hb1) as (? & ? & ?).
    split; [done|]. split; [done|]. by eapply sameSetup_trans.
Qed.

Lemma tryProcess_inv now q w :
  counted q → capped q →
  let q' := (tryProcess now q w).1 in
  counted q' ∧ capped q' ∧ sameSetup q q'.
Proof.
  intros Hc Hb. unfold tryProcess.
  destruct (negb (isRunning q) || negb (bool_decide (is_Some (handler q)))).
  - cbn. split; [done|]. split; [done|]. apply sameSetup_refl.
  - by apply tryProcessLoop_inv.
Qed.

Lemma length_delete_lookup {A} (l : list A) k x :
  l !! k = Some x → length l = S (length (delete k l)).
Proof.
  intros H. pose proof (lookup_lt_Some _ _ _ H) as Hlt.
  rewrite length_delete by eauto. lia.
Qed.

(** The invariant behind the ceiling, for a queue built with the ceiling
    [c] and the retry limit [m]. *)
Definition within (c m : Z) q : Prop :=
  counted q ∧ capped q ∧ concurrency q = c ∧ maxRetries q = m.

Lemma within_create oc om : within (default 1 oc) (default 3 om) (create oc om).
Proof. unfold within, counted, capped. cbn. repeat split; lia. Qed.

Lemma within_tryProcess c m now q w :
  within c m q → within c m (tryProcess now q w).1.
Proof.
  intros (Hc & Hb & Hcc & Hm).
  destruct (tryProcess_inv now q w Hc Hb) as (? & ? & Hs).
  destruct Hs as (Hs1 & Hs2 & _). unfold within. rewrite Hs1, Hs2. done.
Qed.

Lemma within_add c m now id files q w :
  within c m q → within c m (add now id files q w).1.
Proof. intros (Hc & Hb & Hcc & Hm). unfold add. by apply within_tryProcess. Qed.

Lemma within_process c m now h q w :
  within c m q → within c m (process now h q w).1.
Proof. intros (Hc & Hb & Hcc & Hm). unfold process. by apply within_tryProcess. Qed.

Lemma within_resume c m now q w :
  within c m q → within c m (resume now q w).1.
Proof. intros (Hc & Hb & Hcc & Hm). unfold resume. by apply within_tryProcess. Qed.

Lemma within_pause c m q : within c m q → within c m (pause q).
Proof. by intros (Hc & Hb & Hcc & Hm). Qed.

Lemma within_stop c m q : within c m q → within c m (stop q).
Proof. by intros (Hc & Hb & Hcc & Hm). Qed.

Lemma within_set_call c m q k x :
  within c m q → within c m (set_calls (<[k := x]> (calls q)) q).
Proof.
  intros (Hc & Hb & Hcc & Hm). unfold within, counted in *. cbn.
  by rewrite length_insert.
Qed.

Lemma within_processJobSettled c m now k q w r :
  within c m q → processJobSettled now k q w = Some r → within c m r.1.
Proof.
  intros (Hc & Hb & Hcc & Hm). unfold processJobSettled, processJobFinally.
  destruct (calls q !! k) as [[job cl]|] eqn:Hk; [|done].
  pose proof (length_delete_lookup _ _ _ Hk) as Hlen.
  destruct cl as [p| |e]; [done| |]; intros [= <-]; apply within_tryProcess.
  - unfold within, counted, capped in *. cbn. repeat split; lia.
  - unfold within, counted, capped in *.
    destruct (attempts job <? maxRetries _); cbn; repeat split; lia.
Qed.

Lemma within_shutdownLoop c m now startTime timeoutMs q :
  within c m q → within c m (shutdownLoop now startTime timeoutMs q).
Proof.
  intros (Hc & Hb & Hcc & Hm). unfold shutdownLoop.
  destruct (0 <? activeJobs q); [destruct (timeoutMs <? now - startTime)|];
    by repeat split.
Qed.

Lemma within_shutdown c m now timeoutMs q :
  within c m q → within c m (shutdown now timeoutMs q).
Proof.
  intros (Hc & Hb & Hcc & Hm). unfold shutdown. by apply within_shutdownLoop.
Qed.

Lemma within_shutdownWake c m now k q q' :
  within c m q → shutdownWake now k q = Some q' → within c m q'.
Proof.
  intros (Hc & Hb & Hcc & Hm). unfold shutdownWake.
  destruct (waiters q !! k) as [[startTime timeoutMs]|]; [|done].
  intros [= <-]. by apply within_shutdownLoop.
Qed.

End QueueFacts.

#[global] Arguments Queue.tryProcess : simpl never.
#[global] Arguments Queue.tryProcessLoop : simpl never.
#[global] Arguments Queue.shutdownLoop : simpl never.
#[global] Arguments Queue.processJobSettled : simpl never.
#[global] Arguments Worker.resume : simpl never.
#[global] Arguments JobStore.updateJob : simpl never.
#[global] Arguments JobStore.createJob : simpl never.
#[global] Arguments JobStore.cleanup : simpl never.

Section CeilingClaim.
Import Queue Worker App.

(** The invariant of the process behind the ceiling: the counter is the
    number of suspended [processJob] calls, it is within the ceiling, and
    the options are the ones the queue was built with. *)
Definition ceilingInv (optConcurrency optMaxRetries : option Z) (sys : System)
  : Prop :=
  within (default 1 optConcurrency) (default 3 optMaxRetries) (downloadQueue sys).

Lemma ceilingInv_step s3 oc om op sys sys' :
  ceilingInv oc om sys → step s3 op sys = Some sys' → ceilingInv oc om sys'.
Proof.
  unfold ceilingInv. intros Hin.
  destruct op as [now|now uuid file_ids|now k|now age| |now| |now t|now k]; cbn.
  - intros [= <-]. by apply within_process.
  - destruct (fresh uuid sys); [|done]. intros [= <-].
    unfold Routes.asyncDownload.
    destruct (Routes.fileIdsSchema file_ids); [|done].
    by apply within_add.
  - unfold wake.
    destruct (calls (downloadQueue sys) !! k) as [[queueJob cl]|] eqn:Hk; [|done].
    destruct cl as [p| |e].
    + destruct (resume s3 now queueJob p (jobStore sys)) as [store cl].
      intros [= <-]. by apply within_set_call.
    + destruct (processJobSettled now k (downloadQueue sys) (jobStore sys))
        as [r|] eqn:E; [|done].
      intros [= <-]. by eapply within_processJobSettled.
    + destruct (processJobSettled now k (downloadQueue sys) (jobStore sys))
        as [r|] eqn:E; [|done].
      intros [= <-]. by eapply within_processJobSettled.
  - by intros [= <-].
  - intros [= <-]. by apply within_pause.
  - intros [= <-]. by apply within_resume.
  - intros [= <-]. by apply within_stop.
  - intros [= <-]. by apply within_shutdown.
  - destruct (shutdownWake now k (downloadQueue sys)) as [q'|] eqn:E; [|done].
    intros [= <-]. by eapply within_shutdownWake.
Qed.

Lemma ceilingInv_reachable s3 oc om sys :
  reachable s3 oc om sys → ceilingInv oc om sys.
Proof.
  induction 1 as [|sys op sys' _ IH Hstep].
  - apply within_create.
  - by eapply ceilingInv_step.
Qed.

(** C7: in every state the process can reach, whatever requests, wake-ups,
    pauses and shutdowns led to it and however long the queue is, the
    number of [processJob] calls in flight is [activeJobs], and it does not
    exceed the ceiling the queue was built with (with a ceiling below zero
    nothing is ever in flight). *)
Theorem activeJobs_within_concurrency s3 optConcurrency optMaxRetries sys :
  reachable s3 optConcurrency optMaxRetries sys →
  let q := downloadQueue sys in
  Z.of_nat (length (calls q)) = activeJobs q ∧
  concurrency q = default 1 optConcurrency ∧
  (0 ≤ concurrency q → activeJobs q ≤ concurrency q) ∧
  (concurrency q < 0 → activeJobs q = 0).
Proof.
  intros Hreach.
  destruct (ceilingInv_reachable _ _ _ _ Hreach) as (Hc & Hb & Hcc & _).
  cbv zeta. unfold counted, capped in *. rewrite Hcc in *.
  repeat split; lia.
Qed.

(** C7 at the queue of the worker module (ceiling 5) after a submission. *)
Lemma activeJobs_within_concurrency_witness :
  activeJobs
    (downloadQueue
       (queueDownloadJob 2000 Sample.uuid1 [10001; 10002]
          (initializeWorker 1000 initial)))
  ≤ 5.
Proof.
  refine (proj1 (proj2 (proj2 (activeJobs_within_concurrency Sample.s3
    (Some 5) (Some 3)
    (queueDownloadJob 2000 Sample.uuid1 [10001; 10002]
       (initializeWorker 1000 initial)) _))) _).
  - eapply reachable_step with (op := PostAsync 2000 Sample.uuid1 [10001; 10002]).
    + eapply reachable_step with (op := InitializeWorker 1000).
      * apply reachable_boot.
      * reflexivity.
    + reflexivity.
  - apply Z.leb_le. vm_compute. reflexivity.
Defined.

End CeilingClaim.

(* ===================================================================== *)
(** ** One attempt of the worker *)
(* ===================================================================== *)

Section WorkerFacts.
Import Queue Worker.

Implicit Types (store : JobStore.JobStore) (queueJob : QueueJob).

(** The storage service accepts every upload, at any time. *)
Definition uploadsSucceed (s3 : S3Service) : Prop :=
  ∀ now fileId, ∃ result, uploadFile s3 now fileId = Fulfilled result.

(** The storage service issues every URL, at any time. *)
Definition urlsIssued (s3 : S3Service) : Prop :=
  ∀ now key, ∃ url, generatePresignedUrl s3 now key = Fulfilled url.

(** Every call of the storage service fails, at any time. *)
Definition storageFails (s3 : S3Service) : Prop :=
  (∀ now fileId, ∃ e, uploadFile s3 now fileId = RejectedWith e) ∧
  (∀ now key, ∃ e, generatePresignedUrl s3 now key = RejectedWith e).

Lemma promiseAll_fulfilled {A B} (f : A → Settled B) (l : list A) :
  (∀ x, ∃ r, f x = Fulfilled r) →
  ∃ rs, promiseAll (map f l) = Fulfilled rs ∧ length rs = length l.
Proof.
  intros Hf. induction l as [|x l (rs & IH & Hlen)]; cbn.
  - by exists [].
  - destruct (Hf x) as [r ->]. rewrite IH. exists (r :: rs). cbn. by rewrite Hlen.
Qed.

Lemma promiseAll_rejected {A B} (f : A → Settled B) (l : list A) :
  (∀ x, ∃ e, f x = RejectedWith e) → l ≠ [] →
  ∃ e, promiseAll (map f l) = RejectedWith e.
Proof.
  intros Hf Hne. destruct l as [|x l]; [done|]. cbn.
  destruct (Hf x) as [e ->]. by exists e.
Qed.

Lemma processBatch_fulfilled (s3 : S3Service) now batch :
  uploadsSucceed s3 →
  ∃ keys, processBatch s3 now batch = Fulfilled keys ∧ length keys = length batch.
Proof.
  intros Hup. unfold processBatch.
  destruct (promiseAll_fulfilled (processFile s3 now) batch (Hup now))
    as (rs & -> & Hlen).
  exists (rs.*1). by rewrite length_fmap.
Qed.

Lemma processBatch_rejected (s3 : S3Service) now batch :
  storageFails s3 → batch ≠ [] →
  ∃ e, processBatch s3 now batch = RejectedWith e.
Proof.
  intros [Hup _] Hne. unfold processBatch.
  destruct (promiseAll_rejected (processFile s3 now) batch (Hup now) Hne)
    as (e & ->).
  by exists e.
Qed.

Lemma length_slice {A} (l : list A) i j :
  length (slice i j l) = ((j - i) `min` (length l - i))%nat.
Proof. unfold slice. by rewrite length_take, length_drop. Qed.

Lemma length_batchAt i (fileIds : list Z) :
  length (batchAt i fileIds) = (3 `min` (length fileIds - i))%nat.
Proof.
  unfold batchAt, PARALLEL_FILE_BATCH_SIZE. rewrite length_slice. lia.
Qed.

Lemma batchAt_nonempty i (fileIds : list Z) :
  (i < length fileIds)%nat → batchAt i fileIds ≠ [].
Proof.
  intros Hlt Hnil. pose proof (length_batchAt i fileIds) as Hlen.
  rewrite Hnil in Hlen. cbn [length] in Hlen. lia.
Qed.

(** The batches, in order, make up the list: the loop partitions it. *)
Lemma batches_partition (fileIds : list Z) (n : nat) :
  (length fileIds ≤ 3 * n)%nat →
  concat (map (λ k, batchAt (3 * k) fileIds) (seq 0 n)) = fileIds.
Proof.
  assert (∀ n j, (length fileIds ≤ 3 * (j + n))%nat →
    concat (map (λ k, batchAt (3 * k) fileIds) (seq j n)) = drop (3 * j) fileIds)
    as Hgen.
  { clear n. induction n as [|n IH]; intros j Hlen; cbn [seq map concat].
    - rewrite drop_ge by lia. done.
    - rewrite IH by lia. unfold batchAt, slice, PARALLEL_FILE_BATCH_SIZE.
      replace (3 * j + 3 - 3 * j)%nat with 3%nat by lia.
      replace (3 * S j)%nat with (3 * j + 3)%nat by lia.
      rewrite <- drop_drop. apply take_drop. }
  intros Hlen. rewrite Hgen by (cbn; lia). done.
Qed.

(** One turn of the loop when the uploads succeed: the progress written is
    the rounded share of the files processed so far, and the call goes on
    to the loop test with the counters advanced. *)
Lemma resume_batch_fulfilled (s3 : S3Service) now queueJob i c keys store :
  uploadsSucceed s3 →
  let files := Queue.fileIds queueJob in
  let c1 := (c + length (batchAt i files))%nat in
  ∃ batchKeys,
    length batchKeys = length (batchAt i files) ∧
    resume s3 now queueJob (AwaitBatch i c keys) store =
      ((JobStore.updateJob now (Queue.jobId queueJob)
          {| JobStore.upd_status := None;
             JobStore.upd_progress := Some (progressOf c1 (length files));
             JobStore.upd_downloadUrl := None;
             JobStore.upd_s3Key := None;
             JobStore.upd_error := None;
             JobStore.upd_processingStartedAt := None;
             JobStore.upd_completedAt := None |} store).1,
       Awaiting (loopTest queueJob (i + 3) c1 (keys ++ batchKeys))).
Proof.
  intros Hup files c1. unfold resume.
  destruct (processBatch_fulfilled s3 now (batchAt i files) Hup)
    as (batchKeys & Hb & Hlen).
  exists batchKeys. split; [done|]. fold files. by rewrite Hb.
Qed.

Lemma resume_url_fulfilled (s3 : S3Service) now queueJob key store :
  urlsIssued s3 →
  ∃ url,
    resume s3 now queueJob (AwaitUrl key) store =
      ((JobStore.updateJob now (Queue.jobId queueJob)
          {| JobStore.upd_status := Some JobStore.ready;
             JobStore.upd_progress := Some 100;
             JobStore.upd_downloadUrl := Some url;
             JobStore.upd_s3Key := None;
             JobStore.upd_error := None;
             JobStore.upd_processingStartedAt := None;
             JobStore.upd_completedAt := Some now |} store).1,
       Resolved).
Proof.
  intros Hurl. unfold resume.
  destruct (Hurl now key) as [url ->]. by exists url.
Qed.

(** With the storage service down, the first [await] of an attempt ends in
    the [catch] clause. *)
Lemma resume_storage_down (s3 : S3Service) now queueJob store :
  storageFails s3 →
  ∃ e, resume s3 now queueJob (loopTest queueJob 0 0 []) store =
         catchClause now (Queue.jobId queueJob) e store.
Proof.
  intros Hdown. unfold loopTest.
  destruct (0 <? length (Queue.fileIds queueJob))%nat eqn:Hlen.
  - apply Nat.ltb_lt in Hlen. unfold resume.
    destruct (processBatch_rejected s3 now (batchAt 0 (Queue.fileIds queueJob))
                Hdown (batchAt_nonempty _ _ Hlen)) as [e ->].
    by exists e.
  - unfold afterLoop, resume. destruct Hdown as [_ Hurl].
    match goal with |- context [generatePresignedUrl s3 now ?k] =>
      destruct (Hurl now k) as [e ->] end.
    by exists e.
Qed.

End WorkerFacts.

(* ===================================================================== *)
(** ** One job through the queue *)
(* ===================================================================== *)

Section SoloRun.
Import Queue Worker App.

Implicit Types (store : JobStore.JobStore) (queueJob : QueueJob) (sys : System).

(** The worker is initialised and the queue has nothing to do and room
    for a job. *)
Definition idle sys : Prop :=
  let q := downloadQueue sys in
  handler q = Some processDownloadJob ∧ isRunning q = true ∧
  queue q = [] ∧ calls q = [] ∧ activeJobs q = 0 ∧ 0 < concurrency q.

(** The event loop resumes the one suspended call, at the given times. *)
Definition wakes (nows : list Z) : list Op := map (λ now, Wake now 0) nows.

(** The queue of the worker module with an empty waiting list. *)
Definition runningQueue (b : bool) (conc active mr : Z) (evs : list Queue.Emitted)
    (cs : list (QueueJob * Call)) (ws : list (Z * Z)) : DownloadQueue :=
  mkSimpleQueue [] b (Some processDownloadJob) conc active mr true evs cs ws.

(** The [job:processing] events of a job in a log: one per call of the
    handler for an entry of that job. *)
Definition isInvocation (id : string) (e : Queue.Emitted) : bool :=
  bool_decide (Queue.event e = "job:processing")
  && bool_decide (Queue.jobId <$> Queue.job e = Some id).

Definition invocations (id : string) (evs : list Queue.Emitted) : nat :=
  length (List.filter (isInvocation id) evs).

(** The update an attempt starts with. *)
Definition startUpdates (now : Z) : JobStore.UpdateJobInput :=
  {| JobStore.upd_status := Some JobStore.processing;
     JobStore.upd_progress := Some 0;
     JobStore.upd_downloadUrl := None;
     JobStore.upd_s3Key := None;
     JobStore.upd_error := None;
     JobStore.upd_processingStartedAt := Some now;
     JobStore.upd_completedAt := None |}.

Lemma run_app s3 ops1 ops2 sys :
  run s3 (ops1 ++ ops2) sys = run s3 ops1 sys ≫= run s3 ops2.
Proof.
  revert sys. induction ops1 as [|op ops1 IH]; intros sys; cbn; [done|].
  destruct (step s3 op sys) as [sys1|]; cbn; [apply IH|done].
Qed.

Lemma wakes_app nows1 nows2 : wakes (nows1 ++ nows2) = wakes nows1 ++ wakes nows2.
Proof. unfold wakes. apply map_app. Qed.

Lemma invocations_app id evs1 evs2 :
  invocations id (evs1 ++ evs2) = (invocations id evs1 + invocations id evs2)%nat.
Proof. unfold invocations. by rewrite List.filter_app, length_app. Qed.

Lemma processDownloadJob_found now queueJob store job :
  JobStore.jobs store !! Queue.jobId queueJob = Some job →
  processDownloadJob now queueJob store =
    ((JobStore.updateJob now (Queue.jobId queueJob) (startUpdates now) store).1,
     Awaiting (loopTest queueJob 0 0 [])).
Proof. intros H. unfold processDownloadJob, JobStore.getJob. by rewrite H. Qed.

(** Dispatch with one waiting entry and room for it: the entry is started. *)
Lemma tryProcess_start now b conc active mr evs cs ws queueJob store job :
  active < conc →
  JobStore.jobs store !! Queue.jobId queueJob = Some job →
  tryProcess now
    (mkSimpleQueue [queueJob] b (Some processDownloadJob) conc active mr true
       evs cs ws) store =
  (runningQueue b conc (active + 1) mr
     (evs ++ [Queue.mkEmitted "job:processing" (Some (bumpAttempts queueJob)) None])
     (cs ++ [(bumpAttempts queueJob, Awaiting (loopTest queueJob 0 0 []))]) ws,
   (JobStore.updateJob now (Queue.jobId queueJob) (startUpdates now) store).1).
Proof.
  intros Hroom Hjob. unfold tryProcess. cbn.
  unfold tryProcessLoop. cbn. apply Z.ltb_lt in Hroom. rewrite Hroom.
  unfold processJob. cbn.
  rewrite (processDownloadJob_found now (bumpAttempts queueJob) store job Hjob).
  done.
Qed.

(** Dispatch with nothing waiting changes nothing. *)
Lemma tryProcess_nothing now b conc active mr evs cs ws store :
  tryProcess now (runningQueue b conc active mr evs cs ws) store =
    (runningQueue b conc active mr evs cs ws, store).
Proof. done. Qed.

Lemma createJob_lookup now id files store :
  JobStore.jobs (JobStore.createJob now (JobStore.mkCreateJobInput id files) store).1
    !! id =
  Some (JobStore.mkJob id files JobStore.queued 0 None None None now now None None).
Proof. unfold JobStore.createJob. cbn. apply lookup_insert_eq. Qed.

(** A submission to an idle process: the job is created and its first
    attempt starts at once. *)
Lemma queueDownloadJob_idle now id files store b conc mr evs ws :
  0 < conc →
  let queueJob := mkQueueJob id files now 0 in
  let created := (JobStore.createJob now (JobStore.mkCreateJobInput id files) store).1 in
  queueDownloadJob now id files
    (mkSystem store (runningQueue b conc 0 mr evs [] ws)) =
  mkSystem (JobStore.updateJob now id (startUpdates now) created).1
    (runningQueue b conc 1 mr
       (evs ++ [Queue.mkEmitted "job:added" (Some queueJob) None;
                Queue.mkEmitted "job:processing" (Some (bumpAttempts queueJob)) None])
       [(bumpAttempts queueJob, Awaiting (loopTest queueJob 0 0 []))] ws).
Proof.
  intros Hconc queueJob created.
  unfold queueDownloadJob, add, ofPair, emit, set_queue, runningQueue. cbn.
  fold created.
  rewrite (tryProcess_start now b conc 0 mr _ [] ws queueJob created _ Hconc
             (createJob_lookup now id files store)).
  cbn. by rewrite <- app_assoc.
Qed.

(** The event loop resumes a handler that waits for the storage service. *)
Lemma wake_awaiting s3 now store b conc active mr evs ws queueJob p :
  wake s3 now 0
    (mkSystem store (runningQueue b conc active mr evs [(queueJob, Awaiting p)] ws)) =
  Some (mkSystem (resume s3 now queueJob p store).1
          (runningQueue b conc active mr evs
             [(queueJob, (resume s3 now queueJob p store).2)] ws)).
Proof.
  unfold wake. cbn. by destruct (resume s3 now queueJob p store).
Qed.

(** The rest of [processJob] after a handler that resolved. *)
Lemma wake_resolved s3 now store b conc mr evs ws queueJob :
  wake s3 now 0
    (mkSystem store (runningQueue b conc 1 mr evs [(queueJob, Resolved)] ws)) =
  Some (mkSystem store
          (runningQueue b conc 0 mr
             (evs ++ [Queue.mkEmitted "job:completed" (Some queueJob) None]) [] ws)).
Proof. done. Qed.

(** The rest of [processJob] after a handler that rejected, attempts left:
    the entry is queued again and, the queue being idle, started again. *)
Lemma wake_rejected_retry s3 now store b conc mr evs ws queueJob e job :
  0 < conc → attempts queueJob < mr →
  JobStore.jobs store !! Queue.jobId queueJob = Some job →
  wake s3 now 0
    (mkSystem store (runningQueue b conc 1 mr evs [(queueJob, Rejected e)] ws)) =
  Some (mkSystem
          (JobStore.updateJob now (Queue.jobId queueJob) (startUpdates now) store).1
          (runningQueue b conc 1 mr
             (evs ++ [Queue.mkEmitted "job:retry" (Some queueJob) (Some e);
                      Queue.mkEmitted "job:processing"
                        (Some (bumpAttempts queueJob)) None])
             [(bumpAttempts queueJob, Awaiting (loopTest queueJob 0 0 []))] ws)).
Proof.
  intros Hconc Hleft Hjob. unfold wake. cbn.
  unfold processJobSettled. cbn. apply Z.ltb_lt in Hleft. rewrite Hleft.
  unfold processJobFinally, emit, set_queue, set_calls, set_activeJobs. cbn.
  rewrite (tryProcess_start now b conc 0 mr _ [] ws queueJob store job Hconc Hjob).
  cbn. by rewrite <- app_assoc.
Qed.

(** The rest of [processJob] after a handler that rejected, no attempt
    left: the entry is dropped. *)
Lemma wake_rejected_drop s3 now store b conc mr evs ws queueJob e :
  mr ≤ attempts queueJob →
  wake s3 now 0
    (mkSystem store (runningQueue b conc 1 mr evs [(queueJob, Rejected e)] ws)) =
  Some (mkSystem store
          (runningQueue b conc 0 mr
             (evs ++ [Queue.mkEmitted "job:failed" (Some queueJob) (Some e)]) [] ws)).
Proof.
  intros Hnone. unfold wake. cbn.
  unfold processJobSettled. cbn.
  assert ((attempts queueJob <? mr) = false) as -> by (apply Z.ltb_ge; lia).
  done.
Qed.

Lemma startUpdates_job now id store job :
  JobStore.jobs store !! id = Some job →
  ∃ job',
    JobStore.jobs (JobStore.updateJob now id (startUpdates now) store).1 !! id
      = Some job' ∧
    JobStore.status job' = JobStore.processing ∧ JobStore.progress job' = 0 ∧
    JobStore.downloadUrl job' = JobStore.downloadUrl job.
Proof.
  intros H. destruct (updateJob_present now id (startUpdates now) store job H)
    as [_ ->].
  eexists. by rewrite lookup_insert_eq.
Qed.

(** The [catch] clause marks the job failed with a message and leaves its
    progress where the last successful batch put it. *)
Lemma catchClause_job now id e store job :
  JobStore.jobs store !! id = Some job →
  (catchClause now id e store).2 = Rejected e ∧
  ∃ job',
    JobStore.jobs (catchClause now id e store).1 !! id = Some job' ∧
    JobStore.status job' = JobStore.failed ∧
    JobStore.progress job' = JobStore.progress job ∧
    is_Some (JobStore.error job') ∧
    JobStore.downloadUrl job' = JobStore.downloadUrl job.
Proof.
  intros H. unfold catchClause. split; [done|]. cbn [fst].
  match goal with |- context [JobStore.updateJob now id ?u store] =>
    destruct (updateJob_present now id u store job H) as [_ ->] end.
  eexists. rewrite lookup_insert_eq. split; [done|].
  cbn. repeat split; try done; by destruct e.
Qed.

Lemma isInvocation_processing id queueJob err :
  Queue.jobId queueJob = id →
  isInvocation id (Queue.mkEmitted "job:processing" (Some queueJob) err) = true.
Proof.
  intros Hid. unfold isInvocation. cbn [Queue.event Queue.job fmap option_fmap option_map].
  rewrite Hid, !bool_decide_eq_true_2; done.
Qed.

Lemma isInvocation_other id name j err :
  name ≠ "job:processing" →
  isInvocation id (Queue.mkEmitted name j err) = false.
Proof.
  intros Hne. unfold isInvocation. cbn [Queue.event].
  by rewrite bool_decide_eq_false_2.
Qed.

Lemma invocations_retry id evs queueJob e :
  Queue.jobId queueJob = id →
  invocations id
    (evs ++ [Queue.mkEmitted "job:retry" (Some queueJob) (Some e);
             Queue.mkEmitted "job:processing" (Some (bumpAttempts queueJob)) None])
  = S (invocations id evs).
Proof.
  intros Hid. rewrite invocations_app. unfold invocations at 2.
  cbn [List.filter].
  rewrite isInvocation_other, isInvocation_processing by done. cbn. lia.
Qed.

Lemma invocations_failed id evs queueJob e :
  invocations id (evs ++ [Queue.mkEmitted "job:failed" (Some queueJob) (Some e)])
  = invocations id evs.
Proof.
  rewrite invocations_app. unfold invocations at 2. cbn [List.filter].
  rewrite isInvocation_other by done. cbn. lia.
Qed.

Lemma invocations_added id evs queueJob :
  Queue.jobId queueJob = id →
  invocations id
    (evs ++ [Queue.mkEmitted "job:added" (Some queueJob) None;
             Queue.mkEmitted "job:processing" (Some (bumpAttempts queueJob)) None])
  = S (invocations id evs).
Proof.
  intros Hid. rewrite invocations_app. unfold invocations at 2.
  cbn [List.filter].
  rewrite isInvocation_other, isInvocation_processing by done. cbn. lia.
Qed.

(** With the storage service down, an attempt and the ones that follow it:
    two wake-ups per attempt, one for the failing [await] and one for the
    rest of [processJob], until the attempts reach the limit. [n] is the
    number of attempts still to come after the one in flight. *)
Lemma failing_attempts (s3 : S3Service) b conc mr ws id (n : nat) :
  storageFails s3 → 0 < conc →
  ∀ queueJob store evs nows job,
    Queue.jobId queueJob = id →
    1 ≤ attempts queueJob →
    attempts queueJob + Z.of_nat n = Z.max 1 mr →
    JobStore.jobs store !! id = Some job → JobStore.progress job = 0 →
    length nows = (2 * (n + 1))%nat →
    ∃ store' evs' job',
      run s3 (wakes nows)
        (mkSystem store
           (runningQueue b conc 1 mr evs
              [(queueJob, Awaiting (loopTest queueJob 0 0 []))] ws)) =
      Some (mkSystem store' (runningQueue b conc 0 mr evs' [] ws)) ∧
      invocations id evs' = (invocations id evs + n)%nat ∧
      JobStore.jobs store' !! id = Some job' ∧
      JobStore.status job' = JobStore.failed ∧
      JobStore.progress job' = 0 ∧
      is_Some (JobStore.error job') ∧
      JobStore.downloadUrl job' = JobStore.downloadUrl job.
Proof.
  intros Hdown Hconc.
  induction n as [|n IH]; intros queueJob store evs nows job Hid Hone Hsum Hjob Hprog Hlen.
  - destruct nows as [|t1 [|t2 [|]]]; try (cbn in Hlen; lia).
    cbn [wakes map run step].
    rewrite wake_awaiting. cbn [mbind option_bind].
    destruct (resume_storage_down s3 t1 queueJob store Hdown) as [e ->].
    rewrite <- Hid in Hjob.
    destruct (catchClause_job t1 (Queue.jobId queueJob) e store job Hjob)
      as (-> & job1 & Hjob1 & Hst & Hpr & Herr & Hurl).
    cbn [run step].
    rewrite wake_rejected_drop by lia. cbn [mbind option_bind run].
    eexists _, _, job1. split; [reflexivity|].
    rewrite invocations_failed, <- Hid.
    repeat split; try done; first [lia|congruence].
  - destruct nows as [|t1 [|t2 nows]]; try (cbn in Hlen; lia).
    cbn [wakes map run step].
    rewrite wake_awaiting. cbn [mbind option_bind].
    destruct (resume_storage_down s3 t1 queueJob store Hdown) as [e ->].
    rewrite <- Hid in Hjob.
    destruct (catchClause_job t1 (Queue.jobId queueJob) e store job Hjob)
      as (-> & job1 & Hjob1 & Hst & Hpr & Herr & Hurl).
    cbn [run step].
    rewrite (wake_rejected_retry _ _ _ _ _ _ _ _ _ _ job1) by (done || lia).
    cbn [mbind option_bind]. fold (wakes nows).
    destruct (startUpdates_job t2 (Queue.jobId queueJob) _ job1 Hjob1)
      as (job2 & Hjob2 & Hst2 & Hpr2 & Hurl2).
    match goal with
    | |- context [mkSystem ?st (runningQueue _ _ 1 _ ?ev _ _)] =>
        destruct (IH (bumpAttempts queueJob) st ev nows job2)
          as (store' & evs' & job' & Hrun & Hinv & Hjob' & Hst' & Hpr' & Herr' & Hurl')
    end; [first [done | cbn; lia | cbn in Hlen; lia
                | rewrite <- Hid; exact Hjob2]..|].
    exists store', evs', job'. split; [exact Hrun|].
    rewrite Hinv, invocations_retry by done.
    repeat split; try done; first [lia|congruence].
Qed.

End SoloRun.

(* ===================================================================== *)
(** ** Retries when the storage service is down *)
(* ===================================================================== *)

Section RetryClaim.
Import Queue Worker App.

(** What is left of a run for the job [id]: the retry limit of the queue,
    the number of entries waiting or in flight, the number of times the
    handler was called for the job, and the status, progress and error of
    the job. *)
Definition outcome (id : string) (r : option System)
  : option (Z * nat * nat * option (JobStore.JobStatus * Z * option string)) :=
  sys ← r;
  let q := downloadQueue sys in
  Some (maxRetries q, (length (queue q) + length (calls q))%nat,
        invocations id (Queue.emitted q),
        (λ job, (JobStore.status job, JobStore.progress job, JobStore.error job))
          <$> JobStore.jobs (jobStore sys) !! id).

(** C6, the claim as stated, fails: on a queue built with [maxRetries: 0]
    and a storage service that is down, the handler is called for the job
    once, not zero times, before the entry is dropped. *)
Lemma no_retries_still_one_attempt :
  outcome Sample.uuid1
    (run Sample.s3Down (wakes [3000; 4000])
       (queueDownloadJob 2000 Sample.uuid1 [10001; 10002]
          (initializeWorker 1000 (boot (Some 5) (Some 0)))))
  = Some (0, 0%nat, 1%nat,
          Some (JobStore.failed, 0, Some "storage unavailable")).
Proof. vm_compute. reflexivity. Qed.

Lemma idle_explicit sys :
  idle sys →
  ∃ store b conc mr evs ws,
    0 < conc ∧ sys = mkSystem store (runningQueue b conc 0 mr evs [] ws).
Proof.
  destruct sys as [store [qu b h conc a mr r evs cs ws]]. unfold idle. cbn.
  intros (-> & -> & -> & -> & -> & Hconc). by exists store, b, conc, mr, evs, ws.
Qed.

(** When every call of the storage service fails, a job submitted to an
    idle, initialised process is attempted exactly [max 1 maxRetries] times
    (so [maxRetries] times for a limit of one or more, and once for a limit
    of zero or less); after two wake-ups per attempt the entry is gone from
    the queue and nothing is in flight, and the job is [failed] with an
    error message, no download URL, and its progress at 0, where the start
    of the last attempt put it. *)
Lemma storage_down_solo_run (s3 : S3Service) sys now id files nows :
  storageFails s3 → idle sys →
  let q := downloadQueue sys in
  let attemptsMade := Z.to_nat (Z.max 1 (maxRetries q)) in
  length nows = (2 * attemptsMade)%nat →
  ∃ sys' job,
    run s3 (wakes nows) (queueDownloadJob now id files sys) = Some sys' ∧
    queue (downloadQueue sys') = [] ∧
    calls (downloadQueue sys') = [] ∧
    activeJobs (downloadQueue sys') = 0 ∧
    invocations id (Queue.emitted (downloadQueue sys')) =
      (invocations id (Queue.emitted q) + attemptsMade)%nat ∧
    JobStore.jobs (jobStore sys') !! id = Some job ∧
    JobStore.status job = JobStore.failed ∧
    is_Some (JobStore.error job) ∧
    JobStore.progress job = 0 ∧
    JobStore.downloadUrl job = None.
Proof.
  intros Hdown Hidle.
  destruct (idle_explicit sys Hidle) as (store & b & conc & mr & evs & ws & Hconc & ->).
  cbn [downloadQueue runningQueue maxRetries Queue.emitted]. intros Hlen.
  rewrite queueDownloadJob_idle by done.
  destruct (startUpdates_job now id _ _ (createJob_lookup now id files store))
    as (job0 & Hjob0 & Hst0 & Hpr0 & Hurl0).
  match goal with
  | |- context [mkSystem ?st (runningQueue _ _ 1 _ ?ev [(?qj, _)] _)] =>
      destruct (failing_attempts s3 b conc mr ws id
                  (Z.to_nat (Z.max 1 mr) - 1) Hdown Hconc qj st ev nows job0)
        as (store' & evs' & job' & Hrun & Hinv & Hjob' & Hst' & Hpr' & Herr' & Hurl')
  end; [first [done | cbn; lia | lia]..|].
  exists (mkSystem store' (runningQueue b conc 0 mr evs' [] ws)), job'.
  split; [exact Hrun|].
  cbn [downloadQueue jobStore queue calls activeJobs Queue.emitted runningQueue].
  rewrite Hinv, invocations_added by done.
  repeat split; try done; first [lia | by rewrite Hurl', Hurl0].
Qed.

End RetryClaim.

(* ===================================================================== *)
(** ** Batches, progress and completion *)
(* ===================================================================== *)

Section BatchClaim.
Import Queue Worker App.

(** The number of turns of the loop for [total] files. *)
Definition batchCount (total : nat) : nat := ((total + 2) / 3)%nat.

(** [processedCount] after [k] whole turns of the loop. *)
Definition doneAfter (k total : nat) : nat := (3 * k) `min` total.

(** The progress of the job after [k] whole turns of an attempt. *)
Definition progressAfter (k total : nat) : Z :=
  match k with
  | O => 0
  | S _ => progressOf (doneAfter k total) total
  end.

Lemma batchCount_lt k total : (k < batchCount total ↔ 3 * k < total)%nat.
Proof.
  unfold batchCount.
  pose proof (Nat.div_mod_eq (total + 2) 3) as Hdm.
  pose proof (Nat.mod_upper_bound (total + 2) 3) as Hmod.
  lia.
Qed.

Lemma batchCount_covers total : (total ≤ 3 * batchCount total)%nat.
Proof.
  unfold batchCount.
  pose proof (Nat.div_mod_eq (total + 2) 3) as Hdm.
  pose proof (Nat.mod_upper_bound (total + 2) 3) as Hmod.
  lia.
Qed.

Lemma progressUpdate_job now id p store job :
  JobStore.jobs store !! id = Some job →
  ∃ job',
    JobStore.jobs
      (JobStore.updateJob now id
         {| JobStore.upd_status := None;
            JobStore.upd_progress := Some p;
            JobStore.upd_downloadUrl := None;
            JobStore.upd_s3Key := None;
            JobStore.upd_error := None;
            JobStore.upd_processingStartedAt := None;
            JobStore.upd_completedAt := None |} store).1 !! id = Some job' ∧
    JobStore.status job' = JobStore.status job ∧
    JobStore.progress job' = p ∧
    JobStore.downloadUrl job' = JobStore.downloadUrl job.
Proof.
  intros H.
  match goal with |- context [JobStore.updateJob now id ?u store] =>
    destruct (updateJob_present now id u store job H) as [_ ->] end.
  eexists. by rewrite lookup_insert_eq.
Qed.

Lemma readyUpdate_job now id url store job :
  JobStore.jobs store !! id = Some job →
  ∃ job',
    JobStore.jobs
      (JobStore.updateJob now id
         {| JobStore.upd_status := Some JobStore.ready;
            JobStore.upd_progress := Some 100;
            JobStore.upd_downloadUrl := Some url;
            JobStore.upd_s3Key := None;
            JobStore.upd_error := None;
            JobStore.upd_processingStartedAt := None;
            JobStore.upd_completedAt := Some now |} store).1 !! id = Some job' ∧
    JobStore.status job' = JobStore.ready ∧
    JobStore.progress job' = 100 ∧
    JobStore.downloadUrl job' = Some url.
Proof.
  intros H.
  match goal with |- context [JobStore.updateJob now id ?u store] =>
    destruct (updateJob_present now id u store job H) as [_ ->] end.
  eexists. by rewrite lookup_insert_eq.
Qed.

(** The turns of the loop of one attempt while the uploads succeed: after
    [k] wake-ups the call waits at the loop test with [3 * k] as its index
    and the job shows the rounded share of the files processed. *)
Lemma batches_run (s3 : S3Service) b conc mr ws evs queueJob :
  uploadsSucceed s3 →
  let id := Queue.jobId queueJob in
  let total := length (Queue.fileIds queueJob) in
  ∀ nows store job,
    JobStore.jobs store !! id = Some job →
    JobStore.status job = JobStore.processing →
    JobStore.progress job = 0 →
    (length nows ≤ batchCount total)%nat →
    let k := length nows in
    ∃ store' keys job',
      run s3 (wakes nows)
        (mkSystem store
           (runningQueue b conc 1 mr evs
              [(queueJob, Awaiting (loopTest queueJob 0 0 []))] ws)) =
      Some (mkSystem store'
              (runningQueue b conc 1 mr evs
                 [(queueJob,
                   Awaiting (loopTest queueJob (3 * k) (doneAfter k total) keys))]
                 ws)) ∧
      length keys = doneAfter k total ∧
      JobStore.jobs store' !! id = Some job' ∧
      JobStore.status job' = JobStore.processing ∧
      JobStore.progress job' = progressAfter k total ∧
      JobStore.downloadUrl job' = JobStore.downloadUrl job.
Proof.
  intros Hup id total nows store job Hjob Hst Hpr.
  induction nows as [|t nows IH] using rev_ind; intros Hlen k.
  - exists store, [], job. by repeat split.
  - subst k. rewrite length_app in *. cbn [length] in *.
    destruct IH as (store1 & keys & job1 & Hrun & Hkeys & Hjob1 & Hst1 & Hpr1 & Hurl1);
      [lia|].
    rewrite wakes_app, run_app, Hrun. cbn [mbind option_bind wakes map run step].
    assert (3 * length nows < total)%nat as Hlt by (apply batchCount_lt; lia).
    unfold loopTest at 1. fold total.
    assert ((3 * length nows <? total)%nat = true) as -> by (by apply Nat.ltb_lt).
    rewrite wake_awaiting. cbn [mbind option_bind].
    destruct (resume_batch_fulfilled s3 t queueJob (3 * length nows)
                (doneAfter (length nows) total) keys store1 Hup)
      as (batchKeys & HbatchKeys & ->).
    cbn [fst snd]. fold total id.
    assert ((doneAfter (length nows) total
             + length (batchAt (3 * length nows) (Queue.fileIds queueJob)))%nat
            = doneAfter (length nows + 1) total) as Hdone.
    { rewrite length_batchAt. fold total. unfold doneAfter. lia. }
    rewrite Hdone.
    replace (3 * length nows + 3)%nat with (3 * (length nows + 1))%nat by lia.
    destruct (progressUpdate_job t id
                (progressOf (doneAfter (length nows + 1) total) total) store1 job1 Hjob1)
      as (job2 & Hjob2 & Hst2 & Hpr2 & Hurl2).
    eexists _, (keys ++ batchKeys), job2. split; [reflexivity|].
    split; [rewrite length_app; lia|]. split; [exact Hjob2|].
    split; [congruence|]. split; [|congruence].
    rewrite Hpr2. by replace (length nows + 1)%nat with (S (length nows)) by lia.
Qed.

(** The whole of an attempt, for a job (with any list of files, empty or
    not) submitted to an idle, initialised process while the storage
    service accepts every upload and issues every URL. The loop
    cuts [fileIds] into batches of three in order, the last one holding
    what is left; after the [k]-th batch the job is [processing] with
    progress [Math.round((filesCompleted / totalFiles) * 100)], where
    [filesCompleted] is [min (3 * k) totalFiles]; and one wake-up after
    the last batch the job is [ready] with progress 100 and a download
    URL. *)
Lemma batches_progress_and_ready (s3 : S3Service) sys now id files :
  uploadsSucceed s3 → urlsIssued s3 → idle sys →
  let total := length files in
  let n := batchCount total in
  let sys0 := queueDownloadJob now id files sys in
  (concat (map (λ k, batchAt (3 * k) files) (seq 0 n)) = files ∧
   ∀ k, (k < n)%nat →
     (1 ≤ length (batchAt (3 * k) files) ≤ 3)%nat ∧
     ((k + 1 < n)%nat → length (batchAt (3 * k) files) = 3%nat)) ∧
  (∀ nows, (length nows ≤ n)%nat →
     let k := length nows in
     ∃ sysk job,
       run s3 (wakes nows) sys0 = Some sysk ∧
       JobStore.jobs (jobStore sysk) !! id = Some job ∧
       JobStore.status job = JobStore.processing ∧
       JobStore.progress job =
         (if decide (k = O) then 0 else progressOf ((3 * k) `min` total) total)) ∧
  (∀ nows, length nows = (n + 1)%nat →
     ∃ sysf job url,
       run s3 (wakes nows) sys0 = Some sysf ∧
       JobStore.jobs (jobStore sysf) !! id = Some job ∧
       JobStore.status job = JobStore.ready ∧
       JobStore.progress job = 100 ∧
       JobStore.downloadUrl job = Some url).
Proof.
  intros Hup Hurl Hidle total n sys0.
  destruct (idle_explicit sys Hidle) as (store & b & conc & mr & evs & ws & Hconc & ->).
  subst sys0. rewrite queueDownloadJob_idle by done.
  destruct (startUpdates_job now id _ _ (createJob_lookup now id files store))
    as (job0 & Hjob0 & Hst0 & Hpr0 & Hurl0).
  set (queueJob := bumpAttempts (mkQueueJob id files now 0)).
  change (loopTest (mkQueueJob id files now 0) 0 0 [])
    with (loopTest queueJob 0 0 []).
  split; [split|split].
  - apply batches_partition, batchCount_covers.
  - intros k Hk. rewrite length_batchAt. fold total.
    apply batchCount_lt in Hk as Hk'. split; [lia|].
    intros Hk1. apply batchCount_lt in Hk1. lia.
  - intros nows Hlen k.
    match goal with
    | |- context [mkSystem ?st (runningQueue _ _ 1 _ ?ev _ _)] =>
        destruct (batches_run s3 b conc mr ws ev queueJob Hup nows st job0)
          as (store' & keys & job' & Hrun & _ & Hjob' & Hst' & Hpr' & _)
    end; [exact Hjob0 | exact Hst0 | exact Hpr0 | exact Hlen |].
    eexists _, job'. split; [exact Hrun|]. split; [exact Hjob'|].
    split; [exact Hst'|]. rewrite Hpr'. fold k.
    destruct k; [done|]. by rewrite decide_False by done.
  - intros nows Hlen.
    destruct nows as [|t nows _] using rev_ind; [cbn in Hlen; lia|].
    rewrite length_app in Hlen. cbn [length] in Hlen.
    match goal with
    | |- context [mkSystem ?st (runningQueue _ _ 1 _ ?ev _ _)] =>
        destruct (batches_run s3 b conc mr ws ev queueJob Hup nows st job0)
          as (store' & keys & job' & Hrun & _ & Hjob' & Hst' & Hpr' & _)
    end; [exact Hjob0 | exact Hst0 | exact Hpr0
         | change (length nows ≤ n)%nat; lia |].
    rewrite wakes_app, run_app, Hrun. cbn [mbind option_bind wakes map run step].
    unfold loopTest at 1.
    assert ((3 * length nows <? length (Queue.fileIds queueJob))%nat = false) as ->.
    { apply Nat.ltb_ge. cbn [queueJob bumpAttempts Queue.fileIds]. fold total.
      assert (¬ (length nows < batchCount total)%nat) as Hge by (fold n; lia).
      rewrite batchCount_lt in Hge. lia. }
    unfold afterLoop. rewrite wake_awaiting. cbn [mbind option_bind].
    match goal with |- context [resume s3 t queueJob (AwaitUrl ?key) store'] =>
      destruct (resume_url_fulfilled s3 t queueJob key store' Hurl) as [url ->] end.
    cbn [fst snd].
    destruct (readyUpdate_job t id url store' job' Hjob')
      as (job2 & Hjob2 & Hst2 & Hpr2 & Hurl2).
    by eexists _, job2, url.
Qed.

(** A job of four files on the queue of the worker module: two batches,
    then the URL. *)
Lemma batches_progress_and_ready_example :
  ∃ sysf job url,
    run Sample.s3Up (wakes [3000; 4000; 5000])
      (queueDownloadJob 2000 Sample.uuid1 [10001; 10002; 10003; 10004]
         (initializeWorker 1000 initial)) = Some sysf ∧
    JobStore.jobs (jobStore sysf) !! Sample.uuid1 = Some job ∧
    JobStore.status job = JobStore.ready ∧
    JobStore.progress job = 100 ∧
    JobStore.downloadUrl job = Some url.
Proof.
  refine (proj2 (proj2 (batches_progress_and_ready Sample.s3Up
            (initializeWorker 1000 initial) 2000 Sample.uuid1
            [10001; 10002; 10003; 10004] _ _ _)) [3000; 4000; 5000] _).
  - intros now fileId. eexists. reflexivity.
  - intros now key. eexists. reflexivity.
  - unfold idle. cbn. repeat split; try reflexivity; lia.
  - reflexivity.
Defined.

End BatchClaim.

(* ===================================================================== *)
(** ** The percentages of an attempt *)
(* ===================================================================== *)

Section ProgressBounds.
Import Worker.

(** The percentages the loop writes for [t] files, one turn after the
    other: [c] files are done and [prev] is the progress stored; the next
    percentage must not be below [prev] nor above 100. *)
Fixpoint turnsOk (fuel : nat) (c prev t : Z) : bool :=
  match fuel with
  | O => true
  | S fuel1 =>
      if c <? t then
        let cur := percent (Z.min (c + 3) t) t in
        (prev <=? cur) && (cur <=? 100) && turnsOk fuel1 (c + 3) cur t
      else true
  end.

(** The same for [fuel] totals from [t] on. *)
Fixpoint totalsOk (fuel : nat) (t : Z) : bool :=
  match fuel with
  | O => true
  | S fuel1 => turnsOk 334 0 0 t && totalsOk fuel1 (t + 1)
  end.

(** The percentage is the one of the doubles: with 57 of 200 files done the
    product is 28.499999999999996 and rounds to 28, where the exact
    quotient 28.5 would round to 29. *)
Example percent_57_of_200 : percent 57 200 = 28 ∧ (2 * 57 * 100 + 200) / (2 * 200) = 29.
Proof. split; vm_compute; reflexivity. Qed.

Example percent_thirds : (percent 1 3, percent 2 3, percent 3 3) = (33, 67, 100).
Proof. vm_compute. reflexivity. Qed.

(** Every list the request schema lets through has at most 1000 files: the
    percentages of all those totals are checked by evaluating them, in the
    doubles the worker computes them in. *)
Lemma totalsOk_to_1000 : totalsOk 1000 1 = true.
Proof. vm_cast_no_check (eq_refl true). Qed.

Lemma turnsOk_spec fuel :
  ∀ c prev t, turnsOk fuel c prev t = true →
  ∀ j : nat, (j < fuel)%nat → c + 3 * Z.of_nat j < t →
    match j with
    | O => prev
    | S _ => percent (c + 3 * Z.of_nat j) t
    end ≤ percent (Z.min (c + 3 * Z.of_nat j + 3) t) t
    ∧ percent (Z.min (c + 3 * Z.of_nat j + 3) t) t ≤ 100.
Proof.
  induction fuel as [|fuel IH]; intros c prev t Hok j Hj Hlt; [lia|].
  cbn [turnsOk] in Hok.
  assert ((c <? t) = true) as Hc by (apply Z.ltb_lt; lia).
  rewrite Hc in Hok. cbv zeta in Hok.
  apply andb_true_iff in Hok as [Hok Hrest].
  apply andb_true_iff in Hok as [Hprev Hcur].
  apply Z.leb_le in Hprev, Hcur.
  destruct j as [|j].
  - replace (c + 3 * Z.of_nat 0 + 3) with (c + 3) by lia. done.
  - specialize (IH (c + 3) _ t Hrest j).
    replace (c + 3 * Z.of_nat (S j)) with (c + 3 + 3 * Z.of_nat j) by lia.
    destruct IH as [IH1 IH2]; [lia..|]. split; [|done].
    destruct j as [|j]; [|done].
    replace (c + 3 + 3 * Z.of_nat 0) with (c + 3) in * by lia.
    rewrite Z.min_l in IH1 by lia. done.
Qed.

Lemma totalsOk_spec fuel :
  ∀ t0, totalsOk fuel t0 = true →
  ∀ t, t0 ≤ t < t0 + Z.of_nat fuel → turnsOk 334 0 0 t = true.
Proof.
  induction fuel as [|fuel IH]; intros t0 Hok t Ht; [lia|].
  cbn [totalsOk] in Hok. apply andb_true_iff in Hok as [Hhere Hrest].
  destruct (decide (t = t0)) as [->|Hne]; [done|].
  apply (IH (t0 + 1) Hrest). lia.
Qed.

(** One turn of the loop never lowers the progress of the attempt, and
    never takes it above 100. *)
Lemma progress_turn (k total : nat) :
  (total ≤ 1000)%nat → (3 * k < total)%nat →
  progressAfter k total ≤ progressOf ((3 * k + 3) `min` total) total ∧
  progressOf ((3 * k + 3) `min` total) total ≤ 100.
Proof.
  intros Hmax Hlt.
  pose proof (totalsOk_spec 1000 1 totalsOk_to_1000 (Z.of_nat total)) as Hturns.
  pose proof (turnsOk_spec 334 0 0 (Z.of_nat total) (Hturns ltac:(lia)) k) as Hk.
  destruct Hk as [Hk1 Hk2]; [lia..|].
  unfold progressOf. rewrite Nat2Z.inj_min, Nat2Z.inj_add, Nat2Z.inj_mul.
  change (Z.of_nat 3) with 3.
  replace (0 + 3 * Z.of_nat k + 3) with (3 * Z.of_nat k + 3) in * by lia.
  split; [|done].
  destruct k as [|k]; [done|].
  unfold progressAfter, progressOf, doneAfter.
  rewrite Nat.min_l by lia. rewrite Nat2Z.inj_mul.
  change (Z.of_nat 3) with 3.
  by replace (0 + 3 * Z.of_nat (S k)) with (3 * Z.of_nat (S k)) in Hk1 by lia.
Qed.

End ProgressBounds.

(* ===================================================================== *)
(** ** Progress over the life of a job *)
(* ===================================================================== *)

Section ProgressInvariant.
Import Queue Worker App.

Implicit Types (st : JobStore.JobStore) (e : QueueJob) (id : string).
Implicit Types (waiting : list QueueJob) (running : list (QueueJob * Call)).

(** Whether a status is one a job can still move on from. *)
Definition live (job : JobStore.Job) : Prop :=
  JobStore.isTerminal (JobStore.status job) = false.

(** No job that is not terminal loses progress from [st] to [st']. *)
Definition neverDrops st st' : Prop :=
  ∀ id job, JobStore.jobs st !! id = Some job → live job →
    ∃ job', JobStore.jobs st' !! id = Some job' ∧
            JobStore.progress job ≤ JobStore.progress job'.

(** The same, and such a job is not terminal in [st'] either. *)
Definition keepsLive st st' : Prop :=
  ∀ id job, JobStore.jobs st !! id = Some job → live job →
    ∃ job', JobStore.jobs st' !! id = Some job' ∧ live job' ∧
            JobStore.progress job ≤ JobStore.progress job'.

(** If the store holds the job [id] and the job is not terminal, its
    progress is as [P] says. *)
Definition liveProgress st id (P : Z → Prop) : Prop :=
  ∀ job, JobStore.jobs st !! id = Some job → live job → P (JobStore.progress job).

(** A job [id] that [st'] holds is held by [st], unchanged. *)
Definition heldFrom st st' id : Prop :=
  ∀ job, JobStore.jobs st' !! id = Some job → JobStore.jobs st !! id = Some job.

(** The list of an entry passed the request schema. *)
Definition sized e : Prop := (length (fileIds e) ≤ 1000)%nat.

(** An entry that waits in the queue: its job, while not terminal, is at 0. *)
Definition waitingOk st e : Prop :=
  sized e ∧ liveProgress st (jobId e) (λ p, p = 0).

(** A call in flight: between two batches the job shows the percentage of
    the batches done, before the URL at most 100; once the handler has
    settled the job is terminal (or gone). *)
Definition callOk st (x : QueueJob * Call) : Prop :=
  sized x.1 ∧
  match x.2 with
  | Awaiting (AwaitBatch i c _) =>
      ∃ k : nat,
        i = (3 * k)%nat ∧ c = (3 * k)%nat ∧ (3 * k < length (fileIds x.1))%nat ∧
        liveProgress st (jobId x.1)
          (λ p, p = progressAfter k (length (fileIds x.1)))
  | Awaiting (AwaitUrl _) => liveProgress st (jobId x.1) (λ p, p ≤ 100)
  | Resolved | Rejected _ => liveProgress st (jobId x.1) (λ p, p = 0)
  end.

(** The job ids of the entries, waiting and in flight. *)
Definition idsOf waiting running : list string :=
  map jobId waiting ++ map (λ x, jobId x.1) running.

(** The entries of the queue against the store: one entry per job at most,
    and each entry as above. *)
Definition entriesOk st waiting running : Prop :=
  NoDup (idsOf waiting running) ∧
  Forall (waitingOk st) waiting ∧ Forall (callOk st) running.

(** The invariant of the process. *)
Definition progressInv (sys : System) : Prop :=
  let q := downloadQueue sys in
  (handler q = None ∨ handler q = Some processDownloadJob) ∧
  entriesOk (jobStore sys) (queue q) (calls q).

Lemma keepsLive_refl st : keepsLive st st.
Proof. intros id job Hjob Hlive. by exists job. Qed.

Lemma keepsLive_trans st1 st2 st3 :
  keepsLive st1 st2 → keepsLive st2 st3 → keepsLive st1 st3.
Proof.
  intros H12 H23 id job Hjob Hlive.
  destruct (H12 id job Hjob Hlive) as (job2 & Hjob2 & Hlive2 & Hle2).
  destruct (H23 id job2 Hjob2 Hlive2) as (job3 & Hjob3 & Hlive3 & Hle3).
  exists job3. repeat split; try done. lia.
Qed.

Lemma keepsLive_neverDrops st st' : keepsLive st st' → neverDrops st st'.
Proof.
  intros H id job Hjob Hlive.
  destruct (H id job Hjob Hlive) as (job' & ? & _ & ?). by exists job'.
Qed.

Lemma liveProgress_held st st' id P :
  heldFrom st st' id → liveProgress st id P → liveProgress st' id P.
Proof. intros Hheld HP job Hjob. apply HP. by apply Hheld. Qed.

Lemma waitingOk_held st st' e :
  heldFrom st st' (jobId e) → waitingOk st e → waitingOk st' e.
Proof. intros Hheld [Hs HP]. split; [done|]. by eapply liveProgress_held. Qed.

Lemma callOk_held st st' x :
  heldFrom st st' (jobId x.1) → callOk st x → callOk st' x.
Proof.
  intros Hheld [Hs HP]. split; [done|].
  destruct x as [e [[i c keys|key]| |err]]; cbn in *.
  - destruct HP as (k & ? & ? & ? & HP). exists k.
    repeat split; try done. by eapply liveProgress_held.
  - by eapply liveProgress_held.
  - by eapply liveProgress_held.
  - by eapply liveProgress_held.
Qed.

Lemma entriesOk_held st st' waiting running :
  (∀ id, id ∈ idsOf waiting running → heldFrom st st' id) →
  entriesOk st waiting running → entriesOk st' waiting running.
Proof.
  intros Hheld (Hnd & Hw & Hr). split; [done|]. split.
  - rewrite Forall_forall in *. intros e He. apply (waitingOk_held st); [|auto].
    apply Hheld. unfold idsOf. rewrite elem_of_app. left.
    apply list_elem_of_fmap. by exists e.
  - rewrite Forall_forall in *. intros x Hx. apply (callOk_held st); [|auto].
    apply Hheld. unfold idsOf. rewrite elem_of_app. right.
    apply list_elem_of_fmap. by exists x.
Qed.

(** What [updateJob] does to the map, for every key. *)
Lemma updateJob_lookup now id u st id' :
  JobStore.jobs (JobStore.updateJob now id u st).1 !! id' =
    if decide (id' = id)
    then (λ job, JobStore.applyUpdates now job u) <$> JobStore.jobs st !! id
    else JobStore.jobs st !! id'.
Proof.
  destruct (JobStore.jobs st !! id) as [job|] eqn:Hjob.
  - destruct (updateJob_present now id u st job Hjob) as [_ ->].
    destruct (decide (id' = id)) as [->|Hne].
    + by rewrite lookup_insert_eq.
    + by rewrite lookup_insert_ne.
  - rewrite (updateJob_missing now id u st Hjob). cbn.
    destruct (decide (id' = id)) as [->|Hne]; done.
Qed.

Lemma updateJob_held now id u st id' :
  id' ≠ id → heldFrom st (JobStore.updateJob now id u st).1 id'.
Proof.
  intros Hne job. rewrite updateJob_lookup. by rewrite decide_False.
Qed.

Lemma idsOf_call waiting l1 x l2 :
  idsOf waiting (l1 ++ x :: l2) ≡ₚ jobId x.1 :: idsOf waiting (l1 ++ l2).
Proof.
  unfold idsOf. rewrite !map_app. cbn [map].
  by rewrite <- !Permutation_middle.
Qed.

Lemma idsOf_waiting_end waiting e running :
  idsOf (waiting ++ [e]) running ≡ₚ jobId e :: idsOf waiting running.
Proof.
  unfold idsOf. rewrite map_app. cbn [map].
  rewrite <- app_assoc. cbn. by rewrite <- Permutation_middle.
Qed.

Lemma entriesOk_add_call st waiting l1 x l2 :
  NoDup (jobId x.1 :: idsOf waiting (l1 ++ l2)) →
  entriesOk st waiting (l1 ++ l2) → callOk st x →
  entriesOk st waiting (l1 ++ x :: l2).
Proof.
  intros Hnd (_ & Hw & Hr) Hx. split; [by rewrite idsOf_call|].
  split; [done|]. apply Forall_app in Hr as [Hr1 Hr2].
  apply Forall_app. split; [done|]. by apply Forall_cons.
Qed.

Lemma entriesOk_del_call st waiting l1 x l2 :
  entriesOk st waiting (l1 ++ x :: l2) →
  NoDup (jobId x.1 :: idsOf waiting (l1 ++ l2)) ∧
  entriesOk st waiting (l1 ++ l2) ∧ callOk st x.
Proof.
  intros (Hnd & Hw & Hr). rewrite idsOf_call in Hnd.
  apply Forall_app in Hr as [Hr1 Hr2]. apply Forall_cons in Hr2 as [Hx Hr2].
  split; [done|]. split; [|done].
  split; [by apply NoDup_cons in Hnd as [_ ?]|].
  split; [done|]. apply Forall_app. by split.
Qed.

Lemma entriesOk_add_waiting st waiting e running :
  NoDup (jobId e :: idsOf waiting running) →
  entriesOk st waiting running → waitingOk st e →
  entriesOk st (waiting ++ [e]) running.
Proof.
  intros Hnd (_ & Hw & Hr) He. split; [by rewrite idsOf_waiting_end|].
  split; [|done]. apply Forall_app. split; [done|]. by apply Forall_singleton.
Qed.

Lemma entriesOk_del_waiting st e waiting running :
  entriesOk st (e :: waiting) running →
  NoDup (jobId e :: idsOf waiting running) ∧
  entriesOk st waiting running ∧ waitingOk st e.
Proof.
  intros (Hnd & Hw & Hr). apply Forall_cons in Hw as [He Hw].
  split; [done|]. split; [|done].
  split; [by apply NoDup_cons in Hnd as [_ ?]|]. by split.
Qed.

Lemma entriesOk_no_waiting st waiting running :
  entriesOk st waiting running → entriesOk st [] running.
Proof.
  intros (Hnd & Hw & Hr). split; [|by split].
  unfold idsOf in *. by apply NoDup_app in Hnd as (_ & _ & ?).
Qed.

(** A change of the store that leaves all jobs but [id] alone keeps the
    entries of the other jobs in order. *)
Lemma entriesOk_touch st st1 waiting running id :
  NoDup (id :: idsOf waiting running) →
  (∀ id', id' ≠ id → heldFrom st st1 id') →
  entriesOk st waiting running → entriesOk st1 waiting running.
Proof.
  intros Hnd Hheld. apply entriesOk_held. intros id' Hin. apply Hheld.
  apply NoDup_cons in Hnd as [Hnotin _]. intros ->. done.
Qed.

(** The start of an attempt: the first stretch of the handler. *)
Lemma start_callOk now e st :
  waitingOk st e →
  let r := processDownloadJob now (bumpAttempts e) st in
  callOk r.1 (bumpAttempts e, r.2) ∧ keepsLive st r.1 ∧
  (∀ id', id' ≠ jobId e → heldFrom st r.1 id').
Proof.
  intros [Hsized Hzero]. cbv zeta.
  unfold processDownloadJob, JobStore.getJob. cbn [jobId bumpAttempts].
  destruct (JobStore.jobs st !! jobId e) as [job|] eqn:Hjob; cbn [fst snd].
  - split; [|split].
    + split; [done|]. unfold loopTest. cbn [fst snd fileIds jobId bumpAttempts].
      destruct (0 <? length (fileIds e))%nat eqn:Hlen.
      * exists O. apply Nat.ltb_lt in Hlen. repeat split; try done.
        intros job1. rewrite updateJob_lookup, decide_True, Hjob by done.
        by intros [= <-] _.
      * unfold afterLoop. cbn [callOk snd].
        intros job1. rewrite updateJob_lookup, decide_True, Hjob by done.
        by intros [= <-] _.
    + intros id job0 Hjob0 Hlive.
      destruct (decide (id = jobId e)) as [->|Hne].
      * rewrite Hjob in Hjob0. injection Hjob0 as <-.
        eexists. rewrite updateJob_lookup, decide_True, Hjob by done.
        split; [done|]. split; [done|]. cbn. rewrite (Hzero job Hjob Hlive). done.
      * exists job0. rewrite updateJob_lookup, decide_False by done. by repeat split.
    + intros id' Hne. by apply updateJob_held.
  - split; [|split].
    + split; [done|]. cbn. intros job. by rewrite Hjob.
    + apply keepsLive_refl.
    + by intros id' _ job.
Qed.

Lemma tryProcessLoop_cons now e rest (q : DownloadQueue) st :
  tryProcessLoop now (e :: rest) q st =
    if activeJobs q <? concurrency q then
      tryProcessLoop now rest (processJob now e (set_queue rest q) st).1
        (processJob now e (set_queue rest q) st).2
    else (set_queue (e :: rest) q, st).
Proof.
  unfold tryProcessLoop at 1. fold (@tryProcessLoop JobStore.JobStore Pending).
  destruct (activeJobs q <? concurrency q); [|done].
  by destruct (processJob now e (set_queue rest q) st).
Qed.

(** The loop of [tryProcess] starts entries one after the other; each start
    touches the job of its entry only. *)
Lemma tryProcessLoop_entriesOk now pending :
  ∀ (q : DownloadQueue) st,
    handler q = Some processDownloadJob →
    entriesOk st pending (calls q) →
    let r := tryProcessLoop now pending q st in
    entriesOk r.2 (queue r.1) (calls r.1) ∧ keepsLive st r.2 ∧
    handler r.1 = handler q.
Proof.
  induction pending as [|e rest IH]; intros q st Hh Hok.
  - cbn. split; [done|]. split; [apply keepsLive_refl|done].
  - cbv zeta. rewrite tryProcessLoop_cons.
    destruct (activeJobs q <? concurrency q);
      [|cbn; split; [done|]; split; [apply keepsLive_refl|done]].
    unfold processJob. cbn [handler set_queue]. rewrite Hh.
    destruct (entriesOk_del_waiting _ _ _ _ Hok) as (Hnd & Hrest & He).
    destruct (start_callOk now e st He) as (Hcall & Hkeep & Hheld).
    destruct (processDownloadJob now (bumpAttempts e) st) as [st1 c] eqn:Hstart.
    cbn [fst snd] in *.
    match goal with |- context [tryProcessLoop now rest ?q1 st1] =>
      destruct (IH q1 st1) as (Hok' & Hkeep' & Hh') end.
    + done.
    + cbn [calls set_calls emit set_activeJobs set_queue].
      apply entriesOk_add_call; rewrite ?app_nil_r; [done| |done].
      by eapply entriesOk_touch.
    + split; [done|]. split; [by eapply keepsLive_trans|].
      rewrite Hh'. done.
Qed.

Lemma tryProcess_entriesOk now (q : DownloadQueue) st :
  handler q = None ∨ handler q = Some processDownloadJob →
  entriesOk st (queue q) (calls q) →
  let r := tryProcess now q st in
  entriesOk r.2 (queue r.1) (calls r.1) ∧ keepsLive st r.2 ∧
  handler r.1 = handler q.
Proof.
  intros Hh Hok. cbv zeta. unfold tryProcess.
  destruct (negb (isRunning q)); cbn [orb];
    [split; [done|]; split; [apply keepsLive_refl|done]|].
  destruct Hh as [Hh|Hh]; rewrite Hh.
  - cbn. split; [done|]. split; [apply keepsLive_refl|done].
  - rewrite bool_decide_eq_true_2 by eauto. cbn [negb].
    rewrite <- Hh. by apply tryProcessLoop_entriesOk.
Qed.

Lemma updateJob_neverDrops now id u st :
  (∀ job, JobStore.jobs st !! id = Some job → live job →
     JobStore.progress job ≤ JobStore.progress (JobStore.applyUpdates now job u)) →
  neverDrops st (JobStore.updateJob now id u st).1.
Proof.
  intros Hle id' job Hjob Hlive. rewrite updateJob_lookup.
  destruct (decide (id' = id)) as [->|Hne].
  - rewrite Hjob. eexists. split; [done|]. by apply Hle.
  - exists job. by split.
Qed.

(** The [catch] clause leaves a settled call whose job is failed. *)
Lemma catchClause_callOk now e err st :
  sized e →
  let r := catchClause now (jobId e) err st in
  callOk r.1 (e, r.2) ∧ neverDrops st r.1 ∧
  (∀ id', id' ≠ jobId e → heldFrom st r.1 id').
Proof.
  intros Hsized. cbv zeta. unfold catchClause. cbn [fst snd].
  split; [|split].
  - split; [done|]. cbn [callOk snd fst]. intros job.
    rewrite updateJob_lookup, decide_True by done.
    destruct (JobStore.jobs st !! jobId e) as [job0|]; [|done].
    intros [= <-] Hlive. by unfold live in Hlive.
  - apply updateJob_neverDrops. intros job _ _. done.
  - intros id' Hne. by apply updateJob_held.
Qed.

(** A handler resumed from an [await]: the next percentage is not below
    the one stored, the end of the attempt stores 100 or leaves the
    progress alone. *)
Lemma resume_callOk (s3 : S3Service) now e p st :
  callOk st (e, Awaiting p) →
  let r := resume s3 now e p st in
  callOk r.1 (e, r.2) ∧ neverDrops st r.1 ∧
  (∀ id', id' ≠ jobId e → heldFrom st r.1 id').
Proof.
  intros [Hsized Hp]. cbn [fst snd] in Hsized, Hp. cbv zeta. unfold resume.
  destruct p as [i c keys|key].
  - destruct Hp as (k & -> & -> & Hlt & Hprog).
    destruct (processBatch s3 now (batchAt (3 * k) (fileIds e)))
      as [batchResults|err]; [|by apply catchClause_callOk].
    cbn [fst snd].
    assert ((3 * k + length (batchAt (3 * k) (fileIds e)))%nat
            = ((3 * k + 3) `min` length (fileIds e))%nat) as Hdone
      by (rewrite length_batchAt; lia).
    rewrite Hdone.
    destruct (progress_turn k (length (fileIds e)) Hsized Hlt) as [Hup H100].
    split; [|split].
    + split; [done|]. unfold loopTest, PARALLEL_FILE_BATCH_SIZE.
      destruct (3 * k + 3 <? length (fileIds e))%nat eqn:Hmore.
      * apply Nat.ltb_lt in Hmore. exists (S k). cbn [fst snd].
        split; [lia|]. split; [lia|]. split; [lia|].
        intros job. rewrite updateJob_lookup, decide_True by done.
        destruct (JobStore.jobs st !! jobId e) as [job0|]; [|done].
        intros [= <-] _.
        cbn [JobStore.progress JobStore.applyUpdates JobStore.spread
             JobStore.upd_progress].
        unfold progressAfter, doneAfter. f_equal. lia.
      * unfold afterLoop. cbn [callOk fst snd].
        intros job. rewrite updateJob_lookup, decide_True by done.
        destruct (JobStore.jobs st !! jobId e) as [job0|]; [|done].
        by intros [= <-] _.
    + apply updateJob_neverDrops. intros job Hjob Hlive. cbn.
      by rewrite (Hprog job Hjob Hlive).
    + intros id' Hne. by apply updateJob_held.
  - destruct (generatePresignedUrl s3 now key) as [url|err];
      [|by apply catchClause_callOk].
    cbn [fst snd]. split; [|split].
    + split; [done|]. cbn [callOk fst snd]. intros job.
      rewrite updateJob_lookup, decide_True by done.
      destruct (JobStore.jobs st !! jobId e) as [job0|]; [|done].
      intros [= <-] Hlive. by unfold live in Hlive.
    + apply updateJob_neverDrops. intros job Hjob Hlive. cbn.
      by apply (Hp job Hjob Hlive).
    + intros id' Hne. by apply updateJob_held.
Qed.

Lemma resume_entriesOk (s3 : S3Service) now st waiting l1 e p l2 :
  entriesOk st waiting (l1 ++ (e, Awaiting p) :: l2) →
  let r := resume s3 now e p st in
  entriesOk r.1 waiting (l1 ++ (e, r.2) :: l2) ∧ neverDrops st r.1.
Proof.
  intros Hok. cbv zeta.
  destruct (entriesOk_del_call _ _ _ _ _ Hok) as (Hnd & Hrest & Hcall).
  destruct (resume_callOk s3 now e p st Hcall) as (Hcall' & Hdrops & Hheld).
  split; [|done]. apply entriesOk_add_call; [done| |done].
  by eapply entriesOk_touch.
Qed.

Lemma insert_at_middle {A} (l1 l2 : list A) x y :
  <[length l1 := y]> (l1 ++ x :: l2) = l1 ++ y :: l2.
Proof. induction l1 as [|z l1 IH]; [done|]. cbn. by f_equal. Qed.

Lemma createJob_lookup_any now id files st id' :
  JobStore.jobs (JobStore.createJob now (JobStore.mkCreateJobInput id files) st).1
    !! id' =
  if decide (id' = id)
  then Some (JobStore.mkJob id files JobStore.queued 0 None None None now now
               None None)
  else JobStore.jobs st !! id'.
Proof.
  unfold JobStore.createJob. cbn.
  destruct (decide (id' = id)) as [->|Hne].
  - by rewrite lookup_insert_eq.
  - by rewrite lookup_insert_ne.
Qed.

Lemma shutdownLoop_lists now startTime timeoutMs (q : DownloadQueue) :
  let r := shutdownLoop now startTime timeoutMs q in
  (queue r = [] ∨ queue r = queue q) ∧ calls r = calls q ∧ handler r = handler q.
Proof.
  cbv zeta. unfold shutdownLoop.
  destruct (0 <? activeJobs q); [destruct (timeoutMs <? now - startTime)|];
    cbn; auto.
Qed.

Lemma entriesOk_shutdownLoop st now startTime timeoutMs (q : DownloadQueue) :
  entriesOk st (queue q) (calls q) →
  let r := shutdownLoop now startTime timeoutMs q in
  entriesOk st (queue r) (calls r).
Proof.
  intros Hok. cbv zeta.
  destruct (shutdownLoop_lists now startTime timeoutMs q) as ([->| ->] & -> & _);
    [by eapply entriesOk_no_waiting|done].
Qed.

(** Every step of the process keeps the invariant, and no job that is not
    terminal loses progress in it. *)
Lemma progressInv_step (s3 : S3Service) op sys sys' :
  progressInv sys → step s3 op sys = Some sys' →
  progressInv sys' ∧ neverDrops (jobStore sys) (jobStore sys').
Proof.
  destruct sys as [st q]. intros [Hh Hok]. cbn [jobStore downloadQueue] in Hh, Hok.
  destruct op as [now|now uuid file_ids|now k|now age| |now| |now t|now k];
    cbn [step jobStore downloadQueue].
  - (* initializeWorker *)
    intros [= <-]; unfold progressInv; cbv zeta. unfold initializeWorker, ofPair, process.
    cbn [jobStore downloadQueue].
    match goal with |- context [tryProcess now ?q0 st] =>
      destruct (tryProcess_entriesOk now q0 st) as (Hok' & Hkeep & Hh') end;
      [by right|done|].
    split; [|by apply keepsLive_neverDrops].
    split; [right; by rewrite Hh'|done].
  - (* POST /v1/download/async *)
    destruct (fresh uuid (mkSystem st q)) eqn:Hfresh; [|done]. intros [= <-]; unfold progressInv; cbv zeta.
    unfold fresh in Hfresh. cbn [jobStore downloadQueue] in Hfresh.
    apply andb_true_iff in Hfresh as [Hfresh _].
    apply andb_true_iff in Hfresh as [Hnew Hnotin].
    apply bool_decide_eq_true in Hnew, Hnotin.
    unfold Routes.asyncDownload.
    destruct (Routes.fileIdsSchema file_ids) eqn:Hschema;
      [|cbn; split; [by split|apply keepsLive_neverDrops, keepsLive_refl]].
    cbn [snd Routes.submitOne]. unfold queueDownloadJob, ofPair, add.
    cbn [jobStore downloadQueue].
    set (st1 := (JobStore.createJob now (JobStore.mkCreateJobInput uuid file_ids) st).1).
    assert (keepsLive st st1) as Hkeep1.
    { intros id job Hjob Hlive. exists job. subst st1.
      rewrite createJob_lookup_any, decide_False by congruence. by repeat split. }
    match goal with |- context [tryProcess now ?q0 st1] =>
      destruct (tryProcess_entriesOk now q0 st1) as (Hok' & Hkeep & Hh') end.
    + done.
    + cbn [queue calls emit set_queue].
      apply entriesOk_add_waiting.
      * destruct Hok as [Hnd _]. by apply NoDup_cons.
      * apply (entriesOk_held st); [|done]. intros id Hin job. subst st1.
        rewrite createJob_lookup_any, decide_False; [done|].
        intros ->. done.
      * split.
        -- unfold sized. cbn. apply fileIdsSchema_length in Hschema. lia.
        -- intros job. cbn [jobId]. subst st1.
           rewrite createJob_lookup_any, decide_True by done.
           by intros [= <-] _.
    + split; [split; [by rewrite Hh'|done]|].
      apply keepsLive_neverDrops. by eapply keepsLive_trans.
  - (* a suspended call is resumed *)
    unfold wake. cbn [jobStore downloadQueue].
    destruct (calls q !! k) as [[e c]|] eqn:Hk; [|done].
    destruct (list_elem_of_split_length _ _ _ Hk) as (l1 & l2 & Hcalls & ->).
    rewrite Hcalls in Hok.
    destruct c as [p| |err].
    + pose proof (resume_entriesOk s3 now st (queue q) l1 e p l2 Hok) as Hres.
      destruct (resume s3 now e p st) as [st1 c1]. cbn [fst snd] in Hres.
      intros [= <-]; unfold progressInv; cbv zeta. cbn [jobStore downloadQueue calls queue handler set_calls].
      rewrite Hcalls, insert_at_middle. destruct Hres as [Hok1 Hdrops].
      split; [by split|done].
    + unfold processJobSettled. rewrite Hk, Hcalls, delete_middle.
      cbn [fmap option_fmap option_map]. intros [= <-]; unfold progressInv; cbv zeta.
      unfold processJobFinally, ofPair. cbn [jobStore downloadQueue].
      destruct (entriesOk_del_call _ _ _ _ _ Hok) as (Hnd & Hrest & Hcall).
      match goal with |- context [tryProcess now ?q0 st] =>
        destruct (tryProcess_entriesOk now q0 st) as (Hok' & Hkeep & Hh') end;
        [done|done|].
      split; [|by apply keepsLive_neverDrops].
      split; [by rewrite Hh'|done].
    + unfold processJobSettled. rewrite Hk, Hcalls, delete_middle.
      cbn [fmap option_fmap option_map]. intros [= <-]; unfold progressInv; cbv zeta.
      unfold processJobFinally, ofPair. cbn [jobStore downloadQueue].
      destruct (entriesOk_del_call _ _ _ _ _ Hok) as (Hnd & Hrest & Hcall).
      match goal with |- context [tryProcess now ?q0 st] =>
        destruct (tryProcess_entriesOk now q0 st) as (Hok' & Hkeep & Hh') end.
      * cbn [maxRetries set_calls].
        by destruct (attempts e <? maxRetries q).
      * cbn [maxRetries set_calls].
        destruct (attempts e <? maxRetries q);
          cbn [queue calls emit set_queue set_calls set_activeJobs]; [|done].
        by apply entriesOk_add_waiting.
      * split; [|by apply keepsLive_neverDrops].
        split; [|done]. rewrite Hh'. cbn [maxRetries set_calls].
        by destruct (attempts e <? maxRetries q).
  - (* cleanup *)
    intros [= <-]; unfold progressInv; cbv zeta. cbn [jobStore downloadQueue].
    change (JobStore.mkJobStore _ _) with (JobStore.cleanup now age st).1.
    split.
    + split; [done|]. apply (entriesOk_held st); [|done].
      intros id _ job. rewrite cleanup_lookup.
      destruct (JobStore.jobs st !! id) as [j|]; [|done].
      by destruct (JobStore.isOld now _ j).
    + intros id job Hjob Hlive. exists job. split; [|done].
      rewrite cleanup_lookup, Hjob.
      destruct (JobStore.isOld now _ job) eqn:Hold; [|done].
      apply isOld_spec in Hold as [Hterm _]. unfold live, JobStore.isTerminal in Hlive.
      by destruct Hterm as [Hs|Hs]; rewrite Hs in Hlive.
  - (* pause *)
    intros [= <-]; unfold progressInv; cbv zeta. cbn. split; [by split|].
    apply keepsLive_neverDrops, keepsLive_refl.
  - (* resume *)
    intros [= <-]; unfold progressInv; cbv zeta.
    unfold ofPair, Queue.resume. cbn [jobStore downloadQueue].
    match goal with |- context [tryProcess now ?q0 st] =>
      destruct (tryProcess_entriesOk now q0 st) as (Hok' & Hkeep & Hh') end;
      [done|done|].
    split; [|by apply keepsLive_neverDrops].
    split; [by rewrite Hh'|done].
  - (* stop *)
    intros [= <-]; unfold progressInv; cbv zeta. cbn. split; [|apply keepsLive_neverDrops, keepsLive_refl].
    split; [done|]. by eapply entriesOk_no_waiting.
  - (* shutdown *)
    intros [= <-]; unfold progressInv; cbv zeta. cbn [jobStore downloadQueue].
    split; [|apply keepsLive_neverDrops, keepsLive_refl].
    unfold shutdown.
    match goal with |- context [shutdownLoop ?a ?b ?c ?q0] =>
      pose proof (entriesOk_shutdownLoop st a b c q0 Hok) as Hok';
      destruct (shutdownLoop_lists a b c q0) as (_ & _ & Hh') end.
    split; [by rewrite Hh'|done].
  - (* a waiting shutdown wakes up *)
    unfold shutdownWake.
    destruct (waiters q !! k) as [[startTime timeoutMs]|]; [|done].
    cbn [fmap option_fmap option_map]. intros [= <-]; unfold progressInv; cbv zeta.
    cbn [jobStore downloadQueue].
    split; [|apply keepsLive_neverDrops, keepsLive_refl].
    match goal with |- context [shutdownLoop ?a ?b ?c ?q0] =>
      pose proof (entriesOk_shutdownLoop st a b c q0 Hok) as Hok';
      destruct (shutdownLoop_lists a b c q0) as (_ & _ & Hh') end.
    split; [by rewrite Hh'|done].
Qed.

Lemma progressInv_reachable (s3 : S3Service) oc om sys :
  reachable s3 oc om sys → progressInv sys.
Proof.
  induction 1 as [|sys op sys' _ IH Hstep].
  - split; [by left|]. split; [constructor|]. by split.
  - by destruct (progressInv_step s3 op sys sys' IH Hstep).
Qed.

(** What a client polling the job [id] after every step of a run reads:
    the status and the progress of the job, once it exists. *)
Fixpoint observe (s3 : S3Service) (id : string) (ops : list Op) (sys : System)
  : list (JobStore.JobStatus * Z) :=
  match ops with
  | [] => []
  | op :: rest =>
      match step s3 op sys with
      | Some sys' =>
          match JobStore.jobs (jobStore sys') !! id with
          | Some job => [(JobStore.status job, JobStore.progress job)]
          | None => []
          end ++ observe s3 id rest sys'
      | None => []
      end
  end.

(** C2 as stated, on a sequence of reads: of two reads that both show the
    job short of a terminal status, the later one does not show less
    progress. *)
Definition nonDecreasingUntilTerminal (reads : list (JobStore.JobStatus * Z))
  : Prop :=
  ∀ (i j : nat) s1 p1 s2 p2,
    (i ≤ j)%nat → reads !! i = Some (s1, p1) → reads !! j = Some (s2, p2) →
    JobStore.isTerminal s1 = false → JobStore.isTerminal s2 = false →
    p1 ≤ p2.

(** A submission of four files of which the last cannot be uploaded: the
    first batch, the failing second batch, and the start of the retry. *)
Definition retryOps : list Op :=
  [InitializeWorker 1000;
   PostAsync 2000 Sample.uuid1 [10001; 10002; 10003; 30000];
   Wake 3000 0; Wake 4000 0; Wake 5000 0].

(** C2, the claim as stated, fails: the job is processing at 75 after its
    first batch, is marked failed when the second batch fails, and is
    processing at 0 again when the queue starts the retry. *)
Lemma retry_resets_progress :
  observe Sample.s3 Sample.uuid1 retryOps initial =
    [(JobStore.processing, 0); (JobStore.processing, 75);
     (JobStore.failed, 75); (JobStore.processing, 0)] ∧
  ¬ nonDecreasingUntilTerminal (observe Sample.s3 Sample.uuid1 retryOps initial).
Proof.
  assert (observe Sample.s3 Sample.uuid1 retryOps initial =
    [(JobStore.processing, 0); (JobStore.processing, 75);
     (JobStore.failed, 75); (JobStore.processing, 0)]) as Hreads
    by (vm_compute; reflexivity).
  split; [exact Hreads|]. rewrite Hreads. intros Hmono.
  specialize (Hmono 1%nat 3%nat JobStore.processing 75 JobStore.processing 0).
  cbn in Hmono. specialize (Hmono ltac:(lia) eq_refl eq_refl eq_refl eq_refl).
  lia.
Qed.

(** C2, as amended: in every step the process can take from a state it can
    reach (a request, a wake-up of a suspended call, the start or the retry
    of an attempt, a clean-up, a pause or a shutdown), a job that is queued
    or processing before the step is still stored after it and has not
    lost progress. Progress goes down only where the start of a retried
    attempt sets a job that was marked failed back to processing at 0. *)
Theorem progress_never_drops_while_live (s3 : S3Service) optConcurrency
    optMaxRetries sys op sys' id job :
  reachable s3 optConcurrency optMaxRetries sys →
  step s3 op sys = Some sys' →
  JobStore.jobs (jobStore sys) !! id = Some job →
  JobStore.status job = JobStore.queued ∨ JobStore.status job = JobStore.processing →
  ∃ job',
    JobStore.jobs (jobStore sys') !! id = Some job' ∧
    JobStore.progress job ≤ JobStore.progress job'.
Proof.
  intros Hreach Hstep Hjob Hstatus.
  pose proof (progressInv_reachable s3 _ _ sys Hreach) as Hinv.
  destruct (progressInv_step s3 op sys sys' Hinv Hstep) as [_ Hdrops].
  apply (Hdrops id job Hjob). unfold live.
  by destruct Hstatus as [Hs|Hs]; rewrite Hs.
Qed.

(** The amended C2 at the first batch of the run above: from 0 to 75. *)
Lemma progress_never_drops_while_live_witness :
  ∃ job',
    JobStore.jobs
      (jobStore
         (default initial
            (run Sample.s3
               [InitializeWorker 1000;
                PostAsync 2000 Sample.uuid1 [10001; 10002; 10003; 30000];
                Wake 3000 0] initial)))
      !! Sample.uuid1 = Some job' ∧
    0 ≤ JobStore.progress job'.
Proof.
  refine (progress_never_drops_while_live Sample.s3 (Some 5) (Some 3)
    (queueDownloadJob 2000 Sample.uuid1 [10001; 10002; 10003; 30000]
       (initializeWorker 1000 initial))
    (Wake 3000 0) _ Sample.uuid1
    (JobStore.mkJob Sample.uuid1 [10001; 10002; 10003; 30000] JobStore.processing 0
       None None None 2000 2000 (Some 2000) None) _ _ _ _).
  - eapply reachable_step
      with (op := PostAsync 2000 Sample.uuid1 [10001; 10002; 10003; 30000]).
    + eapply reachable_step with (op := InitializeWorker 1000).
      * apply reachable_boot.
      * reflexivity.
    + reflexivity.
  - vm_compute. reflexivity.
  - vm_compute. reflexivity.
  - right. reflexivity.
Defined.

(** One wake-up of the worker, in every state the process can reach, for
    every call in flight and the job of its entry. The loop takes the batches
    [fileIds.slice(i, i + 3)] for [i = 0, 3, 6, ...], which make up the
    list in order; when the uploads of the batch at [i] have succeeded the
    worker stores [Math.round((filesCompleted / totalFiles) * 100)] as the
    progress of the job, [filesCompleted] being the [min (i + 3) totalFiles]
    files of the batches so far, and goes on to the next batch or, after the
    last one, to the URL; and when the URL has been issued it stores the
    job as [ready] with progress 100 and that URL. *)
Lemma wake_after_batch_or_url (s3 : S3Service) optConcurrency
    optMaxRetries sys now (k : nat) e :
  reachable s3 optConcurrency optMaxRetries sys →
  let files := fileIds e in
  let total := length files in
  let id := jobId e in
  concat (map (λ j, batchAt (3 * j) files) (seq 0 (batchCount total))) = files ∧
  (∀ i c keys job batchKeys,
     calls (downloadQueue sys) !! k = Some (e, Awaiting (AwaitBatch i c keys)) →
     JobStore.jobs (jobStore sys) !! id = Some job →
     processBatch s3 now (batchAt i files) = Fulfilled batchKeys →
     (∃ j : nat, i = (3 * j)%nat) ∧ c = i ∧ (i < total)%nat ∧
     (c + length (batchAt i files) = (i + 3) `min` total)%nat ∧
     ∃ sys' job',
       step s3 (Wake now k) sys = Some sys' ∧
       JobStore.jobs (jobStore sys') !! id = Some job' ∧
       JobStore.progress job' = progressOf ((i + 3) `min` total) total ∧
       JobStore.status job' = JobStore.status job ∧
       calls (downloadQueue sys') !! k =
         Some (e, Awaiting
                    (if (i + 3 <? total)%nat
                     then AwaitBatch (i + 3) ((i + 3) `min` total) (keys ++ batchKeys)
                     else afterLoop id (keys ++ batchKeys)))) ∧
  (∀ key job url,
     calls (downloadQueue sys) !! k = Some (e, Awaiting (AwaitUrl key)) →
     JobStore.jobs (jobStore sys) !! id = Some job →
     generatePresignedUrl s3 now key = Fulfilled url →
     ∃ sys' job',
       step s3 (Wake now k) sys = Some sys' ∧
       JobStore.jobs (jobStore sys') !! id = Some job' ∧
       JobStore.status job' = JobStore.ready ∧
       JobStore.progress job' = 100 ∧
       JobStore.downloadUrl job' = Some url ∧
       calls (downloadQueue sys') !! k = Some (e, Resolved)).
Proof.
  intros Hreach files total id.
  destruct (progressInv_reachable s3 _ _ sys Hreach) as [_ (_ & _ & Hcalls)].
  split; [|split].
  - apply batches_partition, batchCount_covers.
  - intros i c keys job batchKeys Hk Hjob Hbatch.
    pose proof (Forall_lookup_1 _ _ _ _ Hcalls Hk) as [_ Hcall].
    cbn [fst snd] in Hcall. destruct Hcall as (j & -> & -> & Hlt & _).
    assert ((3 * j + length (batchAt (3 * j) files))%nat
            = ((3 * j + 3) `min` total)%nat) as Hdone
      by (rewrite length_batchAt; unfold total, files; lia).
    split; [by exists j|]. split; [done|]. split; [done|]. split; [done|].
    cbn [step]. unfold wake. rewrite Hk. unfold resume. fold files. rewrite Hbatch.
    eexists _, _. split; [reflexivity|]. cbn [jobStore downloadQueue].
    rewrite updateJob_lookup, decide_True by done. fold id. rewrite Hjob.
    split; [reflexivity|]. fold total. rewrite Hdone.
    split; [done|]. split; [done|].
    cbn [calls set_calls]. rewrite list_lookup_insert_eq by (by eapply lookup_lt_Some).
    unfold loopTest, PARALLEL_FILE_BATCH_SIZE. fold files total id.
    by destruct (3 * j + 3 <? total)%nat.
  - intros key job url Hk Hjob Hurl.
    cbn [step]. unfold wake. rewrite Hk. unfold resume. rewrite Hurl.
    eexists _, _. split; [reflexivity|]. cbn [jobStore downloadQueue].
    rewrite updateJob_lookup, decide_True by done. fold id. rewrite Hjob.
    split; [reflexivity|]. split; [done|]. split; [done|]. split; [done|].
    cbn [calls set_calls]. by rewrite list_lookup_insert_eq by (by eapply lookup_lt_Some).
Qed.

(** The first batch of a job of four files: three of four files done,
    progress 75, and the second batch is next. *)
Lemma wake_after_batch_or_url_example :
  let files := [10001; 10002; 10003; 10004] in
  let sys := queueDownloadJob 2000 Sample.uuid1 files (initializeWorker 1000 initial) in
  ∃ sys' job',
    step Sample.s3Up (Wake 3000 0) sys = Some sys' ∧
    JobStore.jobs (jobStore sys') !! Sample.uuid1 = Some job' ∧
    JobStore.progress job' = 75 ∧
    JobStore.status job' = JobStore.processing ∧
    calls (downloadQueue sys') !! 0%nat =
      Some (mkQueueJob Sample.uuid1 files 2000 1,
            Awaiting (AwaitBatch 3 3
                        ["downloads/file.zip"; "downloads/file.zip";
                         "downloads/file.zip"])).
Proof.
  intros files sys.
  refine (proj2 (proj2 (proj2 (proj2 (proj1 (proj2
    (wake_after_batch_or_url Sample.s3Up (Some 5) (Some 3) sys 3000 0
       (mkQueueJob Sample.uuid1 files 2000 1) _))
    0%nat 0%nat []
    (JobStore.mkJob Sample.uuid1 files JobStore.processing 0 None None None
       2000 2000 (Some 2000) None)
    ["downloads/file.zip"; "downloads/file.zip"; "downloads/file.zip"]
    _ _ _))))).
  - eapply reachable_step with (op := PostAsync 2000 Sample.uuid1 files).
    + eapply reachable_step with (op := InitializeWorker 1000).
      * apply reachable_boot.
      * reflexivity.
    + reflexivity.
  - vm_compute. reflexivity.
  - vm_compute. reflexivity.
  - vm_compute. reflexivity.
Defined.

End ProgressInvariant.

(* ===================================================================== *)
(** ** Retries: the attempts of an entry, in every reachable state *)
(* ===================================================================== *)

Section RetryInvariant.
Import Queue Worker App.

Implicit Types (st : JobStore.JobStore) (e : QueueJob) (id : string).
Implicit Types (evs : list Queue.Emitted).
Implicit Types (waiting : list QueueJob) (running : list (QueueJob * Call)).

(** The number of attempts the queue makes for an entry whose attempts all
    fail, for the retry limit [mr]: the test [job.attempts < this.maxRetries]
    comes after the first attempt. *)
Definition attemptLimit (mr : Z) : Z := Z.max 1 mr.

(** The counter of an entry is the number of calls of the handler for its
    job. *)
Definition countedIn evs e : Prop :=
  Z.of_nat (invocations (jobId e) evs) = attempts e.

(** An entry that waits: new, or with attempts left. *)
Definition waitingAttempts (mr : Z) evs e : Prop :=
  countedIn evs e ∧ (attempts e = 0 ∨ attempts e < mr).

(** The job [id], if the store holds it, is failed with an error message. *)
Definition failedIn st id : Prop :=
  ∀ job, JobStore.jobs st !! id = Some job →
    JobStore.status job = JobStore.failed ∧ is_Some (JobStore.error job).

(** A call in flight: at least one attempt, at most the limit; once the
    handler has rejected, the job is failed (or gone). *)
Definition runningAttempts (mr : Z) evs st (x : QueueJob * Call) : Prop :=
  countedIn evs x.1 ∧ 1 ≤ attempts x.1 ≤ attemptLimit mr ∧
  match x.2 with
  | Rejected _ => failedIn st (jobId x.1)
  | _ => True
  end.

Definition attemptsOk (mr : Z) evs st waiting running : Prop :=
  Forall (waitingAttempts mr evs) waiting ∧
  Forall (runningAttempts mr evs st) running.

Definition attemptsInv (sys : System) : Prop :=
  let q := downloadQueue sys in
  attemptsOk (maxRetries q) (Queue.emitted q) (jobStore sys) (queue q) (calls q).

Lemma invocations_not_logged id evs :
  id ∉ loggedIds evs → invocations id evs = 0%nat.
Proof.
  unfold invocations, loggedIds. induction evs as [|ev evs IH]; [done|].
  cbn [omap list_omap List.filter]. intros Hnot.
  destruct (isInvocation id ev) eqn:Hev.
  - exfalso. apply Hnot. unfold isInvocation in Hev.
    apply andb_true_iff in Hev as [_ Hev]. apply bool_decide_eq_true in Hev.
    rewrite Hev. left.
  - apply IH. intros Hin. apply Hnot.
    destruct (jobId <$> Queue.job ev); [by right|done].
Qed.

Lemma invocations_snoc_other id evs name j err :
  name ≠ "job:processing" →
  invocations id (evs ++ [Queue.mkEmitted name j err]) = invocations id evs.
Proof.
  intros Hne. rewrite invocations_app. unfold invocations at 2. cbn [List.filter].
  rewrite isInvocation_other by done. cbn. lia.
Qed.

Lemma invocations_snoc_started id evs e :
  invocations id (evs ++ [Queue.mkEmitted "job:processing" (Some e) None]) =
    if decide (jobId e = id) then S (invocations id evs) else invocations id evs.
Proof.
  rewrite invocations_app. unfold invocations at 2. cbn [List.filter].
  destruct (decide (jobId e = id)) as [Hid|Hne].
  - rewrite isInvocation_processing by done. cbn. lia.
  - unfold isInvocation. cbn [Queue.event Queue.job fmap option_fmap option_map].
    rewrite (bool_decide_eq_false_2 (Some (jobId e) = Some id)) by congruence.
    rewrite andb_false_r. cbn. lia.
Qed.

Lemma waitingAttempts_moved mr evs evs' e :
  invocations (jobId e) evs' = invocations (jobId e) evs →
  waitingAttempts mr evs e → waitingAttempts mr evs' e.
Proof. unfold waitingAttempts, countedIn. intros ->. done. Qed.

Lemma runningAttempts_moved mr evs evs' st st' x :
  invocations (jobId x.1) evs' = invocations (jobId x.1) evs →
  heldFrom st st' (jobId x.1) →
  runningAttempts mr evs st x → runningAttempts mr evs' st' x.
Proof.
  unfold runningAttempts, countedIn. intros -> Hheld (Hc & Hb & Hf).
  split; [done|]. split; [done|].
  destruct x.2; try done. intros job Hjob. apply Hf. by apply Hheld.
Qed.

(** A change of the log and of the store that leaves the jobs of the
    entries alone keeps their counters in order. *)
Lemma attemptsOk_moved mr evs evs' st st' waiting running :
  (∀ id, id ∈ idsOf waiting running →
     invocations id evs' = invocations id evs ∧ heldFrom st st' id) →
  attemptsOk mr evs st waiting running → attemptsOk mr evs' st' waiting running.
Proof.
  intros Hsame [Hw Hr]. split.
  - rewrite Forall_forall in *. intros e He.
    apply (waitingAttempts_moved mr evs); [|auto].
    apply Hsame. unfold idsOf. rewrite elem_of_app. left.
    apply list_elem_of_fmap. by exists e.
  - rewrite Forall_forall in *. intros x Hx.
    destruct (Hsame (jobId x.1)) as [Hinv Hheld].
    { unfold idsOf. rewrite elem_of_app. right.
      apply list_elem_of_fmap. by exists x. }
    apply (runningAttempts_moved mr evs evs' st); auto.
Qed.

Lemma heldFrom_refl st id : heldFrom st st id.
Proof. by intros job. Qed.

Lemma attemptsOk_del_call mr evs st waiting l1 x l2 :
  attemptsOk mr evs st waiting (l1 ++ x :: l2) →
  attemptsOk mr evs st waiting (l1 ++ l2) ∧ runningAttempts mr evs st x.
Proof.
  intros [Hw Hr]. apply Forall_app in Hr as [Hr1 Hr2].
  apply Forall_cons in Hr2 as [Hx Hr2].
  split; [|done]. split; [done|]. apply Forall_app. by split.
Qed.

Lemma attemptsOk_add_call mr evs st waiting l1 x l2 :
  attemptsOk mr evs st waiting (l1 ++ l2) → runningAttempts mr evs st x →
  attemptsOk mr evs st waiting (l1 ++ x :: l2).
Proof.
  intros [Hw Hr] Hx. split; [done|]. apply Forall_app in Hr as [Hr1 Hr2].
  apply Forall_app. split; [done|]. by apply Forall_cons.
Qed.

Lemma attemptsOk_add_waiting mr evs st waiting e running :
  attemptsOk mr evs st waiting running → waitingAttempts mr evs e →
  attemptsOk mr evs st (waiting ++ [e]) running.
Proof.
  intros [Hw Hr] He. split; [|done]. apply Forall_app. split; [done|].
  by apply Forall_singleton.
Qed.

Lemma attemptsOk_no_waiting mr evs st waiting running :
  attemptsOk mr evs st waiting running → attemptsOk mr evs st [] running.
Proof. intros [Hw Hr]. by split. Qed.

(** A change that leaves all jobs but [id] alone. *)
Lemma attemptsOk_touch mr evs evs' st st' waiting running id :
  id ∉ idsOf waiting running →
  (∀ id', id' ≠ id →
     invocations id' evs' = invocations id' evs ∧ heldFrom st st' id') →
  attemptsOk mr evs st waiting running → attemptsOk mr evs' st' waiting running.
Proof.
  intros Hnotin Hsame. apply attemptsOk_moved. intros id' Hin. apply Hsame.
  by intros ->.
Qed.

(** An event that is not the start of an attempt. *)
Lemma attemptsOk_emit mr evs st waiting running name j err :
  name ≠ "job:processing" →
  attemptsOk mr evs st waiting running →
  attemptsOk mr (evs ++ [Queue.mkEmitted name j err]) st waiting running.
Proof.
  intros Hne. apply attemptsOk_moved. intros id _.
  split; [by apply invocations_snoc_other|apply heldFrom_refl].
Qed.

(** The start of an attempt, for the counters. *)
Lemma start_runningAttempts now mr evs e st :
  waitingAttempts mr evs e →
  let r := processDownloadJob now (bumpAttempts e) st in
  runningAttempts mr
    (evs ++ [Queue.mkEmitted "job:processing" (Some (bumpAttempts e)) None]) r.1
    (bumpAttempts e, r.2).
Proof.
  intros [Hc Hleft]. cbv zeta.
  unfold runningAttempts, countedIn in *. cbn [fst snd jobId attempts bumpAttempts].
  rewrite invocations_snoc_started. cbn [jobId bumpAttempts].
  rewrite decide_True by done. split; [lia|]. split; [unfold attemptLimit; lia|].
  unfold processDownloadJob, JobStore.getJob. cbn [jobId bumpAttempts].
  destruct (JobStore.jobs st !! jobId e) as [job|] eqn:Hjob; cbn [fst snd]; [done|].
  intros job. by rewrite Hjob.
Qed.

(** The start of an attempt touches the job of its entry only. *)
Lemma start_others now e st id' :
  id' ≠ jobId e →
  JobStore.jobs (processDownloadJob now (bumpAttempts e) st).1 !! id' =
    JobStore.jobs st !! id'.
Proof.
  intros Hne. unfold processDownloadJob, JobStore.getJob.
  cbn [jobId bumpAttempts].
  destruct (JobStore.jobs st !! jobId e) as [job|] eqn:Hjob; cbn [fst snd]; [|done].
  by rewrite updateJob_lookup, decide_False.
Qed.

(** The loop of [tryProcess] keeps the entries, moving the ones it starts
    from the waiting list to the calls in flight, and leaves alone what
    belongs to the jobs of other entries. *)
Lemma tryProcessLoop_entries now pending :
  ∀ (q : DownloadQueue) st,
    handler q = Some processDownloadJob →
    let r := tryProcessLoop now pending q st in
    maxRetries r.1 = maxRetries q ∧
    idsOf (queue r.1) (calls r.1) ≡ₚ idsOf pending (calls q) ∧
    (∀ id, id ∉ map jobId pending →
       invocations id (Queue.emitted r.1) = invocations id (Queue.emitted q) ∧
       JobStore.jobs r.2 !! id = JobStore.jobs st !! id).
Proof.
  induction pending as [|e rest IH]; intros q st Hh.
  - unfold tryProcessLoop. cbn. split; [done|]. by split.
  - cbv zeta. rewrite tryProcessLoop_cons.
    destruct (activeJobs q <? concurrency q); [|cbn; split; [done|]; by split].
    unfold processJob. cbn [handler set_queue]. rewrite Hh.
    pose proof (start_others now e st) as Hothers.
    destruct (processDownloadJob now (bumpAttempts e) st) as [st1 c] eqn:Hstart.
    cbn [fst snd] in *.
    match goal with |- context [tryProcessLoop now rest ?q1 st1] =>
      destruct (IH q1 st1) as (Hmr' & Hids' & Hothers') end; [done|].
    cbn [calls set_calls emit set_activeJobs set_queue maxRetries] in Hmr', Hids'.
    split; [done|]. split.
    + rewrite Hids'.
      rewrite <- (app_nil_r [(bumpAttempts e, c)]).
      rewrite (idsOf_call rest (calls q) (bumpAttempts e, c) []), app_nil_r.
      done.
    + intros id Hnotin. cbn [map] in Hnotin.
      apply not_elem_of_cons in Hnotin as [Hne Hnotin].
      destruct (Hothers' id Hnotin) as [Hinv Hjobs].
      split; [|etransitivity; [exact Hjobs|by apply Hothers]].
      etransitivity; [exact Hinv|].
      cbn [Queue.emitted set_calls emit set_activeJobs set_queue].
      rewrite invocations_snoc_started. cbn [jobId bumpAttempts].
      by rewrite decide_False.
Qed.

Lemma tryProcess_entries now (q : DownloadQueue) st :
  handler q = None ∨ handler q = Some processDownloadJob →
  let r := tryProcess now q st in
  maxRetries r.1 = maxRetries q ∧
  idsOf (queue r.1) (calls r.1) ≡ₚ idsOf (queue q) (calls q) ∧
  (∀ id, id ∉ map jobId (queue q) →
     invocations id (Queue.emitted r.1) = invocations id (Queue.emitted q) ∧
     JobStore.jobs r.2 !! id = JobStore.jobs st !! id).
Proof.
  intros Hh. cbv zeta. unfold tryProcess.
  destruct (negb (isRunning q)); cbn [orb]; [split; [done|]; by split|].
  destruct Hh as [Hh|Hh]; rewrite Hh.
  - cbn. split; [done|]. by split.
  - rewrite bool_decide_eq_true_2 by eauto. cbn [negb].
    by apply tryProcessLoop_entries.
Qed.

(** The loop of [tryProcess], for the counters: every entry it starts gets
    one more attempt and one more call of the handler. *)
Lemma tryProcessLoop_attemptsOk now pending :
  ∀ (q : DownloadQueue) st,
    handler q = Some processDownloadJob →
    NoDup (idsOf pending (calls q)) →
    attemptsOk (maxRetries q) (Queue.emitted q) st pending (calls q) →
    let r := tryProcessLoop now pending q st in
    attemptsOk (maxRetries q) (Queue.emitted r.1) r.2 (queue r.1) (calls r.1).
Proof.
  induction pending as [|e rest IH]; intros q st Hh Hnd Hok.
  - unfold tryProcessLoop. by cbn.
  - cbv zeta. rewrite tryProcessLoop_cons.
    destruct (activeJobs q <? concurrency q); [|by cbn].
    unfold processJob. cbn [handler set_queue]. rewrite Hh.
    destruct Hok as [Hw Hr]. apply Forall_cons in Hw as [He Hw].
    pose proof (start_runningAttempts now (maxRetries q) (Queue.emitted q) e st He)
      as Hcall.
    pose proof (start_others now e st) as Hothers.
    destruct (processDownloadJob now (bumpAttempts e) st) as [st1 c] eqn:Hstart.
    cbn [fst snd] in *.
    assert (NoDup (jobId e :: idsOf rest (calls q))) as Hnd1 by done.
    match goal with |- context [tryProcessLoop now rest ?q1 st1] =>
      apply (IH q1 st1) end.
    + done.
    + cbn [calls set_calls emit set_activeJobs set_queue].
      rewrite <- (app_nil_r [(bumpAttempts e, c)]).
      rewrite (idsOf_call rest (calls q) (bumpAttempts e, c) []), app_nil_r.
      done.
    + cbn [calls set_calls emit set_activeJobs set_queue maxRetries Queue.emitted].
      apply NoDup_cons in Hnd1 as [Hnotin _].
      rewrite <- (app_nil_r [(bumpAttempts e, c)]).
      apply attemptsOk_add_call; [|done]. rewrite app_nil_r.
      apply (attemptsOk_touch _ (Queue.emitted q) _ st st1 _ _ (jobId e));
        [done| |by split].
      intros id' Hne. rewrite invocations_snoc_started. cbn [jobId bumpAttempts].
      rewrite decide_False by done. split; [done|].
      intros job. by rewrite Hothers.
Qed.

Lemma tryProcess_attemptsOk now (q : DownloadQueue) st :
  handler q = None ∨ handler q = Some processDownloadJob →
  NoDup (idsOf (queue q) (calls q)) →
  attemptsOk (maxRetries q) (Queue.emitted q) st (queue q) (calls q) →
  let r := tryProcess now q st in
  attemptsOk (maxRetries r.1) (Queue.emitted r.1) r.2 (queue r.1) (calls r.1).
Proof.
  intros Hh Hnd Hok. cbv zeta.
  destruct (tryProcess_entries now q st Hh) as [-> _]. unfold tryProcess.
  destruct (negb (isRunning q)); cbn [orb]; [done|].
  destruct Hh as [Hh|Hh]; rewrite Hh; [done|].
  rewrite bool_decide_eq_true_2 by eauto. cbn [negb].
  by apply tryProcessLoop_attemptsOk.
Qed.

Lemma catchClause_failedIn now id err st :
  failedIn (catchClause now id err st).1 id.
Proof.
  intros job. unfold catchClause. cbn [fst].
  rewrite updateJob_lookup, decide_True by done.
  destruct (JobStore.jobs st !! id) as [job0|]; [|done].
  intros [= <-]. cbn. split; [done|]. by destruct err.
Qed.

(** A handler that rejects when it is resumed went through its [catch]
    clause. *)
Lemma resume_rejected (s3 : S3Service) now e p st err :
  (resume s3 now e p st).2 = Rejected err →
  resume s3 now e p st = catchClause now (jobId e) err st.
Proof.
  unfold resume. destruct p as [i c keys|key].
  - destruct (processBatch s3 now (batchAt i (fileIds e))) as [r|err0]; [done|].
    unfold catchClause. cbn [snd]. by intros [= ->].
  - destruct (generatePresignedUrl s3 now key) as [url|err0]; [done|].
    unfold catchClause. cbn [snd]. by intros [= ->].
Qed.

(** A handler that is resumed touches the job of its entry only. *)
Lemma resume_others (s3 : S3Service) now e p st id' :
  id' ≠ jobId e →
  JobStore.jobs (resume s3 now e p st).1 !! id' = JobStore.jobs st !! id'.
Proof.
  intros Hne. unfold resume, catchClause. destruct p as [i c keys|key].
  - destruct (processBatch s3 now (batchAt i (fileIds e))) as [r|err0];
      cbn [fst]; by rewrite updateJob_lookup, decide_False.
  - destruct (generatePresignedUrl s3 now key) as [url|err0];
      cbn [fst]; by rewrite updateJob_lookup, decide_False.
Qed.

Lemma shutdownLoop_log now startTime timeoutMs (q : DownloadQueue) :
  let r := shutdownLoop now startTime timeoutMs q in
  maxRetries r = maxRetries q ∧
  (Queue.emitted r = Queue.emitted q ∨
   Queue.emitted r =
     Queue.emitted q ++ [Queue.mkEmitted "queue:shutdown" None None]).
Proof.
  cbv zeta. unfold shutdownLoop.
  destruct (0 <? activeJobs q); [destruct (timeoutMs <? now - startTime)|];
    cbn; auto.
Qed.

Lemma attemptsOk_shutdownLoop st now startTime timeoutMs (q : DownloadQueue) :
  attemptsOk (maxRetries q) (Queue.emitted q) st (queue q) (calls q) →
  let r := shutdownLoop now startTime timeoutMs q in
  attemptsOk (maxRetries r) (Queue.emitted r) st (queue r) (calls r).
Proof.
  intros Hok. cbv zeta.
  destruct (shutdownLoop_log now startTime timeoutMs q) as [-> Hlog].
  assert (attemptsOk (maxRetries q)
            (Queue.emitted (shutdownLoop now startTime timeoutMs q)) st
            (queue q) (calls q)) as Hok1.
  { destruct Hlog as [-> | ->]; [done|]. by apply attemptsOk_emit. }
  destruct (shutdownLoop_lists now startTime timeoutMs q) as ([->| ->] & -> & _);
    [by eapply attemptsOk_no_waiting|done].
Qed.

(** Every step of the process keeps the counters of the entries in order. *)
Lemma attemptsInv_step (s3 : S3Service) op sys sys' :
  progressInv sys → attemptsInv sys → step s3 op sys = Some sys' →
  attemptsInv sys'.
Proof.
  destruct sys as [st q]. intros [Hh (Hnd & _ & _)] Hok.
  unfold attemptsInv in *. cbn [jobStore downloadQueue] in Hh, Hnd, Hok.
  cbv zeta in Hok.
  destruct op as [now|now uuid file_ids|now k|now age| |now| |now t|now k];
    cbn [step jobStore downloadQueue].
  - (* initializeWorker *)
    intros [= <-]. cbv zeta. unfold initializeWorker, ofPair, process.
    cbn [jobStore downloadQueue].
    match goal with |- context [tryProcess now ?q0 st] =>
      apply (tryProcess_attemptsOk now q0 st) end;
      [by right|done|done].
  - (* POST /v1/download/async *)
    destruct (fresh uuid (mkSystem st q)) eqn:Hfresh; [|done].
    intros [= <-]. cbv zeta.
    unfold fresh in Hfresh. cbn [jobStore downloadQueue] in Hfresh.
    apply andb_true_iff in Hfresh as [Hfresh Hlog].
    apply andb_true_iff in Hfresh as [Hnew Hnotin].
    apply bool_decide_eq_true in Hnew, Hnotin, Hlog.
    unfold Routes.asyncDownload.
    destruct (Routes.fileIdsSchema file_ids) eqn:Hschema; [|done].
    cbn [snd Routes.submitOne]. unfold queueDownloadJob, ofPair, add.
    cbn [jobStore downloadQueue].
    set (st1 := (JobStore.createJob now (JobStore.mkCreateJobInput uuid file_ids) st).1).
    match goal with |- context [tryProcess now ?q0 st1] =>
      apply (tryProcess_attemptsOk now q0 st1) end.
    + done.
    + cbn [queue calls emit set_queue]. rewrite idsOf_waiting_end.
      by apply NoDup_cons.
    + cbn [queue calls emit set_queue maxRetries Queue.emitted].
      apply attemptsOk_add_waiting.
      * apply (attemptsOk_touch _ (Queue.emitted q) _ st st1 _ _ uuid); [done| |done].
        intros id' Hne. split; [by apply invocations_snoc_other|].
        intros job. subst st1. by rewrite createJob_lookup_any, decide_False.
      * split; [|by left]. unfold countedIn. cbn [jobId attempts].
        rewrite invocations_snoc_other by done.
        by rewrite invocations_not_logged.
  - (* a suspended call is resumed *)
    unfold wake. cbn [jobStore downloadQueue].
    destruct (calls q !! k) as [[e c]|] eqn:Hk; [|done].
    destruct (list_elem_of_split_length _ _ _ Hk) as (l1 & l2 & Hcalls & ->).
    rewrite Hcalls in Hok, Hnd. rewrite idsOf_call in Hnd.
    apply NoDup_cons in Hnd as [Hnotin Hnd].
    destruct (attemptsOk_del_call _ _ _ _ _ _ _ Hok) as [Hrest Hcall].
    destruct c as [p| |err].
    + pose proof (resume_rejected s3 now e p st) as Hrej.
      pose proof (resume_others s3 now e p st) as Hothers.
      destruct (resume s3 now e p st) as [st1 c1]. cbn [fst snd] in Hrej, Hothers.
      intros [= <-]. cbv zeta.
      cbn [jobStore downloadQueue calls queue maxRetries Queue.emitted set_calls].
      rewrite Hcalls, insert_at_middle.
      apply attemptsOk_add_call.
      * apply (attemptsOk_touch _ (Queue.emitted q) _ st st1 _ _ (jobId e));
          [done| |done].
        intros id' Hne. split; [done|]. intros job. by rewrite Hothers.
      * destruct Hcall as (Hc & Hb & _). split; [done|]. split; [done|].
        cbn [fst snd]. destruct c1 as [p1| |err1]; try done.
        injection (Hrej err1 eq_refl) as ->. apply catchClause_failedIn.
    + unfold processJobSettled. rewrite Hk, Hcalls, delete_middle.
      cbn [fmap option_fmap option_map]. intros [= <-]. cbv zeta.
      unfold processJobFinally, ofPair. cbn [jobStore downloadQueue].
      match goal with |- context [tryProcess now ?q0 st] =>
        apply (tryProcess_attemptsOk now q0 st) end;
        [done|done|].
      cbn [queue calls emit set_queue set_calls set_activeJobs maxRetries
           Queue.emitted].
      by apply attemptsOk_emit.
    + unfold processJobSettled. rewrite Hk, Hcalls, delete_middle.
      cbn [fmap option_fmap option_map]. intros [= <-]. cbv zeta.
      unfold processJobFinally, ofPair. cbn [jobStore downloadQueue].
      cbn [maxRetries set_calls].
      destruct (attempts e <? maxRetries q) eqn:Hleft.
      * match goal with |- context [tryProcess now ?q0 st] =>
          apply (tryProcess_attemptsOk now q0 st) end;
          [done| |].
        -- cbn [queue calls emit set_queue set_calls set_activeJobs].
           rewrite idsOf_waiting_end. by apply NoDup_cons.
        -- cbn [queue calls emit set_queue set_calls set_activeJobs maxRetries
                Queue.emitted].
           apply attemptsOk_emit; [done|]. apply attemptsOk_add_waiting; [done|].
           destruct Hcall as (Hc & Hb & _). split; [done|].
           right. by apply Z.ltb_lt.
      * match goal with |- context [tryProcess now ?q0 st] =>
          apply (tryProcess_attemptsOk now q0 st) end;
          [done|done|].
        cbn [queue calls emit set_queue set_calls set_activeJobs maxRetries
             Queue.emitted].
        by apply attemptsOk_emit.
  - (* cleanup *)
    intros [= <-]. cbv zeta. cbn [jobStore downloadQueue].
    change (JobStore.mkJobStore _ _) with (JobStore.cleanup now age st).1.
    apply (attemptsOk_moved _ (Queue.emitted q) _ st); [|done].
    intros id _. split; [done|]. intros job. rewrite cleanup_lookup.
    destruct (JobStore.jobs st !! id) as [j|]; [|done].
    by destruct (JobStore.isOld now _ j).
  - (* pause *)
    intros [= <-]. cbv zeta. cbn. by apply attemptsOk_emit.
  - (* resume *)
    intros [= <-]. cbv zeta.
    unfold ofPair, Queue.resume. cbn [jobStore downloadQueue].
    match goal with |- context [tryProcess now ?q0 st] =>
      apply (tryProcess_attemptsOk now q0 st) end;
      [done|done|].
    cbn [queue calls emit set_isRunning maxRetries Queue.emitted].
    by apply attemptsOk_emit.
  - (* stop *)
    intros [= <-]. cbv zeta. cbn. apply attemptsOk_emit; [done|].
    by eapply attemptsOk_no_waiting.
  - (* shutdown *)
    intros [= <-]. cbv zeta. cbn [jobStore downloadQueue]. unfold shutdown.
    by apply attemptsOk_shutdownLoop.
  - (* a waiting shutdown wakes up *)
    unfold shutdownWake.
    destruct (waiters q !! k) as [[startTime timeoutMs]|]; [|done].
    cbn [fmap option_fmap option_map]. intros [= <-]. cbv zeta.
    cbn [jobStore downloadQueue].
    by apply attemptsOk_shutdownLoop.
Qed.

Lemma attemptsInv_reachable (s3 : S3Service) oc om sys :
  reachable s3 oc om sys → attemptsInv sys.
Proof.
  induction 1 as [|sys op sys' Hreach IH Hstep].
  - by split.
  - eapply attemptsInv_step; [|exact IH|exact Hstep].
    by eapply progressInv_reachable.
Qed.

Lemma entryIds_idsOf (q : DownloadQueue) : entryIds q = idsOf (queue q) (calls q).
Proof. done. Qed.

(** C6, as amended: the queue calls the handler for the entry of a job
    whose attempts all fail exactly [max 1 maxRetries] times, then drops
    the entry. In every state the process can reach, with any number of
    jobs waiting and in flight:
    - the retry limit is the one the queue was built with;
    - a handler that fails at an [await] marks its job [failed] with an
      error message and leaves the progress (and the URL) of the job as
      they were before the failure;
    - for an entry whose handler has rejected, [attempts] is the number of
      calls of the handler for its job so far, between 1 and the limit
      [max 1 maxRetries], and the job, if stored, is failed with an error
      message; the rest of [processJob] keeps the entry for another attempt
      while the attempts are below the limit, and drops it when they have
      reached it: the entry is gone, the handler was called exactly
      [max 1 maxRetries] times, and the job is left as the failure put it;
    - when every call of the storage service fails, a job submitted to the
      idle, initialised process goes through all of this in two wake-ups
      per attempt: [max 1 maxRetries] calls of the handler, no entry left,
      the job [failed] with an error message, no URL, and its progress at
      0, where the start of the last attempt put it. *)
Theorem storage_down_exhausts_attempts (s3 : S3Service) optConcurrency
    optMaxRetries sys :
  reachable s3 optConcurrency optMaxRetries sys →
  let q := downloadQueue sys in
  let limit := attemptLimit (maxRetries q) in
  maxRetries q = default 3 optMaxRetries ∧
  (∀ now k e p sys' err job,
     calls q !! k = Some (e, Awaiting p) →
     step s3 (Wake now k) sys = Some sys' →
     calls (downloadQueue sys') !! k = Some (e, Rejected err) →
     JobStore.jobs (jobStore sys) !! jobId e = Some job →
     ∃ job',
       JobStore.jobs (jobStore sys') !! jobId e = Some job' ∧
       JobStore.status job' = JobStore.failed ∧
       is_Some (JobStore.error job') ∧
       JobStore.progress job' = JobStore.progress job ∧
       JobStore.downloadUrl job' = JobStore.downloadUrl job) ∧
  (∀ now k e err,
     calls q !! k = Some (e, Rejected err) →
     Z.of_nat (invocations (jobId e) (Queue.emitted q)) = attempts e ∧
     1 ≤ attempts e ≤ limit ∧
     failedIn (jobStore sys) (jobId e) ∧
     ∃ sys',
       step s3 (Wake now k) sys = Some sys' ∧
       (attempts e < limit → jobId e ∈ entryIds (downloadQueue sys')) ∧
       (attempts e = limit →
          (jobId e ∉ entryIds (downloadQueue sys')) ∧
          invocations (jobId e) (Queue.emitted (downloadQueue sys'))
            = Z.to_nat limit ∧
          JobStore.jobs (jobStore sys') !! jobId e
            = JobStore.jobs (jobStore sys) !! jobId e)) ∧
  (storageFails s3 → idle sys →
   ∀ now id files nows,
     length nows = (2 * Z.to_nat limit)%nat →
     ∃ sys' job,
       run s3 (wakes nows) (queueDownloadJob now id files sys) = Some sys' ∧
       (id ∉ entryIds (downloadQueue sys')) ∧
       calls (downloadQueue sys') = [] ∧
       invocations id (Queue.emitted (downloadQueue sys')) =
         (invocations id (Queue.emitted q) + Z.to_nat limit)%nat ∧
       JobStore.jobs (jobStore sys') !! id = Some job ∧
       JobStore.status job = JobStore.failed ∧
       is_Some (JobStore.error job) ∧
       JobStore.progress job = 0 ∧
       JobStore.downloadUrl job = None).
Proof.
  intros Hreach q limit.
  pose proof (ceilingInv_reachable s3 _ _ sys Hreach) as (_ & _ & _ & Hmr).
  destruct (progressInv_reachable s3 _ _ sys Hreach) as [Hh (Hnd & _ & _)].
  destruct (attemptsInv_reachable s3 _ _ sys Hreach) as [_ Hcalls].
  fold q in Hmr, Hh, Hnd, Hcalls.
  split; [exact Hmr|]. split; [|split].
  - intros now k e p sys' err job Hk. cbn [step]. unfold wake. fold q. rewrite Hk.
    pose proof (resume_rejected s3 now e p (jobStore sys) err) as Hrej.
    destruct (resume s3 now e p (jobStore sys)) as [st1 c1]. cbn [fst snd] in Hrej.
    intros [= <-]. cbn [jobStore downloadQueue calls set_calls].
    rewrite list_lookup_insert_eq by (by eapply lookup_lt_Some).
    intros [= ->] Hjob. injection (Hrej eq_refl) as ->.
    destruct (catchClause_job now (jobId e) err (jobStore sys) job Hjob)
      as (_ & job' & ? & ? & ? & ? & ?).
    by exists job'.
  - intros now k e err Hk.
    pose proof (Forall_lookup_1 _ _ _ _ Hcalls Hk) as (Hc & Hb & Hf).
    cbn [fst snd] in Hc, Hb, Hf. fold limit in Hb.
    split; [exact Hc|]. split; [exact Hb|]. split; [exact Hf|].
    destruct (list_elem_of_split_length _ _ _ Hk) as (l1 & l2 & Hcs & ->).
    rewrite Hcs, idsOf_call in Hnd. apply NoDup_cons in Hnd as [Hnotin _].
    cbn [fst] in Hnotin.
    cbn [step]. unfold wake. fold q. rewrite Hk.
    unfold processJobSettled. rewrite Hk, Hcs, delete_middle.
    cbn [fmap option_fmap option_map].
    eexists. split; [reflexivity|].
    unfold processJobFinally, ofPair. cbn [jobStore downloadQueue].
    cbn [maxRetries set_calls].
    destruct (attempts e <? maxRetries q) eqn:Hleft.
    + apply Z.ltb_lt in Hleft.
      split; [|unfold limit, attemptLimit; lia]. intros _.
      match goal with |- context [tryProcess now ?q0 ?st] =>
        destruct (tryProcess_entries now q0 st) as (_ & Hids & _) end; [done|].
      rewrite entryIds_idsOf, Hids.
      cbn [queue calls emit set_queue set_calls set_activeJobs].
      rewrite idsOf_waiting_end. left.
    + apply Z.ltb_ge in Hleft.
      assert (attempts e = limit) as Hlimit by (unfold limit, attemptLimit in *; lia).
      split; [lia|]. intros _.
      match goal with |- context [tryProcess now ?q0 ?st] =>
        destruct (tryProcess_entries now q0 st) as (_ & Hids & Hothers) end; [done|].
      cbn [queue calls emit set_queue set_calls set_activeJobs Queue.emitted]
        in Hids, Hothers.
      assert (jobId e ∉ map jobId (queue q)) as Hnotq.
      { intros Hin. apply Hnotin. unfold idsOf. rewrite elem_of_app. by left. }
      destruct (Hothers (jobId e) Hnotq) as [Hinv Hjobs].
      split; [by rewrite entryIds_idsOf, Hids|]. split; [|exact Hjobs].
      rewrite Hinv, invocations_snoc_other by done.
      unfold countedIn in Hc. lia.
  - intros Hdown Hidle now id files nows Hlen.
    destruct (storage_down_solo_run s3 sys now id files nows Hdown Hidle Hlen)
      as (sys' & job & Hrun & Hq & Hcs & _ & Hinv & Hjob & ? & ? & ? & ?).
    exists sys', job. split; [exact Hrun|].
    split; [unfold entryIds; rewrite Hq, Hcs; apply not_elem_of_nil|].
    split; [done|]. split; [exact Hinv|]. done.
Qed.

(** The amended C6 at the queue of the worker module (three attempts). *)
Lemma storage_down_exhausts_attempts_witness :
  ∃ sys' job,
    run Sample.s3Down (wakes [3000; 4000; 5000; 6000; 7000; 8000])
      (queueDownloadJob 2000 Sample.uuid1 [10001; 10002]
         (initializeWorker 1000 initial)) = Some sys' ∧
    (Sample.uuid1 ∉ entryIds (downloadQueue sys')) ∧
    calls (downloadQueue sys') = [] ∧
    invocations Sample.uuid1 (Queue.emitted (downloadQueue sys')) = 3%nat ∧
    JobStore.jobs (jobStore sys') !! Sample.uuid1 = Some job ∧
    JobStore.status job = JobStore.failed ∧
    is_Some (JobStore.error job) ∧
    JobStore.progress job = 0 ∧
    JobStore.downloadUrl job = None.
Proof.
  refine (proj2 (proj2 (proj2
    (storage_down_exhausts_attempts Sample.s3Down (Some 5) (Some 3)
       (initializeWorker 1000 initial) _))) _ _
    2000 Sample.uuid1 [10001; 10002]
    [3000; 4000; 5000; 6000; 7000; 8000] _).
  - eapply reachable_step with (op := InitializeWorker 1000).
    + apply reachable_boot.
    + reflexivity.
  - split; intros; eexists; reflexivity.
  - unfold idle. cbn. repeat split; try reflexivity; lia.
  - reflexivity.
Defined.

End RetryInvariant.

(* ===================================================================== *)
(** ** The job store as a map: creation, deletion, statistics *)
(* ===================================================================== *)

Section JobStoreMore.
Import JobStore.

Implicit Types (st : JobStore) (job : Job) (id : string) (u : UpdateJobInput).

(** The number of stored jobs with the status [s]. *)
Definition countStatus (s : JobStatus) st : nat :=
  length (List.filter (λ j, bool_decide (status j = s)) (getAllJobs st)).

Lemma filter_status_length (l : list Job) :
  length l =
    (length (List.filter (λ j, bool_decide (status j = queued)) l)
     + length (List.filter (λ j, bool_decide (status j = processing)) l)
     + length (List.filter (λ j, bool_decide (status j = ready)) l)
     + length (List.filter (λ j, bool_decide (status j = failed)) l))%nat.
Proof.
  induction l as [|j l IH]; [done|]. cbn [List.filter length].
  repeat case_bool_decide; cbn [length]; destruct (status j); try congruence; lia.
Qed.

Lemma getAllJobs_length st : length (getAllJobs st) = size (jobs st).
Proof. unfold getAllJobs. by rewrite length_fmap, length_map_to_list. Qed.

(** X3: the total of [getStats] is [getJobCount] and is the sum of the
    four counts; each count is the length of [getJobsByStatus] for its
    status ([getQueuedJobs] for [queued]); and [getJobsByStatus s] holds
    exactly the stored jobs of status [s]. *)
Theorem getStats_partition st :
  let s := getStats st in
  total s = getJobCount st ∧
  total s = (stats_queued s + stats_processing s + stats_ready s + stats_failed s)%nat ∧
  stats_queued s = length (getQueuedJobs st) ∧
  stats_processing s = length (getJobsByStatus processing st) ∧
  stats_ready s = length (getJobsByStatus ready st) ∧
  stats_failed s = length (getJobsByStatus failed st) ∧
  (∀ s0 job, job ∈ getJobsByStatus s0 st ↔
     status job = s0 ∧ ∃ id, getJob id st = Some job).
Proof.
  cbv zeta. unfold getStats. cbn [total stats_queued stats_processing stats_ready stats_failed].
  split; [apply getAllJobs_length|]. split; [apply filter_status_length|].
  split; [done|]. split; [done|]. split; [done|]. split; [done|].
  intros s0 job. unfold getJobsByStatus, getAllJobs, getJob.
  rewrite list_elem_of_In, filter_In, <- list_elem_of_In, bool_decide_eq_true.
  rewrite list_elem_of_fmap. split.
  - intros [([id j] & -> & Hin) Hs]. split; [done|]. exists id.
    by apply elem_of_map_to_list in Hin.
  - intros [Hs [id Hid]]. split; [|done]. exists (id, job). split; [done|].
    by apply elem_of_map_to_list.
Qed.

(** What a job counts for under the status [s]. *)
Definition tally (s : JobStatus) job : nat :=
  if bool_decide (status job = s) then 1%nat else 0%nat.

Lemma filter_length_Permutation {A} (f : A → bool) (l1 l2 : list A) :
  l1 ≡ₚ l2 → length (List.filter f l1) = length (List.filter f l2).
Proof.
  induction 1 as [|x l1 l2 _ IH|x y l|l1 l2 l3 _ IH1 _ IH2]; cbn [List.filter].
  - done.
  - destruct (f x); cbn; lia.
  - destruct (f x), (f y); cbn; lia.
  - lia.
Qed.

Lemma countStatus_insert_fresh s (m : gmap string Job) evs id job :
  m !! id = None →
  countStatus s (mkJobStore (<[id := job]> m) evs) =
    (countStatus s (mkJobStore m evs) + tally s job)%nat.
Proof.
  intros Hid. unfold countStatus, getAllJobs, tally. cbn [jobs].
  rewrite (filter_length_Permutation _ _ (job :: (map_to_list m).*2)).
  - cbn [List.filter]. destruct (bool_decide (status job = s)); cbn; lia.
  - by rewrite (map_to_list_insert m id job Hid).
Qed.

Lemma countStatus_delete s (m : gmap string Job) evs id job :
  m !! id = Some job →
  countStatus s (mkJobStore m evs) =
    (countStatus s (mkJobStore (delete id m) evs) + tally s job)%nat.
Proof.
  intros Hid.
  rewrite <- (countStatus_insert_fresh s (delete id m) evs id job)
    by apply lookup_delete_eq.
  by rewrite insert_delete_id.
Qed.

Lemma countStatus_insert s (m : gmap string Job) evs id job :
  (countStatus s (mkJobStore (<[id := job]> m) evs)
   + from_option (tally s) 0%nat (m !! id))%nat =
  (countStatus s (mkJobStore m evs) + tally s job)%nat.
Proof.
  destruct (m !! id) as [old|] eqn:Hid; cbn [from_option].
  - rewrite (countStatus_delete s m evs id old Hid).
    rewrite <- (insert_delete_eq m).
    rewrite countStatus_insert_fresh by apply lookup_delete_eq. lia.
  - rewrite countStatus_insert_fresh by done. lia.
Qed.

Lemma countStatus_log s (m : gmap string Job) evs evs' :
  countStatus s (mkJobStore m evs) = countStatus s (mkJobStore m evs').
Proof. done. Qed.

(** X1: [createJob] returns, and stores under the given id, a job that is
    [queued] at progress 0 with no URL, key, error or processing times and
    with both dates at the time of the call. [getJob] of that id then
    returns it and every other id is as before; two events are emitted,
    [created] on the job's channel and [job:created]; the count grows by
    one unless the id was stored already, in which case the old record is
    overwritten. *)
Theorem createJob_stores_queued_job now id files st :
  let r := createJob now (mkCreateJobInput id files) st in
  let job := mkJob id files queued 0 None None None now now None None in
  r.2 = job ∧
  getJob id r.1 = Some job ∧
  (∀ id', id' ≠ id → getJob id' r.1 = getJob id' st) ∧
  emittedBy st r.1 =
    [mkEmitted (jobChannel id) (TypedJob "created" job);
     mkEmitted "job:created" (BareJob job)] ∧
  getJobCount r.1 =
    match getJob id st with
    | Some _ => getJobCount st
    | None => S (getJobCount st)
    end.
Proof.
  cbv zeta. unfold createJob, getJob, getJobCount, emit.
  cbn [fst snd jobs emitted input_jobId input_fileIds].
  split; [done|]. split; [apply lookup_insert_eq|].
  split; [intros id' Hne; by apply lookup_insert_ne|]. split.
  - unfold emittedBy. cbn [emitted]. rewrite <- app_assoc.
    by rewrite drop_app_length.
  - rewrite map_size_insert. by destruct (jobs st !! id).
Qed.

(** X2: [deleteJob] answers [true] exactly when the id was stored.
    Afterwards the id is absent and every other id is as before, no event
    is emitted, the count has dropped by one exactly when the answer is
    [true], and deleting the id again answers [false] and changes
    nothing. *)
Theorem deleteJob_removes_one id st :
  let r := deleteJob id st in
  (r.2 = true ↔ is_Some (getJob id st)) ∧
  getJob id r.1 = None ∧
  (∀ id', id' ≠ id → getJob id' r.1 = getJob id' st) ∧
  emitted r.1 = emitted st ∧
  getJobCount st = (getJobCount r.1 + (if r.2 then 1 else 0))%nat ∧
  deleteJob id r.1 = (r.1, false).
Proof.
  cbv zeta. unfold deleteJob, getJob, getJobCount. cbn [fst snd jobs emitted].
  split; [apply bool_decide_eq_true|]. split; [apply lookup_delete_eq|].
  split; [intros id' Hne; by apply lookup_delete_ne|]. split; [done|]. split.
  - rewrite map_size_delete.
    destruct (jobs st !! id) as [job|] eqn:Hid.
    + rewrite bool_decide_eq_true_2 by eauto.
      assert (size (jobs st) ≠ 0%nat); [|cbn; lia].
      intros Hz. apply map_size_empty_inv in Hz. rewrite Hz in Hid.
      by rewrite lookup_empty in Hid.
    + rewrite bool_decide_eq_false_2 by (by intros [? ?]). cbn. lia.
  - rewrite lookup_delete_eq, delete_delete_eq.
    by rewrite bool_decide_eq_false_2 by (by intros [? ?]).
Qed.

(** X4: the counts of [getStats] are the numbers of stored jobs by
    status, and they follow the operations of the store: [createJob] adds
    one to [queued] and takes away what a record it overwrites counted
    for; [updateJob] of a stored job keeps the total and moves the job's
    unit from its old status to its new one; [deleteJob] takes away what
    the deleted record counted for. *)
Theorem getStats_follows_store s now id st :
  getStats st =
    mkStats (getJobCount st) (countStatus queued st) (countStatus processing st)
      (countStatus ready st) (countStatus failed st) ∧
  (∀ files,
     let st' := (createJob now (mkCreateJobInput id files) st).1 in
     (countStatus s st' + from_option (tally s) 0%nat (getJob id st))%nat =
       (countStatus s st + (if bool_decide (s = queued) then 1 else 0))%nat) ∧
  (∀ u job, getJob id st = Some job →
     let st' := (updateJob now id u st).1 in
     getJobCount st' = getJobCount st ∧
     (countStatus s st' + tally s job)%nat =
       (countStatus s st + tally s (applyUpdates now job u))%nat) ∧
  (let st' := (deleteJob id st).1 in
   (countStatus s st' + from_option (tally s) 0%nat (getJob id st))%nat =
     countStatus s st).
Proof.
  split; [|split; [|split]].
  - unfold getStats. cbn. f_equal. apply getAllJobs_length.
  - intros files. cbv zeta. unfold createJob, getJob, emit.
    cbn [fst jobs emitted input_jobId input_fileIds].
    destruct st as [m evs]. cbn [jobs emitted].
    rewrite (countStatus_log s _ _ evs), countStatus_insert.
    unfold tally. cbn [status].
    by rewrite (bool_decide_ext (queued = s) (s = queued)).
  - intros u job Hjob. cbv zeta. unfold getJob in Hjob.
    destruct (updateJob_present now id u st job Hjob) as [_ Hjobs].
    split.
    + unfold getJobCount. rewrite Hjobs. apply map_size_insert_Some. eauto.
    + destruct (updateJob now id u st).1 as [m' evs'] eqn:Hst'.
      cbn [jobs] in Hjobs. subst m'. destruct st as [m evs]. cbn [jobs] in *.
      rewrite (countStatus_log s _ _ evs).
      pose proof (countStatus_insert s m evs id (applyUpdates now job u)) as H.
      rewrite Hjob in H. exact H.
  - cbv zeta. unfold deleteJob, getJob. cbn [fst]. destruct st as [m evs].
    cbn [jobs emitted].
    destruct (m !! id) as [job|] eqn:Hid; cbn [from_option].
    + by rewrite (countStatus_delete s m evs id job Hid).
    + rewrite delete_id by done. lia.
Qed.

(** X5: a second [cleanup] at the same time with the same age removes
    nothing and leaves the store as the first one left it. *)
Theorem cleanup_idempotent now maxAgeMs st :
  cleanup now maxAgeMs (cleanup now maxAgeMs st).1 = ((cleanup now maxAgeMs st).1, O).
Proof.
  set (st1 := (cleanup now maxAgeMs st).1).
  assert (jobs (cleanup now maxAgeMs st1).1 = jobs st1) as Hjobs.
  { rewrite cleanup_jobs. apply map_filter_id. intros id job Hjob.
    subst st1. rewrite cleanup_jobs in Hjob.
    by apply map_lookup_filter_Some in Hjob as [_ ?]. }
  pose proof (cleanup_count now maxAgeMs st1) as Hcount. rewrite Hjobs in Hcount.
  destruct (cleanup now maxAgeMs st1) as [st2 n] eqn:Hc. cbn [fst snd] in *.
  assert (n = O) as -> by lia. f_equal.
  assert (emitted st2 = emitted st1) as Hlog.
  { change st2 with (st2, O).1. rewrite <- Hc. done. }
  destruct st2, st1. cbn in *. congruence.
Qed.

(** The public operations of the store. *)
Inductive StoreOp : Type :=
  | CreateJob (now : Z) (input : CreateJobInput)
  | UpdateJob (now : Z) (id : string) (u : UpdateJobInput)
  | DeleteJob (id : string)
  | Clear
  | CleanupOld (now : Z) (maxAgeMs : option Z).

Definition applyOp (op : StoreOp) st : JobStore :=
  match op with
  | CreateJob now input => (createJob now input st).1
  | UpdateJob now id u => (updateJob now id u st).1
  | DeleteJob id => (deleteJob id st).1
  | Clear => clear st
  | CleanupOld now maxAgeMs => (cleanup now maxAgeMs st).1
  end.

(** X6: in a store built from the empty one by any sequence of
    [createJob], [updateJob], [deleteJob], [clear] and [cleanup], a job
    found under an id carries that id as its [jobId], and its files and
    creation date are those of a [createJob] for that id in the
    sequence. *)
Theorem stored_job_has_its_key (ops : list StoreOp) id job :
  getJob id (foldl (λ st op, applyOp op st) empty ops) = Some job →
  jobId job = id ∧
  ∃ now files, CreateJob now (mkCreateJobInput id files) ∈ ops ∧
               fileIds job = files ∧ createdAt job = now.
Proof.
  revert id job. induction ops as [|op ops IH] using rev_ind; intros id job.
  - cbn. unfold getJob. cbn. by rewrite lookup_empty.
  - rewrite foldl_app. cbn [foldl]. set (st := foldl _ empty ops) in *.
    assert (∀ job0, getJob id st = Some job0 →
            jobId job0 = id ∧
            ∃ now files, CreateJob now (mkCreateJobInput id files) ∈ ops ++ [op] ∧
                         fileIds job0 = files ∧ createdAt job0 = now) as IH'.
    { intros job0 H. destruct (IH id job0 H) as (? & now & files & ? & ? & ?).
      split; [done|]. exists now, files. split; [|done].
      apply elem_of_app. by left. }
    unfold getJob in *.
    destruct op as [now [id0 files]|now id0 u|id0| |now age]; cbn [applyOp].
    + unfold createJob, emit.
      cbn [fst jobs emitted input_jobId input_fileIds].
      destruct (decide (id = id0)) as [->|Hne].
      * rewrite lookup_insert_eq. intros [= <-]. split; [done|].
        exists now, files. split; [|done]. apply elem_of_app. right. by left.
      * rewrite lookup_insert_ne by done. apply IH'.
    + rewrite updateJob_lookup.
      destruct (decide (id = id0)) as [->|Hne]; [|apply IH'].
      destruct (jobs st !! id0) as [job0|] eqn:Hjob0; [|done].
      cbn [fmap option_fmap option_map]. intros [= <-].
      destruct (IH' job0 eq_refl) as (? & now1 & files1 & ? & ? & ?).
      split; [done|]. by exists now1, files1.
    + unfold deleteJob. cbn [fst jobs]. intros H. apply IH'.
      by apply lookup_delete_Some in H as [_ ?].
    + unfold clear. cbn [jobs]. by rewrite lookup_empty.
    + rewrite cleanup_lookup. destruct (jobs st !! id) as [job0|]; [|done].
      destruct (isOld now _ job0); [done|]. intros [= <-]. by apply IH'.
Qed.

End JobStoreMore.

(* ===================================================================== *)
(** ** The queue: what its events account for *)
(* ===================================================================== *)

Section QueueAccounting.
Import Queue.
Context {World Pending : Type}.

Local Abbreviation SQ := (SimpleQueue World Pending).
Implicit Types (q : SQ) (w : World) (job : QueueJob) (id : string).
Implicit Types (evs : list Queue.Emitted).

(** The events of the given name that the log holds for the job [id]. *)
Definition isJobEvent (name : string) id (ev : Queue.Emitted) : bool :=
  bool_decide (Queue.event ev = name)
  && bool_decide (jobId <$> Queue.job ev = Some id).

Definition countJobEvent (name : string) id evs : nat :=
  length (List.filter (isJobEvent name id) evs).

(** The calls of [processJob] in flight for the job [id]. *)
Definition inFlight id (cs : list (QueueJob * Call Pending)) : nat :=
  length (List.filter (λ x, bool_decide (jobId x.1 = id)) cs).

(** Every attempt the queue started for a job has ended in a [job:completed],
    a [job:retry] or a [job:failed] event, or is still in flight. *)
Definition accounted q : Prop :=
  ∀ id,
    countJobEvent "job:processing" id (emitted q) =
      (countJobEvent "job:completed" id (emitted q)
       + countJobEvent "job:retry" id (emitted q)
       + countJobEvent "job:failed" id (emitted q)
       + inFlight id (calls q))%nat.

Lemma countJobEvent_snoc name id evs name' j err :
  countJobEvent name id (evs ++ [mkEmitted name' j err]) =
    (countJobEvent name id evs
     + if bool_decide (name' = name) && bool_decide (jobId <$> j = Some id)
       then 1 else 0)%nat.
Proof.
  unfold countJobEvent. rewrite List.filter_app, length_app. cbn [List.filter].
  unfold isJobEvent at 2. cbn [event Queue.job].
  by destruct (_ && _).
Qed.

Lemma inFlight_snoc id cs x :
  inFlight id (cs ++ [x]) =
    (inFlight id cs + if bool_decide (jobId x.1 = id) then 1 else 0)%nat.
Proof.
  unfold inFlight. rewrite List.filter_app, length_app. cbn [List.filter].
  by destruct (bool_decide _).
Qed.

Lemma inFlight_middle id l1 x l2 :
  inFlight id (l1 ++ x :: l2) =
    (inFlight id (l1 ++ l2) + if bool_decide (jobId x.1 = id) then 1 else 0)%nat.
Proof.
  unfold inFlight. rewrite !List.filter_app, !length_app. cbn [List.filter].
  destruct (bool_decide _); cbn [length]; lia.
Qed.

(** Events that carry no job, or another name, count for nothing. *)
Lemma accounted_emit_other q name :
  name ≠ "job:processing" → name ≠ "job:completed" →
  name ≠ "job:retry" → name ≠ "job:failed" →
  ∀ j err, accounted q → accounted (emit name j err q).
Proof.
  intros H1 H2 H3 H4 j err Hq id. specialize (Hq id). unfold emit.
  cbn [emitted calls]. rewrite !countJobEvent_snoc.
  rewrite !(bool_decide_eq_false_2 (name = _)) by done. cbn [andb]. lia.
Qed.

Lemma accounted_processJob now job q w :
  accounted q → accounted (processJob now job q w).1.
Proof.
  intros Hq. unfold processJob. destruct (handler q) as [h|]; [|done].
  destruct (h now (bumpAttempts job) w) as [w1 c]. cbn [fst].
  intros id. specialize (Hq id). cbn [emitted calls set_calls emit set_activeJobs].
  rewrite !countJobEvent_snoc, inFlight_snoc.
  cbn [fst fmap option_fmap option_map jobId bumpAttempts].
  rewrite (bool_decide_eq_true_2 ("job:processing" = "job:processing")) by done.
  rewrite !(bool_decide_eq_false_2 ("job:processing" = _)) by done.
  cbn [andb].
  rewrite (bool_decide_ext (Some (jobId job) = Some id) (jobId job = id))
    by (split; congruence).
  destruct (bool_decide (jobId job = id)); lia.
Qed.

Lemma accounted_set_queue l q : accounted q → accounted (set_queue l q).
Proof. done. Qed.

Lemma accounted_tryProcessLoop now pending :
  ∀ q w, accounted q → accounted (tryProcessLoop now pending q w).1.
Proof.
  induction pending as [|job rest IH]; intros q w Hq.
  - unfold tryProcessLoop. by cbn.
  - unfold tryProcessLoop. fold (@tryProcessLoop World Pending).
    destruct (activeJobs q <? concurrency q); [|by cbn].
    pose proof (accounted_processJob now job (set_queue rest q) w Hq) as H1.
    destruct (processJob now job (set_queue rest q) w) as [q1 w1].
    by apply IH.
Qed.

Lemma accounted_tryProcess now q w :
  accounted q → accounted (tryProcess now q w).1.
Proof.
  intros Hq. unfold tryProcess.
  destruct (negb (isRunning q) || negb (bool_decide (is_Some (handler q))));
    [done|]. by apply accounted_tryProcessLoop.
Qed.

Lemma accounted_processJobSettled now k q w r :
  accounted q → processJobSettled now k q w = Some r → accounted r.1.
Proof.
  intros Hq. unfold processJobSettled, processJobFinally.
  destruct (calls q !! k) as [[job c]|] eqn:Hk; [|done].
  destruct (list_elem_of_split_length _ _ _ Hk) as (l1 & l2 & Hcalls & ->).
  rewrite Hcalls, delete_middle.
  assert (∀ id, inFlight id (calls q) =
            (inFlight id (l1 ++ l2) + if bool_decide (jobId job = id) then 1 else 0)%nat)
    as Hfl by (intros id; rewrite Hcalls; apply inFlight_middle).
  destruct c as [p| |err]; [done| |]; intros [= <-]; apply accounted_tryProcess.
  - intros id. specialize (Hq id). specialize (Hfl id).
    cbn [emitted calls set_calls emit set_activeJobs].
    rewrite !countJobEvent_snoc.
    cbn [fmap option_fmap option_map].
    rewrite (bool_decide_eq_true_2 ("job:completed" = "job:completed")) by done.
    rewrite !(bool_decide_eq_false_2 ("job:completed" = _)) by done.
    cbn [andb].
    rewrite (bool_decide_ext (Some (jobId job) = Some id) (jobId job = id))
      by (split; congruence).
    destruct (bool_decide (jobId job = id)); lia.
  - cbn [maxRetries set_calls].
    destruct (attempts job <? maxRetries q);
      intros id; specialize (Hq id); specialize (Hfl id);
      cbn [emitted calls set_calls set_queue emit set_activeJobs];
      rewrite !countJobEvent_snoc;
      cbn [fmap option_fmap option_map];
      rewrite ?(bool_decide_eq_true_2 ("job:retry" = "job:retry")) by done;
      rewrite ?(bool_decide_eq_true_2 ("job:failed" = "job:failed")) by done;
      rewrite ?(bool_decide_eq_false_2 ("job:retry" = _)) by done;
      rewrite ?(bool_decide_eq_false_2 ("job:failed" = _)) by done;
      cbn [andb];
      rewrite ?(bool_decide_ext (Some (jobId job) = Some id) (jobId job = id))
        by (split; congruence);
      destruct (bool_decide (jobId job = id)); lia.
Qed.

Lemma accounted_shutdownLoop now startTime timeoutMs q :
  accounted q → accounted (shutdownLoop now startTime timeoutMs q).
Proof.
  intros Hq. unfold shutdownLoop, shutdownEnd.
  destruct (0 <? activeJobs q); [destruct (timeoutMs <? now - startTime)|];
    try done; by apply accounted_emit_other.
Qed.

End QueueAccounting.

(* ===================================================================== *)
(** ** The queue: dispatch, pause, stop and shutdown *)
(* ===================================================================== *)

Section QueueDispatch.
Import Queue.
Context {World Pending : Type}.

Local Abbreviation SQ := (SimpleQueue World Pending).
Implicit Types (q : SQ) (w : World) (job : QueueJob) (id : string).

(** The free slots of the queue. *)
Definition room q : nat := Z.to_nat (concurrency q - activeJobs q).

(** The [job:processing] event of a start. *)
Definition startEvent job : Queue.Emitted :=
  mkEmitted "job:processing" (Some (bumpAttempts job)) None.

(** The handler called for the entries of a list, one after the other. *)
Definition runHandler (h : JobHandler World Pending) (now : Z)
    (started : list QueueJob) (w : World) : World :=
  foldl (λ w1 job, (h now (bumpAttempts job) w1).1) w started.

Lemma tryProcessLoop_starts now h pending :
  ∀ q w,
    handler q = Some h →
    let n := Nat.min (length pending) (room q) in
    let r := tryProcessLoop now pending q w in
    queue r.1 = drop n pending ∧
    (calls r.1).*1 = (calls q).*1 ++ map bumpAttempts (take n pending) ∧
    activeJobs r.1 = activeJobs q + Z.of_nat n ∧
    emitted r.1 = emitted q ++ map startEvent (take n pending) ∧
    r.2 = runHandler h now (take n pending) w ∧
    sameSetup q r.1.
Proof.
  induction pending as [|job rest IH]; intros q w Hh.
  - unfold tryProcessLoop. cbn. rewrite !app_nil_r.
    repeat split; try done. lia.
  - cbv zeta. unfold tryProcessLoop. fold (@tryProcessLoop World Pending).
    destruct (activeJobs q <? concurrency q) eqn:Hroom.
    + apply Z.ltb_lt in Hroom.
      unfold processJob. cbn [handler set_queue]. rewrite Hh.
      destruct (h now (bumpAttempts job) w) as [w1 c] eqn:Hcall.
      match goal with |- context [tryProcessLoop now rest ?q1 w1] =>
        destruct (IH q1 w1) as (Hq & Hc & Ha & He & Hw & Hs) end; [done|].
      cbn [calls set_calls emit set_activeJobs set_queue activeJobs emitted] in *.
      assert (room q = S (room (set_calls (calls q ++ [(bumpAttempts job, c)])
                (emit "job:processing" (Some (bumpAttempts job)) None
                   (set_activeJobs (activeJobs q + 1) (set_queue rest q))))))
        as Hr by (unfold room; cbn; lia).
      rewrite Hr. cbn [length]. rewrite <- Nat.succ_min_distr.
      cbn [drop take map]. split; [exact Hq|]. split.
      * rewrite Hc, fmap_app. cbn. by rewrite <- app_assoc.
      * split; [lia|]. split; [by rewrite He, <- app_assoc|].
        split; [unfold runHandler; cbn [foldl]; by rewrite Hcall|].
        destruct Hs as (? & ? & ? & ? & ?). by repeat split.
    + apply Z.ltb_ge in Hroom.
      assert (room q = O) as -> by (unfold room; lia).
      rewrite Nat.min_0_r. cbn. rewrite !app_nil_r.
      repeat split; try done. lia.
Qed.

(** X7: on a running queue with a handler, [tryProcess] starts the
    first [n] waiting entries in their order, [n] being the smaller of the
    number of waiting entries and the number of free slots
    ([concurrency - activeJobs], none when that is negative). They leave
    the waiting list; each gets, with [attempts] one higher, a call in
    flight and a [job:processing] event; [activeJobs] grows by [n]; the
    handler has been called for them one after the other; and afterwards
    nothing waits or no slot is free. *)
Theorem tryProcess_starts_head now h q w :
  isRunning q = true → handler q = Some h →
  let n := Nat.min (length (queue q)) (room q) in
  let r := tryProcess now q w in
  queue r.1 = drop n (queue q) ∧
  (calls r.1).*1 = (calls q).*1 ++ map bumpAttempts (take n (queue q)) ∧
  activeJobs r.1 = activeJobs q + Z.of_nat n ∧
  emitted r.1 = emitted q ++ map startEvent (take n (queue q)) ∧
  r.2 = runHandler h now (take n (queue q)) w ∧
  (queue r.1 = [] ∨ concurrency q ≤ activeJobs r.1).
Proof.
  intros Hrun Hh. cbv zeta. unfold tryProcess. rewrite Hrun, Hh.
  rewrite bool_decide_eq_true_2 by eauto. cbn [negb orb].
  destruct (tryProcessLoop_starts now h (queue q) q w Hh)
    as (Hq & Hc & Ha & He & Hw & _).
  split; [done|]. split; [done|]. split; [done|]. split; [done|]. split; [done|].
  destruct (decide (length (queue q) ≤ room q)%nat) as [Hle|Hgt].
  - left. rewrite Hq, Nat.min_l by done. apply drop_all.
  - right. rewrite Ha, Nat.min_r by lia. unfold room. lia.
Qed.

(** What [add] leaves in the pending list for a submission. *)
Definition newEntry (sub : Z * string * list Z) : QueueJob :=
  mkQueueJob sub.1.2 sub.2 sub.1.1 0.

(** Submissions added one after the other. *)
Definition addAll (subs : list (Z * string * list Z)) (q : SQ) (w : World)
  : SQ * World :=
  foldl (λ r sub, add sub.1.1 sub.1.2 sub.2 r.1 r.2) (q, w) subs.

(** X8: while the queue is not running (never started, paused, stopped
    or shut down) or has no handler, [add] only appends: the submissions
    wait in the order they came, each with [attempts] 0 and a [job:added]
    event, and nothing is started. *)
Theorem add_while_not_dispatching subs q w :
  isRunning q = false ∨ handler q = None →
  let r := addAll subs q w in
  queue r.1 = queue q ++ map newEntry subs ∧
  calls r.1 = calls q ∧ activeJobs r.1 = activeJobs q ∧ r.2 = w ∧
  emitted r.1 =
    emitted q ++ map (λ sub, mkEmitted "job:added" (Some (newEntry sub)) None) subs ∧
  isRunning r.1 = isRunning q ∧ handler r.1 = handler q.
Proof.
  intros Hoff. cbv zeta. unfold addAll.
  induction subs as [|sub subs IH] using rev_ind.
  - cbn. by rewrite !app_nil_r.
  - rewrite foldl_app. cbn [foldl].
    destruct (foldl _ (q, w) subs) as [q1 w1]. cbn [fst snd] in *.
    destruct IH as (Hq & Hc & Ha & Hw & He & Hr & Hh).
    unfold add, tryProcess. cbn [isRunning handler emit set_queue].
    assert (negb (isRunning q1) || negb (bool_decide (is_Some (handler q1))) = true)
      as ->.
    { rewrite Hr, Hh. destruct Hoff as [-> | ->]; [done|].
      rewrite bool_decide_eq_false_2 by (by intros [? ?]). apply orb_true_r. }
    cbn [fst snd queue calls activeJobs emitted isRunning handler emit set_queue].
    rewrite Hq, He, !map_app, <- !app_assoc. by repeat split.
Qed.

(** A handler call that has settled. *)
Definition settled (c : Call Pending) : bool :=
  match c with
  | Awaiting _ => false
  | _ => true
  end.

(** X9: [stop] empties the waiting list and emits [queue:stopped], but
    leaves the calls in flight and [activeJobs] as they are. When such a
    call settles afterwards it is taken off and [activeJobs] drops by one,
    nothing is started, and a rejected call with attempts left puts its
    entry back on the emptied waiting list. *)
Theorem stop_leaves_calls_in_flight now (k : nat) job c q w :
  calls q !! k = Some (job, c) → settled c = true →
  let qs := stop q in
  queue qs = [] ∧ isRunning qs = false ∧
  calls qs = calls q ∧ activeJobs qs = activeJobs q ∧
  emitted qs = emitted q ++ [mkEmitted "queue:stopped" None None] ∧
  ∃ q',
    processJobSettled now k qs w = Some (q', w) ∧
    queue q' =
      match c with
      | Rejected _ => if attempts job <? maxRetries q then [job] else []
      | _ => []
      end ∧
    calls q' = delete k (calls q) ∧
    activeJobs q' = activeJobs q - 1 ∧
    isRunning q' = false.
Proof.
  intros Hk Hc. cbv zeta. unfold stop.
  cbn [queue isRunning calls activeJobs emitted emit set_queue set_isRunning].
  split; [done|]. split; [done|]. split; [done|]. split; [done|]. split; [done|].
  unfold processJobSettled.
  cbn [queue isRunning calls activeJobs emitted emit set_queue set_isRunning
       maxRetries set_calls].
  rewrite Hk. destruct c as [p| |err]; [done| |].
  - unfold processJobFinally, tryProcess.
    cbn [isRunning emit set_activeJobs set_calls set_queue set_isRunning negb orb].
    eexists. split; [reflexivity|]. done.
  - unfold processJobFinally, tryProcess.
    destruct (attempts job <? maxRetries q);
      cbn [isRunning emit set_activeJobs set_calls set_queue set_isRunning negb orb];
      eexists; (split; [reflexivity|]); done.
Qed.

(** X10: [shutdown] with one call in flight waits. When that call is
    rejected with attempts left while [shutdown] waits, its entry goes
    back on the waiting list with a [job:retry] event and is not started;
    the next wake-up of [shutdown], whatever the time, empties the waiting
    list and emits [queue:shutdown]: the entry is dropped without a
    [job:failed] event. *)
Theorem shutdown_drops_retried_entry now timeoutMs now1 now2 (k : nat) job err q w :
  calls q !! k = Some (job, Rejected err) →
  attempts job < maxRetries q → activeJobs q = 1 →
  0 ≤ default 30000 timeoutMs →
  let q1 := shutdown now timeoutMs q in
  let retry := mkEmitted "job:retry" (Some job) (Some err) in
  isRunning q1 = false ∧ queue q1 = queue q ∧ calls q1 = calls q ∧
  emitted q1 = emitted q ∧
  waiters q1 = waiters q ++ [(now, default 30000 timeoutMs)] ∧
  ∃ q2 q3,
    processJobSettled now1 k q1 w = Some (q2, w) ∧
    queue q2 = queue q ++ [job] ∧ calls q2 = delete k (calls q) ∧
    activeJobs q2 = 0 ∧ emitted q2 = emitted q ++ [retry] ∧
    shutdownWake now2 (length (waiters q)) q2 = Some q3 ∧
    queue q3 = [] ∧ calls q3 = delete k (calls q) ∧ waiters q3 = waiters q ∧
    emitted q3 =
      emitted q ++ [retry; mkEmitted "queue:shutdown" None None].
Proof.
  intros Hk Hlt Hactive Ht. cbv zeta. unfold shutdown, shutdownLoop.
  cbn [activeJobs set_isRunning]. rewrite Hactive.
  replace (now - now) with 0 by lia.
  rewrite (proj2 (Z.ltb_ge (default 30000 timeoutMs) 0)) by done.
  change (0 <? 1) with true. cbn match.
  cbn [isRunning queue calls emitted waiters set_waiters set_isRunning].
  split; [done|]. split; [done|]. split; [done|]. split; [done|]. split; [done|].
  unfold processJobSettled.
  cbn [calls maxRetries set_calls set_waiters set_isRunning]. rewrite Hk.
  rewrite (proj2 (Z.ltb_lt _ _) Hlt).
  unfold processJobFinally, tryProcess.
  cbn [isRunning emit set_activeJobs set_calls set_queue set_waiters
       set_isRunning negb orb].
  eexists _, _. split; [reflexivity|].
  cbn [queue calls activeJobs emitted waiters emit set_activeJobs set_calls
       set_queue set_waiters set_isRunning].
  split; [done|]. split; [done|]. split; [lia|]. split; [done|].
  unfold shutdownWake.
  cbn [queue calls activeJobs emitted waiters emit set_activeJobs set_calls
       set_queue set_waiters set_isRunning].
  rewrite list_lookup_middle by done. split; [reflexivity|].
  unfold shutdownLoop, shutdownEnd.
  cbn [queue calls activeJobs emitted waiters emit set_activeJobs set_calls
       set_queue set_waiters set_isRunning].
  rewrite Hactive. change (0 <? 1 - 1) with false. cbn match.
  cbn [queue calls activeJobs emitted waiters emit set_activeJobs set_calls
       set_queue set_waiters set_isRunning].
  split; [done|]. split; [done|].
  split; [by rewrite delete_middle, app_nil_r|].
  by rewrite <- app_assoc.
Qed.

End QueueDispatch.

Section ProcessAccounting.
Import Queue Worker App.

Lemma inFlight_insert {Pending} id (cs : list (QueueJob * Queue.Call Pending)) k e c c' :
  cs !! k = Some (e, c) →
  inFlight id (<[k := (e, c')]> cs) = inFlight id cs.
Proof.
  intros Hk.
  destruct (list_elem_of_split_length _ _ _ Hk) as (l1 & l2 & -> & ->).
  rewrite insert_at_middle. by rewrite !inFlight_middle.
Qed.

Lemma accounted_step (s3 : S3Service) op sys sys' :
  accounted (downloadQueue sys) → step s3 op sys = Some sys' →
  accounted (downloadQueue sys').
Proof.
  destruct sys as [st q]. cbn [downloadQueue]. intros Hq.
  destruct op as [now|now uuid file_ids|now k|now age| |now| |now t|now k];
    cbn [step jobStore downloadQueue].
  - intros [= <-]. unfold initializeWorker, ofPair, process.
    cbn [jobStore downloadQueue]. by apply accounted_tryProcess.
  - destruct (fresh uuid (mkSystem st q)); [|done]. intros [= <-].
    unfold Routes.asyncDownload.
    destruct (Routes.fileIdsSchema file_ids); [|done].
    cbn [snd Routes.submitOne]. unfold queueDownloadJob, ofPair, add.
    cbn [jobStore downloadQueue]. apply accounted_tryProcess.
    by apply accounted_emit_other.
  - unfold wake. cbn [jobStore downloadQueue].
    destruct (calls q !! k) as [[e c]|] eqn:Hk; [|done].
    destruct c as [p| |err].
    + destruct (resume s3 now e p st) as [st1 c1]. intros [= <-].
      cbn [downloadQueue]. intros id. specialize (Hq id).
      cbn [Queue.emitted calls set_calls].
      by rewrite (inFlight_insert id (calls q) k e (Awaiting p) c1 Hk).
    + destruct (processJobSettled now k q st) as [r|] eqn:E; [|done].
      intros [= <-]. by eapply accounted_processJobSettled.
    + destruct (processJobSettled now k q st) as [r|] eqn:E; [|done].
      intros [= <-]. by eapply accounted_processJobSettled.
  - by intros [= <-].
  - intros [= <-]. cbn [downloadQueue]. by apply accounted_emit_other.
  - intros [= <-]. unfold ofPair, Queue.resume. cbn [downloadQueue].
    apply accounted_tryProcess. by apply accounted_emit_other.
  - intros [= <-]. cbn [downloadQueue]. by apply accounted_emit_other.
  - intros [= <-]. cbn [downloadQueue]. unfold shutdown.
    by apply accounted_shutdownLoop.
  - unfold shutdownWake.
    destruct (waiters q !! k) as [[startTime timeoutMs]|]; [|done].
    cbn [fmap option_fmap option_map]. intros [= <-]. cbn [downloadQueue].
    by apply accounted_shutdownLoop.
Qed.

Lemma inFlight_none {Pending} id (cs : list (QueueJob * Queue.Call Pending)) :
  id ∉ map (λ x, jobId x.1) cs → inFlight id cs = O.
Proof.
  unfold inFlight. induction cs as [|x cs IH]; cbn [map List.filter]; [done|].
  intros Hnotin. apply not_elem_of_cons in Hnotin as [Hne Hnotin].
  rewrite bool_decide_eq_false_2 by done. by apply IH.
Qed.

Lemma inFlight_NoDup {Pending} id (cs : list (QueueJob * Queue.Call Pending)) :
  NoDup (map (λ x, jobId x.1) cs) → (inFlight id cs ≤ 1)%nat.
Proof.
  induction cs as [|x cs IH]; cbn [map]; [cbn; lia|].
  intros Hnd. apply NoDup_cons in Hnd as [Hnotin Hnd]. specialize (IH Hnd).
  change (x :: cs) with ([] ++ x :: cs). rewrite inFlight_middle. cbn [app].
  case_bool_decide as Hx; [|lia].
  rewrite inFlight_none; [lia|]. by rewrite <- Hx.
Qed.

(** X11: in every state of the process and for every job id, the
    [job:processing] events of the queue are as many as its
    [job:completed], [job:retry] and [job:failed] events for that id plus
    the calls in flight for it, of which there is at most one. *)
Theorem attempts_accounted (s3 : S3Service) optConcurrency optMaxRetries sys id :
  reachable s3 optConcurrency optMaxRetries sys →
  let evs := Queue.emitted (downloadQueue sys) in
  countJobEvent "job:processing" id evs =
    (countJobEvent "job:completed" id evs + countJobEvent "job:retry" id evs
     + countJobEvent "job:failed" id evs
     + inFlight id (calls (downloadQueue sys)))%nat ∧
  (inFlight id (calls (downloadQueue sys)) ≤ 1)%nat.
Proof.
  intros Hreach. cbv zeta. split.
  - revert id. change (accounted (downloadQueue sys)).
    induction Hreach as [|sys op sys' _ IH Hstep]; [done|].
    by eapply accounted_step.
  - destruct (progressInv_reachable s3 _ _ sys Hreach) as [_ (Hnd & _ & _)].
    apply inFlight_NoDup. unfold idsOf in Hnd.
    by apply NoDup_app in Hnd as (_ & _ & ?).
Qed.

End ProcessAccounting.

(* ===================================================================== *)
(** ** The records of the jobs against the entries of the queue *)
(* ===================================================================== *)

Section RecordInvariant.
Import Queue Worker App.

Implicit Types (st : JobStore.JobStore) (e : QueueJob) (id : string).
Implicit Types (job : JobStore.Job).
Implicit Types (waiting : list QueueJob) (running : list (QueueJob * Call)).

(** A stored record is consistent: it sits under its own id; a queued job
    has not been touched; a processing job has no URL; a ready job has
    progress 100, a URL and a completion time; a failed job has an error
    message, a completion time and no URL. *)
Definition jobOk id job : Prop :=
  JobStore.jobId job = id ∧
  match JobStore.status job with
  | JobStore.queued =>
      JobStore.progress job = 0 ∧ JobStore.downloadUrl job = None ∧
      JobStore.error job = None ∧ JobStore.processingStartedAt job = None ∧
      JobStore.completedAt job = None
  | JobStore.processing =>
      JobStore.downloadUrl job = None ∧ is_Some (JobStore.processingStartedAt job)
  | JobStore.ready =>
      JobStore.progress job = 100 ∧ is_Some (JobStore.downloadUrl job) ∧
      is_Some (JobStore.completedAt job)
  | JobStore.failed =>
      is_Some (JobStore.error job) ∧ JobStore.downloadUrl job = None ∧
      is_Some (JobStore.completedAt job)
  end.

Definition storeOk st : Prop :=
  ∀ id job, JobStore.jobs st !! id = Some job → jobOk id job.

(** The job of an entry, if the store holds it, has the files of the entry
    and is as [P] says. *)
Definition entryJob st e (P : JobStore.Job → Prop) : Prop :=
  ∀ job, JobStore.jobs st !! jobId e = Some job →
    JobStore.fileIds job = fileIds e ∧ P job.

(** An entry that waits: a new one, whose job is queued, or one put back
    after a failed attempt, whose job is failed. *)
Definition waitingRec st e : Prop :=
  0 ≤ attempts e ∧
  entryJob st e (λ job,
    (JobStore.status job = JobStore.queued ∧ attempts e = 0) ∨
    (JobStore.status job = JobStore.failed ∧ 1 ≤ attempts e)).

(** A call in flight: its job is processing while the handler runs, with
    an error message exactly when the attempt is not the first; ready once
    the handler has resolved; failed once it has rejected. *)
Definition callRec st (x : QueueJob * Call) : Prop :=
  1 ≤ attempts x.1 ∧
  entryJob st x.1 (λ job,
    match x.2 with
    | Awaiting _ =>
        JobStore.status job = JobStore.processing ∧
        (attempts x.1 = 1 → JobStore.error job = None) ∧
        (2 ≤ attempts x.1 → is_Some (JobStore.error job))
    | Resolved => JobStore.status job = JobStore.ready
    | Rejected _ => JobStore.status job = JobStore.failed
    end).

Definition recordsOk st waiting running : Prop :=
  storeOk st ∧ Forall (waitingRec st) waiting ∧ Forall (callRec st) running.

Definition recordInv (sys : System) : Prop :=
  let q := downloadQueue sys in
  recordsOk (jobStore sys) (queue q) (calls q).

Lemma entryJob_held st st' e P :
  heldFrom st st' (jobId e) → entryJob st e P → entryJob st' e P.
Proof. intros Hheld HP job Hjob. apply HP. by apply Hheld. Qed.

Lemma callRec_held st st' x :
  heldFrom st st' (jobId x.1) → callRec st x → callRec st' x.
Proof. intros Hheld [H1 HP]. split; [done|]. by eapply entryJob_held. Qed.

(** A change of the store that touches the job [id] only, and leaves it
    consistent, keeps the records of the other entries in order. *)
Lemma recordsOk_touch st st' waiting running id :
  id ∉ idsOf waiting running →
  (∀ id', id' ≠ id → JobStore.jobs st' !! id' = JobStore.jobs st !! id') →
  (∀ job, JobStore.jobs st' !! id = Some job → jobOk id job) →
  recordsOk st waiting running → recordsOk st' waiting running.
Proof.
  intros Hnotin Hothers Hid (Hst & Hw & Hr). split; [|split].
  - intros id' job Hjob. destruct (decide (id' = id)) as [->|Hne]; [by apply Hid|].
    apply Hst. by rewrite <- Hothers.
  - rewrite Forall_forall in *. intros e He.
    destruct (Hw e He) as [Ha HP]. split; [done|].
    apply (entryJob_held st); [|done].
    intros job. rewrite Hothers; [done|]. intros Heq. apply Hnotin.
    unfold idsOf. rewrite elem_of_app. left. rewrite <- Heq.
    apply list_elem_of_fmap. by exists e.
  - rewrite Forall_forall in *. intros x Hx.
    apply (callRec_held st); [|by apply Hr].
    intros job. rewrite Hothers; [done|]. intros Heq. apply Hnotin.
    unfold idsOf. rewrite elem_of_app. right. rewrite <- Heq.
    apply list_elem_of_fmap. by exists x.
Qed.

Lemma recordsOk_del_call st waiting l1 x l2 :
  recordsOk st waiting (l1 ++ x :: l2) →
  recordsOk st waiting (l1 ++ l2) ∧ callRec st x.
Proof.
  intros (Hst & Hw & Hr). apply Forall_app in Hr as [Hr1 Hr2].
  apply Forall_cons in Hr2 as [Hx Hr2].
  split; [|done]. split; [done|]. split; [done|]. apply Forall_app. by split.
Qed.

Lemma recordsOk_add_call st waiting l1 x l2 :
  recordsOk st waiting (l1 ++ l2) → callRec st x →
  recordsOk st waiting (l1 ++ x :: l2).
Proof.
  intros (Hst & Hw & Hr) Hx. split; [done|]. split; [done|].
  apply Forall_app in Hr as [Hr1 Hr2].
  apply Forall_app. split; [done|]. by apply Forall_cons.
Qed.

Lemma recordsOk_add_waiting st waiting e running :
  recordsOk st waiting running → waitingRec st e →
  recordsOk st (waiting ++ [e]) running.
Proof.
  intros (Hst & Hw & Hr) He. split; [done|]. split; [|done].
  apply Forall_app. split; [done|]. by apply Forall_singleton.
Qed.

Lemma recordsOk_no_waiting st waiting running :
  recordsOk st waiting running → recordsOk st [] running.
Proof. intros (Hst & Hw & Hr). split; [done|]. by split. Qed.

(** The start of an attempt, for the records. *)
Lemma start_callRec now e st :
  storeOk st → waitingRec st e →
  let r := processDownloadJob now (bumpAttempts e) st in
  callRec r.1 (bumpAttempts e, r.2) ∧
  (∀ job, JobStore.jobs r.1 !! jobId e = Some job → jobOk (jobId e) job).
Proof.
  intros Hst [Hatt He]. cbv zeta.
  unfold processDownloadJob, JobStore.getJob. cbn [jobId bumpAttempts].
  destruct (JobStore.jobs st !! jobId e) as [job|] eqn:Hjob; cbn [fst snd].
  - destruct (He job Hjob) as [Hfiles Hstatus].
    destruct (Hst _ _ Hjob) as [Hkey Hok].
    split.
    + split; [cbn; lia|]. intros job1. cbn [fst snd jobId bumpAttempts attempts fileIds].
      rewrite updateJob_lookup, decide_True, Hjob by done.
      intros [= <-]. split; [done|]. split; [done|]. cbn.
      destruct Hstatus as [[Hs Ha]|[Hs Ha]]; rewrite Hs in Hok.
      * destruct Hok as (_ & _ & Herr & _). split; [done|]. lia.
      * destruct Hok as (Herr & _). split; [lia|done].
    + intros job1. rewrite updateJob_lookup, decide_True, Hjob by done.
      intros [= <-]. split; [done|]. cbn.
      destruct Hstatus as [[Hs Ha]|[Hs Ha]]; rewrite Hs in Hok.
      * destruct Hok as (_ & Hurl & _). split; [done|]. eauto.
      * destruct Hok as (_ & Hurl & _). split; [done|]. eauto.
  - split.
    + split; [cbn; lia|]. intros job. cbn. by rewrite Hjob.
    + intros job. by rewrite Hjob.
Qed.

Lemma tryProcessLoop_recordsOk now pending :
  ∀ (q : DownloadQueue) st,
    handler q = Some processDownloadJob →
    NoDup (idsOf pending (calls q)) →
    recordsOk st pending (calls q) →
    let r := tryProcessLoop now pending q st in
    recordsOk r.2 (queue r.1) (calls r.1).
Proof.
  induction pending as [|e rest IH]; intros q st Hh Hnd Hok.
  - unfold tryProcessLoop. by cbn.
  - cbv zeta. rewrite tryProcessLoop_cons.
    destruct (activeJobs q <? concurrency q); [|by cbn].
    unfold processJob. cbn [handler set_queue]. rewrite Hh.
    destruct Hok as (Hst & Hw & Hr). apply Forall_cons in Hw as [He Hw].
    destruct (start_callRec now e st Hst He) as [Hcall Hjob].
    pose proof (start_others now e st) as Hothers.
    destruct (processDownloadJob now (bumpAttempts e) st) as [st1 c] eqn:Hstart.
    cbn [fst snd] in *.
    assert (NoDup (jobId e :: idsOf rest (calls q))) as Hnd1 by done.
    match goal with |- context [tryProcessLoop now rest ?q1 st1] =>
      apply (IH q1 st1) end.
    + done.
    + cbn [calls set_calls emit set_activeJobs set_queue].
      rewrite <- (app_nil_r [(bumpAttempts e, c)]).
      rewrite (idsOf_call rest (calls q) (bumpAttempts e, c) []), app_nil_r.
      done.
    + cbn [calls set_calls emit set_activeJobs set_queue].
      apply NoDup_cons in Hnd1 as [Hnotin _].
      rewrite <- (app_nil_r [(bumpAttempts e, c)]).
      apply recordsOk_add_call; [|done]. rewrite app_nil_r.
      apply (recordsOk_touch st st1 _ _ (jobId e)); [done|done|done|].
      by split.
Qed.

Lemma tryProcess_recordsOk now (q : DownloadQueue) st :
  handler q = None ∨ handler q = Some processDownloadJob →
  NoDup (idsOf (queue q) (calls q)) →
  recordsOk st (queue q) (calls q) →
  let r := tryProcess now q st in
  recordsOk r.2 (queue r.1) (calls r.1).
Proof.
  intros Hh Hnd Hok. cbv zeta. unfold tryProcess.
  destruct (negb (isRunning q)); cbn [orb]; [done|].
  destruct Hh as [Hh|Hh]; rewrite Hh; [done|].
  rewrite bool_decide_eq_true_2 by eauto. cbn [negb].
  by apply tryProcessLoop_recordsOk.
Qed.

(** A handler resumed from an [await], for the records. *)
Lemma resume_callRec (s3 : S3Service) now e p st :
  storeOk st → callRec st (e, Awaiting p) →
  let r := resume s3 now e p st in
  callRec r.1 (e, r.2) ∧
  (∀ job, JobStore.jobs r.1 !! jobId e = Some job → jobOk (jobId e) job).
Proof.
  intros Hst [Hatt Hp]. cbn [fst snd] in Hatt, Hp. cbv zeta.
  assert (∀ now err,
    callRec (catchClause now (jobId e) err st).1 (e, (catchClause now (jobId e) err st).2) ∧
    (∀ job, JobStore.jobs (catchClause now (jobId e) err st).1 !! jobId e = Some job →
       jobOk (jobId e) job)) as Hcatch.
  { intros now' err. unfold catchClause. cbn [fst snd]. split.
    - split; [done|]. intros job. cbn [fst snd].
      rewrite updateJob_lookup, decide_True by done.
      destruct (JobStore.jobs st !! jobId e) as [job0|] eqn:Hjob0; [|done].
      intros [= <-]. destruct (Hp job0 Hjob0) as [Hfiles _]. by split.
    - intros job. rewrite updateJob_lookup, decide_True by done.
      destruct (JobStore.jobs st !! jobId e) as [job0|] eqn:Hjob0; [|done].
      intros [= <-]. destruct (Hp job0 Hjob0) as [_ (Hs & _)].
      destruct (Hst _ _ Hjob0) as [Hkey Hok]. rewrite Hs in Hok.
      destruct Hok as [Hurl _]. split; [done|]. cbn.
      split; [by destruct err|]. split; [done|]. eauto. }
  unfold resume. destruct p as [i c keys|key].
  - destruct (processBatch s3 now (batchAt i (fileIds e))) as [batchResults|err];
      [|apply Hcatch].
    cbn [fst snd]. split.
    + split; [done|]. intros job. cbn [fst snd].
      rewrite updateJob_lookup, decide_True by done.
      destruct (JobStore.jobs st !! jobId e) as [job0|] eqn:Hjob0; [|done].
      intros [= <-]. destruct (Hp job0 Hjob0) as [Hfiles HP].
      split; [done|]. exact HP.
    + intros job. rewrite updateJob_lookup, decide_True by done.
      destruct (JobStore.jobs st !! jobId e) as [job0|] eqn:Hjob0; [|done].
      intros [= <-]. destruct (Hp job0 Hjob0) as [_ (Hs & _)].
      destruct (Hst _ _ Hjob0) as [Hkey Hok]. rewrite Hs in Hok.
      split; [done|]. cbn. by rewrite Hs.
  - destruct (generatePresignedUrl s3 now key) as [url|err]; [|apply Hcatch].
    cbn [fst snd]. split.
    + split; [done|]. intros job. cbn [fst snd].
      rewrite updateJob_lookup, decide_True by done.
      destruct (JobStore.jobs st !! jobId e) as [job0|] eqn:Hjob0; [|done].
      intros [= <-]. destruct (Hp job0 Hjob0) as [Hfiles _]. by split.
    + intros job. rewrite updateJob_lookup, decide_True by done.
      destruct (JobStore.jobs st !! jobId e) as [job0|] eqn:Hjob0; [|done].
      intros [= <-]. destruct (Hst _ _ Hjob0) as [Hkey Hok].
      split; [done|]. cbn. split; [done|]. split; eauto.
Qed.

Lemma recordsOk_shutdownLoop st now startTime timeoutMs (q : DownloadQueue) :
  recordsOk st (queue q) (calls q) →
  let r := shutdownLoop now startTime timeoutMs q in
  recordsOk st (queue r) (calls r).
Proof.
  intros Hok. cbv zeta.
  destruct (shutdownLoop_lists now startTime timeoutMs q) as ([->| ->] & -> & _);
    [by eapply recordsOk_no_waiting|done].
Qed.

(** Every step of the process keeps the records consistent. *)
Lemma recordInv_step (s3 : S3Service) op sys sys' :
  progressInv sys → recordInv sys → step s3 op sys = Some sys' →
  recordInv sys'.
Proof.
  destruct sys as [st q]. intros [Hh (Hnd & _ & _)] Hok.
  unfold recordInv in *. cbn [jobStore downloadQueue] in Hh, Hnd, Hok.
  cbv zeta in Hok.
  destruct op as [now|now uuid file_ids|now k|now age| |now| |now t|now k];
    cbn [step jobStore downloadQueue].
  - (* initializeWorker *)
    intros [= <-]. cbv zeta. unfold initializeWorker, ofPair, process.
    cbn [jobStore downloadQueue].
    match goal with |- context [tryProcess now ?q0 st] =>
      apply (tryProcess_recordsOk now q0 st) end; [by right|done|done].
  - (* POST /v1/download/async *)
    destruct (fresh uuid (mkSystem st q)) eqn:Hfresh; [|done].
    intros [= <-]. cbv zeta.
    unfold fresh in Hfresh. cbn [jobStore downloadQueue] in Hfresh.
    apply andb_true_iff in Hfresh as [Hfresh Hlog].
    apply andb_true_iff in Hfresh as [Hnew Hnotin].
    apply bool_decide_eq_true in Hnew, Hnotin, Hlog.
    unfold Routes.asyncDownload.
    destruct (Routes.fileIdsSchema file_ids) eqn:Hschema; [|done].
    cbn [snd Routes.submitOne]. unfold queueDownloadJob, ofPair, add.
    cbn [jobStore downloadQueue].
    set (st1 := (JobStore.createJob now (JobStore.mkCreateJobInput uuid file_ids) st).1).
    match goal with |- context [tryProcess now ?q0 st1] =>
      apply (tryProcess_recordsOk now q0 st1) end.
    + done.
    + cbn [queue calls emit set_queue]. rewrite idsOf_waiting_end.
      by apply NoDup_cons.
    + cbn [queue calls emit set_queue].
      apply recordsOk_add_waiting.
      * apply (recordsOk_touch st st1 _ _ uuid); [done| | |done].
        -- intros id' Hne. subst st1.
           by rewrite createJob_lookup_any, decide_False.
        -- intros job. subst st1. rewrite createJob_lookup_any, decide_True by done.
           by intros [= <-].
      * split; [done|]. intros job. cbn [jobId fileIds attempts]. subst st1.
        rewrite createJob_lookup_any, decide_True by done.
        intros [= <-]. split; [done|]. by left.
  - (* a suspended call is resumed *)
    unfold wake. cbn [jobStore downloadQueue].
    destruct (calls q !! k) as [[e c]|] eqn:Hk; [|done].
    destruct (list_elem_of_split_length _ _ _ Hk) as (l1 & l2 & Hcalls & ->).
    rewrite Hcalls in Hok, Hnd. rewrite idsOf_call in Hnd.
    apply NoDup_cons in Hnd as [Hnotin Hnd].
    destruct (recordsOk_del_call _ _ _ _ _ Hok) as [Hrest Hcall].
    destruct c as [p| |err].
    + destruct (resume_callRec s3 now e p st (proj1 Hok) Hcall) as [Hcall' Hjob'].
      pose proof (resume_others s3 now e p st) as Hothers.
      destruct (resume s3 now e p st) as [st1 c1]. cbn [fst snd] in *.
      intros [= <-]. cbv zeta.
      cbn [jobStore downloadQueue calls queue set_calls].
      rewrite Hcalls, insert_at_middle.
      apply recordsOk_add_call; [|done].
      by apply (recordsOk_touch st st1 _ _ (jobId e)).
    + unfold processJobSettled. rewrite Hk, Hcalls, delete_middle.
      cbn [fmap option_fmap option_map]. intros [= <-]. cbv zeta.
      unfold processJobFinally, ofPair. cbn [jobStore downloadQueue].
      match goal with |- context [tryProcess now ?q0 st] =>
        apply (tryProcess_recordsOk now q0 st) end; done.
    + unfold processJobSettled. rewrite Hk, Hcalls, delete_middle.
      cbn [fmap option_fmap option_map]. intros [= <-]. cbv zeta.
      unfold processJobFinally, ofPair. cbn [jobStore downloadQueue].
      cbn [maxRetries set_calls].
      destruct (attempts e <? maxRetries q) eqn:Hleft.
      * match goal with |- context [tryProcess now ?q0 st] =>
          apply (tryProcess_recordsOk now q0 st) end; [done| |].
        -- cbn [queue calls emit set_queue set_calls set_activeJobs].
           rewrite idsOf_waiting_end. by apply NoDup_cons.
        -- cbn [queue calls emit set_queue set_calls set_activeJobs].
           apply recordsOk_add_waiting; [done|].
           destruct Hcall as [Ha HP]. cbn [fst snd] in Ha, HP.
           split; [lia|]. intros job Hjob. destruct (HP job Hjob) as [Hf Hs].
           split; [done|]. by right.
      * match goal with |- context [tryProcess now ?q0 st] =>
          apply (tryProcess_recordsOk now q0 st) end; done.
  - (* cleanup *)
    intros [= <-]. cbv zeta. cbn [jobStore downloadQueue].
    change (JobStore.mkJobStore _ _) with (JobStore.cleanup now age st).1.
    assert (∀ id, heldFrom st (JobStore.cleanup now age st).1 id) as Hheld.
    { intros id job. rewrite cleanup_lookup.
      destruct (JobStore.jobs st !! id) as [j|]; [|done].
      by destruct (JobStore.isOld now _ j). }
    destruct Hok as (Hst & Hw & Hr). split; [|split].
    + intros id job Hjob. apply Hst. by apply Hheld.
    + rewrite Forall_forall in *. intros e He. destruct (Hw e He) as [Ha HP].
      split; [done|]. apply (entryJob_held st); [apply Hheld|done].
    + rewrite Forall_forall in *. intros x Hx.
      apply (callRec_held st); [apply Hheld|by apply Hr].
  - (* pause *)
    by intros [= <-].
  - (* resume *)
    intros [= <-]. cbv zeta.
    unfold ofPair, Queue.resume. cbn [jobStore downloadQueue].
    match goal with |- context [tryProcess now ?q0 st] =>
      apply (tryProcess_recordsOk now q0 st) end; done.
  - (* stop *)
    intros [= <-]. cbv zeta. cbn. by eapply recordsOk_no_waiting.
  - (* shutdown *)
    intros [= <-]. cbv zeta. cbn [jobStore downloadQueue]. unfold shutdown.
    by apply recordsOk_shutdownLoop.
  - (* a waiting shutdown wakes up *)
    unfold shutdownWake.
    destruct (waiters q !! k) as [[startTime timeoutMs]|]; [|done].
    cbn [fmap option_fmap option_map]. intros [= <-]. cbv zeta.
    cbn [jobStore downloadQueue].
    by apply recordsOk_shutdownLoop.
Qed.

Lemma recordInv_reachable (s3 : S3Service) oc om sys :
  reachable s3 oc om sys → recordInv sys.
Proof.
  induction 1 as [|sys op sys' Hreach IH Hstep].
  - split; [|by split]. intros id job. cbn. by rewrite lookup_empty.
  - eapply recordInv_step; [|exact IH|exact Hstep].
    by eapply progressInv_reachable.
Qed.

(** X12: in every state of the process a stored job has the id it is
    stored under, and it has a download URL exactly when it is [ready]. A
    [ready] job is at progress 100 with [completedAt] set; a [failed] job
    has an error message and [completedAt]; a [processing] job has
    [processingStartedAt]; a [queued] job is at progress 0 with no error
    and neither of the two dates. *)
Theorem job_records_consistent (s3 : S3Service) optConcurrency optMaxRetries
    sys id job :
  reachable s3 optConcurrency optMaxRetries sys →
  JobStore.jobs (jobStore sys) !! id = Some job →
  JobStore.jobId job = id ∧
  (JobStore.status job = JobStore.ready ↔ is_Some (JobStore.downloadUrl job)) ∧
  (JobStore.status job = JobStore.ready →
     JobStore.progress job = 100 ∧ is_Some (JobStore.completedAt job)) ∧
  (JobStore.status job = JobStore.failed →
     is_Some (JobStore.error job) ∧ is_Some (JobStore.completedAt job)) ∧
  (JobStore.status job = JobStore.processing →
     is_Some (JobStore.processingStartedAt job)) ∧
  (JobStore.status job = JobStore.queued →
     JobStore.progress job = 0 ∧ JobStore.error job = None ∧
     JobStore.processingStartedAt job = None ∧ JobStore.completedAt job = None).
Proof.
  intros Hreach Hjob.
  destruct (recordInv_reachable s3 _ _ sys Hreach) as (Hst & _ & _).
  destruct (Hst id job Hjob) as [Hkey Hok]. split; [done|].
  destruct (JobStore.status job) eqn:Hs.
  - destruct Hok as (Hp & Hu & He & Hps & Hc). rewrite Hu.
    split; [split; [done|by intros [? ?]]|]. by repeat split.
  - destruct Hok as (Hu & Hps). rewrite Hu.
    split; [split; [done|by intros [? ?]]|]. by repeat split.
  - destruct Hok as (Hp & Hu & Hc). by repeat split.
  - destruct Hok as (He & Hu & Hc). rewrite Hu.
    split; [split; [done|by intros [? ?]]|]. by repeat split.
Qed.

(** X13: in every state of the process no two entries of the queue,
    waiting or in flight, have the same job id. A waiting entry whose job
    is stored has the job's files, and the job is [queued] with no attempt
    made or [failed] after at least one. An entry in flight whose job is
    stored has the job's files and at least one attempt, and the job is
    [processing] while the handler runs, [ready] once it has resolved and
    [failed] once it has rejected. *)
Theorem entries_match_records (s3 : S3Service) optConcurrency optMaxRetries sys :
  reachable s3 optConcurrency optMaxRetries sys →
  let q := downloadQueue sys in
  NoDup (entryIds q) ∧
  (∀ e job, e ∈ queue q →
     JobStore.jobs (jobStore sys) !! jobId e = Some job →
     JobStore.fileIds job = fileIds e ∧
     (JobStore.status job = JobStore.queued ∧ attempts e = 0 ∨
      JobStore.status job = JobStore.failed ∧ 1 ≤ attempts e)) ∧
  (∀ e c job, (e, c) ∈ calls q →
     JobStore.jobs (jobStore sys) !! jobId e = Some job →
     JobStore.fileIds job = fileIds e ∧ 1 ≤ attempts e ∧
     JobStore.status job =
       match c with
       | Awaiting _ => JobStore.processing
       | Resolved => JobStore.ready
       | Rejected _ => JobStore.failed
       end).
Proof.
  intros Hreach q.
  destruct (progressInv_reachable s3 _ _ sys Hreach) as [_ (Hnd & _ & _)].
  destruct (recordInv_reachable s3 _ _ sys Hreach) as (_ & Hw & Hr).
  fold q in Hnd, Hw, Hr. split; [exact Hnd|]. split.
  - intros e job He Hjob. rewrite Forall_forall in Hw.
    destruct (Hw e He) as [_ HP]. by apply HP.
  - intros e c job Hin Hjob. rewrite Forall_forall in Hr.
    destruct (Hr _ Hin) as [Ha HP]. cbn [fst snd] in Ha, HP.
    destruct (HP job Hjob) as [Hf Hs]. split; [done|]. split; [done|].
    destruct c; tauto.
Qed.

(** X15: when an attempt after the first gets its URL, the job becomes
    [ready] with that URL and still carries the error message of the
    failed attempt before it: no update of the worker clears [error]. *)
Theorem retried_success_keeps_error (s3 : S3Service) optConcurrency optMaxRetries
    sys now (k : nat) e key url job :
  reachable s3 optConcurrency optMaxRetries sys →
  calls (downloadQueue sys) !! k = Some (e, Awaiting (AwaitUrl key)) →
  2 ≤ attempts e →
  JobStore.jobs (jobStore sys) !! jobId e = Some job →
  generatePresignedUrl s3 now key = Fulfilled url →
  ∃ sys' job',
    step s3 (Wake now k) sys = Some sys' ∧
    JobStore.jobs (jobStore sys') !! jobId e = Some job' ∧
    JobStore.status job' = JobStore.ready ∧
    JobStore.downloadUrl job' = Some url ∧
    is_Some (JobStore.error job') ∧
    JobStore.error job' = JobStore.error job.
Proof.
  intros Hreach Hk Hatt Hjob Hurl.
  destruct (recordInv_reachable s3 _ _ sys Hreach) as (_ & _ & Hr).
  pose proof (Forall_lookup_1 _ _ _ _ Hr Hk) as [_ HP]. cbn [fst snd] in HP.
  destruct (HP job Hjob) as (_ & _ & _ & Herr).
  cbn [step]. unfold wake. rewrite Hk. unfold resume. rewrite Hurl.
  eexists _, _. split; [reflexivity|]. cbn [jobStore].
  rewrite updateJob_lookup, decide_True, Hjob by done.
  split; [reflexivity|]. cbn. split; [done|]. split; [done|]. split; [auto|done].
Qed.

(** A call of the worker for the job [id] is suspended at an [await]. *)
Definition beingProcessed running id : Prop :=
  ∃ e p, (e, Awaiting p) ∈ running ∧ jobId e = id.

(** Every job the store shows as processing has such a call. *)
Definition processingOk st running : Prop :=
  ∀ id job, JobStore.jobs st !! id = Some job →
    JobStore.status job = JobStore.processing → beingProcessed running id.

Lemma start_shape now e st :
  let r := processDownloadJob now (bumpAttempts e) st in
  (JobStore.jobs st !! jobId e = None ∧ r.1 = st) ∨ (∃ p, r.2 = Awaiting p).
Proof.
  cbv zeta. unfold processDownloadJob, JobStore.getJob. cbn [jobId bumpAttempts].
  destruct (JobStore.jobs st !! jobId e) as [job|] eqn:Hjob; cbn [fst snd].
  - right. eauto.
  - by left.
Qed.

Lemma tryProcessLoop_processingOk now pending :
  ∀ (q : DownloadQueue) st,
    handler q = Some processDownloadJob →
    processingOk st (calls q) →
    let r := tryProcessLoop now pending q st in
    processingOk r.2 (calls r.1).
Proof.
  induction pending as [|e rest IH]; intros q st Hh Hok.
  - unfold tryProcessLoop. by cbn.
  - cbv zeta. rewrite tryProcessLoop_cons.
    destruct (activeJobs q <? concurrency q); [|by cbn].
    unfold processJob. cbn [handler set_queue]. rewrite Hh.
    pose proof (start_shape now e st) as Hshape.
    pose proof (start_others now e st) as Hothers.
    destruct (processDownloadJob now (bumpAttempts e) st) as [st1 c] eqn:Hstart.
    cbn [fst snd] in *.
    match goal with |- context [tryProcessLoop now rest ?q1 st1] =>
      apply (IH q1 st1) end; [done|].
    cbn [calls set_calls emit set_activeJobs set_queue].
    intros id job Hjob Hs.
    destruct (decide (id = jobId e)) as [->|Hne].
    + destruct Hshape as [[Hnone ->]|[p ->]].
      * by rewrite Hnone in Hjob.
      * exists (bumpAttempts e), p. split; [|done].
        apply elem_of_app. right. by left.
    + rewrite Hothers in Hjob by done.
      destruct (Hok id job Hjob Hs) as (e' & p' & Hin & Hid).
      exists e', p'. split; [|done]. apply elem_of_app. by left.
Qed.

Lemma tryProcess_processingOk now (q : DownloadQueue) st :
  handler q = None ∨ handler q = Some processDownloadJob →
  processingOk st (calls q) →
  let r := tryProcess now q st in
  processingOk r.2 (calls r.1).
Proof.
  intros Hh Hok. cbv zeta. unfold tryProcess.
  destruct (negb (isRunning q)); cbn [orb]; [done|].
  destruct Hh as [Hh|Hh]; rewrite Hh; [done|].
  rewrite bool_decide_eq_true_2 by eauto. cbn [negb].
  by apply tryProcessLoop_processingOk.
Qed.

Lemma processingOk_del_settled st l1 e c l2 :
  (∀ p, c ≠ Awaiting p) →
  processingOk st (l1 ++ (e, c) :: l2) → processingOk st (l1 ++ l2).
Proof.
  intros Hc Hok id job Hjob Hs.
  destruct (Hok id job Hjob Hs) as (e' & p' & Hin & Hid).
  exists e', p'. split; [|done].
  rewrite elem_of_app, elem_of_cons in Hin. rewrite elem_of_app.
  destruct Hin as [?|[Heq|?]]; [by left| |by right].
  injection Heq as -> Heq. by destruct (Hc p').
Qed.

Lemma shutdownLoop_processingOk st now startTime timeoutMs (q : DownloadQueue) :
  processingOk st (calls q) →
  processingOk st (calls (shutdownLoop now startTime timeoutMs q)).
Proof.
  intros Hok.
  by destruct (shutdownLoop_lists now startTime timeoutMs q) as (_ & -> & _).
Qed.

(** Every step of the process keeps a call in flight for every job that is
    processing. *)
Lemma processingOk_step (s3 : S3Service) op sys sys' :
  progressInv sys → recordInv sys' →
  processingOk (jobStore sys) (calls (downloadQueue sys)) →
  step s3 op sys = Some sys' →
  processingOk (jobStore sys') (calls (downloadQueue sys')).
Proof.
  destruct sys as [st q]. intros [Hh (Hnd & _ & _)] Hrec' Hok.
  cbn [jobStore downloadQueue] in Hh, Hnd, Hok.
  destruct op as [now|now uuid file_ids|now k|now age| |now| |now t|now k];
    cbn [step jobStore downloadQueue].
  - (* initializeWorker *)
    intros [= <-]. unfold initializeWorker, ofPair, process.
    cbn [jobStore downloadQueue].
    match goal with |- context [tryProcess now ?q0 st] =>
      apply (tryProcess_processingOk now q0 st) end; [by right|done].
  - (* POST /v1/download/async *)
    destruct (fresh uuid (mkSystem st q)) eqn:Hfresh; [|done].
    intros [= <-].
    unfold Routes.asyncDownload.
    destruct (Routes.fileIdsSchema file_ids) eqn:Hschema; [|done].
    cbn [snd Routes.submitOne]. unfold queueDownloadJob, ofPair, add.
    cbn [jobStore downloadQueue].
    set (st1 := (JobStore.createJob now (JobStore.mkCreateJobInput uuid file_ids) st).1).
    match goal with |- context [tryProcess now ?q0 st1] =>
      apply (tryProcess_processingOk now q0 st1) end; [done|].
    cbn [queue calls emit set_queue].
    intros id job. subst st1. rewrite createJob_lookup_any.
    destruct (decide (id = uuid)) as [->|Hne]; [by intros [= <-]|].
    apply Hok.
  - (* a suspended call is resumed *)
    unfold wake. cbn [jobStore downloadQueue].
    destruct (calls q !! k) as [[e c]|] eqn:Hk; [|done].
    destruct (list_elem_of_split_length _ _ _ Hk) as (l1 & l2 & Hcalls & ->).
    rewrite Hcalls in Hok.
    destruct c as [p| |err].
    + pose proof (resume_others s3 now e p st) as Hothers.
      destruct (resume s3 now e p st) as [st1 c1]. cbn [fst snd] in *.
      intros [= <-]. destruct Hrec' as (_ & _ & Hr').
      cbn [jobStore downloadQueue calls queue set_calls] in *.
      rewrite Hcalls, insert_at_middle in *.
      intros id job Hjob Hs.
      destruct (decide (id = jobId e)) as [->|Hne].
      * apply Forall_app in Hr' as [_ Hr']. apply Forall_cons in Hr' as [[_ HP] _].
        cbn [fst snd] in HP. destruct (HP job Hjob) as [_ Hc1].
        destruct c1 as [p1| |err1]; [|congruence..].
        exists e, p1. split; [|done]. apply elem_of_app. right. by left.
      * rewrite Hothers in Hjob by done.
        destruct (Hok id job Hjob Hs) as (e' & p' & Hin & Hid).
        exists e', p'. split; [|done].
        rewrite elem_of_app, elem_of_cons in Hin. rewrite elem_of_app, elem_of_cons.
        destruct Hin as [?|[Heq|?]]; [by left| |by right; right].
        injection Heq as -> _. done.
    + unfold processJobSettled. rewrite Hk, Hcalls, delete_middle.
      cbn [fmap option_fmap option_map]. intros [= <-].
      unfold processJobFinally, ofPair. cbn [jobStore downloadQueue].
      match goal with |- context [tryProcess now ?q0 st] =>
        apply (tryProcess_processingOk now q0 st) end; [done|].
      cbn [queue calls emit set_queue set_calls set_activeJobs].
      by apply (processingOk_del_settled st l1 e Resolved l2).
    + unfold processJobSettled. rewrite Hk, Hcalls, delete_middle.
      cbn [fmap option_fmap option_map]. intros [= <-].
      unfold processJobFinally, ofPair. cbn [jobStore downloadQueue].
      cbn [maxRetries set_calls].
      match goal with |- context [tryProcess now ?q0 st] =>
        apply (tryProcess_processingOk now q0 st) end;
        [by destruct (attempts e <? maxRetries q)|].
      assert (processingOk st (l1 ++ l2)) as Hok1
        by (by apply (processingOk_del_settled st l1 e (Rejected err) l2)).
      by destruct (attempts e <? maxRetries q).
  - (* cleanup *)
    intros [= <-]. cbn [jobStore downloadQueue].
    change (JobStore.mkJobStore _ _) with (JobStore.cleanup now age st).1.
    intros id job. rewrite cleanup_lookup.
    destruct (JobStore.jobs st !! id) as [j|] eqn:Hj; [|done].
    destruct (JobStore.isOld now _ j); [done|]. intros [= <-]. by apply Hok.
  - (* pause *)
    by intros [= <-].
  - (* resume *)
    intros [= <-].
    unfold ofPair, Queue.resume. cbn [jobStore downloadQueue].
    match goal with |- context [tryProcess now ?q0 st] =>
      apply (tryProcess_processingOk now q0 st) end; done.
  - (* stop *)
    by intros [= <-].
  - (* shutdown *)
    intros [= <-]. cbn [jobStore downloadQueue]. unfold shutdown.
    by apply shutdownLoop_processingOk.
  - (* a waiting shutdown wakes up *)
    unfold shutdownWake.
    destruct (waiters q !! k) as [[startTime timeoutMs]|]; [|done].
    cbn [fmap option_fmap option_map]. intros [= <-].
    cbn [jobStore downloadQueue].
    by apply shutdownLoop_processingOk.
Qed.

Lemma processingOk_reachable (s3 : S3Service) oc om sys :
  reachable s3 oc om sys →
  processingOk (jobStore sys) (calls (downloadQueue sys)).
Proof.
  induction 1 as [|sys op sys' Hreach IH Hstep].
  - intros id job. cbn. by rewrite lookup_empty.
  - eapply processingOk_step; [| |exact IH|exact Hstep].
    + by eapply progressInv_reachable.
    + apply (recordInv_reachable s3 oc om). by eapply reachable_step.
Qed.

(** X14: in every state of the process a stored job is [processing]
    exactly when the queue holds a call in flight for it whose handler has
    not settled. *)
Theorem processing_job_has_call_in_flight (s3 : S3Service) optConcurrency
    optMaxRetries sys id job :
  reachable s3 optConcurrency optMaxRetries sys →
  JobStore.jobs (jobStore sys) !! id = Some job →
  (JobStore.status job = JobStore.processing ↔
   ∃ e p, (e, Awaiting p) ∈ calls (downloadQueue sys) ∧ jobId e = id).
Proof.
  intros Hreach Hjob. split.
  - by apply (processingOk_reachable s3 _ _ sys Hreach).
  - intros (e & p & Hin & <-).
    destruct (recordInv_reachable s3 _ _ sys Hreach) as (_ & _ & Hr).
    rewrite Forall_forall in Hr. destruct (Hr _ Hin) as [_ HP].
    cbn [fst snd] in HP. by destruct (HP job Hjob) as (_ & ? & _).
Qed.

End RecordInvariant.

(* ===================================================================== *)
(** ** The worker: the last key, a whole run, a job without files *)
(* ===================================================================== *)

Section WorkerMore.
Import Queue Worker App.

Implicit Types (st : JobStore.JobStore) (e : QueueJob) (id : string).

Lemma promiseAll_last {A B} (f : A → Settled B) (l : list A) :
  ∀ rs x, promiseAll (map f l) = Fulfilled rs → last l = Some x →
    ∃ r, f x = Fulfilled r ∧ last rs = Some r.
Proof.
  induction l as [|y l IH]; intros rs x; [done|].
  cbn [map promiseAll]. destruct (f y) as [v|err] eqn:Hy; [|done].
  destruct (promiseAll (map f l)) as [vs|err] eqn:Hl; [|done].
  intros [= <-]. destruct l as [|z l].
  - cbn in Hl. injection Hl as <-. cbn. intros [= <-]. by exists v.
  - rewrite last_cons_cons. intros Hlast.
    destruct (IH vs x eq_refl Hlast) as (r & Hr & Hlast').
    exists r. split; [done|].
    destruct vs as [|v' vs]; [done|]. by rewrite last_cons_cons.
Qed.

Lemma batchAt_last i (files : list Z) :
  (i < length files)%nat → (length files ≤ i + 3)%nat →
  last (batchAt i files) = last files.
Proof.
  intros Hlt Hle. unfold batchAt, slice, PARALLEL_FILE_BATCH_SIZE.
  rewrite take_ge by (rewrite length_drop; lia).
  rewrite <- (take_drop i files) at 2. rewrite last_app.
  destruct (last (drop i files)) eqn:Hl; [done|].
  apply last_None in Hl. apply (f_equal length) in Hl.
  rewrite length_drop in Hl. cbn in Hl. lia.
Qed.

(** X16: when the last batch of an attempt has been uploaded, the URL is
    requested for the key that the upload of the job's last file
    returned. *)
Theorem url_requested_for_last_file (s3 : S3Service) optConcurrency optMaxRetries
    sys now (k : nat) e i c keys batchKeys :
  reachable s3 optConcurrency optMaxRetries sys →
  calls (downloadQueue sys) !! k = Some (e, Awaiting (AwaitBatch i c keys)) →
  (length (fileIds e) ≤ i + 3)%nat →
  processBatch s3 now (batchAt i (fileIds e)) = Fulfilled batchKeys →
  ∃ lastFile key size sys',
    last (fileIds e) = Some lastFile ∧
    uploadFile s3 now lastFile = Fulfilled (key, size) ∧
    step s3 (Wake now k) sys = Some sys' ∧
    calls (downloadQueue sys') !! k = Some (e, Awaiting (AwaitUrl key)).
Proof.
  intros Hreach Hk Hle Hbatch.
  destruct (progressInv_reachable s3 _ _ sys Hreach) as [_ (_ & _ & Hcalls)].
  pose proof (Forall_lookup_1 _ _ _ _ Hcalls Hk) as [_ Hcall].
  cbn [fst snd] in Hcall. destruct Hcall as (j & -> & -> & Hlt & _).
  pose proof (batchAt_last (3 * j) (fileIds e) Hlt Hle) as Hlast.
  destruct (last (fileIds e)) as [lastFile|] eqn:Hl.
  2: { apply last_None in Hl. rewrite Hl in Hlt. cbn in Hlt. lia. }
  unfold processBatch in Hbatch.
  destruct (promiseAll (map (processFile s3 now) (batchAt (3 * j) (fileIds e))))
    as [results|err] eqn:Hall; [|done].
  injection Hbatch as <-.
  destruct (promiseAll_last _ _ results lastFile Hall Hlast) as ([key size] & Hup & Hr).
  exists lastFile, key, size.
  cbn [step]. unfold wake. rewrite Hk. unfold resume, processBatch. rewrite Hall.
  eexists. split; [done|]. split; [exact Hup|]. split; [reflexivity|].
  cbn [downloadQueue calls set_calls].
  rewrite list_lookup_insert_eq by (by eapply lookup_lt_Some).
  unfold loopTest, PARALLEL_FILE_BATCH_SIZE.
  assert ((3 * j + 3 <? length (fileIds e))%nat = false) as ->
    by (apply Nat.ltb_ge; lia).
  unfold afterLoop. rewrite last_app, fmap_last, Hr. done.
Qed.

(** X17: a job submitted to an idle, initialised process whose storage
    accepts every upload and issues every URL is done after one wake-up
    per batch, one for the URL and one for the queue. The process is idle
    again; the queue has emitted [job:added], [job:processing] and
    [job:completed] for the entry and nothing else; the job is [ready] at
    progress 100 with a URL. *)
Theorem job_runs_to_completion (s3 : S3Service) sys now id files nows :
  uploadsSucceed s3 → urlsIssued s3 → idle sys →
  length nows = (batchCount (length files) + 2)%nat →
  let entry := mkQueueJob id files now 0 in
  ∃ sys' job url,
    run s3 (wakes nows) (queueDownloadJob now id files sys) = Some sys' ∧
    idle sys' ∧
    Queue.emitted (downloadQueue sys') =
      Queue.emitted (downloadQueue sys) ++
      [Queue.mkEmitted "job:added" (Some entry) None;
       Queue.mkEmitted "job:processing" (Some (bumpAttempts entry)) None;
       Queue.mkEmitted "job:completed" (Some (bumpAttempts entry)) None] ∧
    JobStore.jobs (jobStore sys') !! id = Some job ∧
    JobStore.status job = JobStore.ready ∧
    JobStore.progress job = 100 ∧
    JobStore.downloadUrl job = Some url.
Proof.
  intros Hup Hurl Hidle Hlen entry.
  destruct (idle_explicit sys Hidle) as (store & b & conc & mr & evs & ws & Hconc & ->).
  rewrite queueDownloadJob_idle by done.
  destruct (startUpdates_job now id _ _ (createJob_lookup now id files store))
    as (job0 & Hjob0 & Hst0 & Hpr0 & Hurl0).
  set (queueJob := bumpAttempts (mkQueueJob id files now 0)).
  change (loopTest (mkQueueJob id files now 0) 0 0 [])
    with (loopTest queueJob 0 0 []).
  destruct nows as [|t2 nows _] using rev_ind; [cbn in Hlen; lia|].
  destruct nows as [|t1 nows _] using rev_ind;
    [rewrite length_app in Hlen; cbn in Hlen; lia|].
  rewrite !length_app in Hlen. cbn [length] in Hlen.
  match goal with
  | |- context [mkSystem ?st (runningQueue _ _ 1 _ ?ev _ _)] =>
      destruct (batches_run s3 b conc mr ws ev queueJob Hup nows st job0)
        as (store' & keys & job' & Hrun & _ & Hjob' & Hst' & Hpr' & _)
  end; [exact Hjob0 | exact Hst0 | exact Hpr0
       | change (length nows ≤ batchCount (length files))%nat; lia |].
  rewrite !wakes_app, !run_app, Hrun.
  cbn [mbind option_bind wakes map run step].
  unfold loopTest at 1.
  assert ((3 * length nows <? length (Queue.fileIds queueJob))%nat = false) as ->.
  { apply Nat.ltb_ge. cbn [queueJob bumpAttempts Queue.fileIds].
    assert (¬ (length nows < batchCount (length files))%nat) as Hge by lia.
    rewrite batchCount_lt in Hge. lia. }
  unfold afterLoop. rewrite wake_awaiting. cbn [mbind option_bind].
  match goal with |- context [resume s3 t1 queueJob (AwaitUrl ?key) store'] =>
    destruct (resume_url_fulfilled s3 t1 queueJob key store' Hurl) as [url ->] end.
  cbn [fst snd]. rewrite wake_resolved. cbn [mbind option_bind].
  destruct (readyUpdate_job t1 id url store' job' Hjob')
    as (job2 & Hjob2 & Hst2 & Hpr2 & Hurl2).
  eexists _, job2, url. split; [reflexivity|].
  split; [unfold idle; cbn; by repeat split|].
  cbn [downloadQueue Queue.emitted runningQueue jobStore].
  rewrite <- app_assoc. by repeat split.
Qed.

(** X18: a job without files, which [queueDownloadJob] takes although
    the route refuses it, uploads nothing: the URL is requested for the
    key [downloads/<jobId>.zip], and with it the job is [ready] at
    progress 100, whether or not the storage takes uploads. *)
Theorem empty_job_needs_no_upload (s3 : S3Service) sys now id t url :
  idle sys →
  generatePresignedUrl s3 t ("downloads/" +:+ id +:+ ".zip") = Fulfilled url →
  ∃ sys' job,
    run s3 (wakes [t]) (queueDownloadJob now id [] sys) = Some sys' ∧
    calls (downloadQueue sys') =
      [(bumpAttempts (mkQueueJob id [] now 0), Resolved)] ∧
    JobStore.jobs (jobStore sys') !! id = Some job ∧
    JobStore.status job = JobStore.ready ∧
    JobStore.progress job = 100 ∧
    JobStore.downloadUrl job = Some url.
Proof.
  intros Hidle Hurl.
  destruct (idle_explicit sys Hidle) as (store & b & conc & mr & evs & ws & Hconc & ->).
  rewrite queueDownloadJob_idle by done.
  destruct (startUpdates_job now id _ _ (createJob_lookup now id [] store))
    as (job0 & Hjob0 & Hst0 & Hpr0 & Hurl0).
  cbn [wakes map run step]. unfold loopTest, afterLoop.
  cbn [Queue.fileIds length Nat.ltb Nat.leb last Queue.jobId].
  rewrite wake_awaiting. cbn [mbind option_bind].
  unfold resume. cbn [Queue.jobId bumpAttempts]. rewrite Hurl. cbn [fst snd].
  destruct (readyUpdate_job t id url _ job0 Hjob0)
    as (job2 & Hjob2 & Hst2 & Hpr2 & Hurl2).
  eexists _, job2. split; [reflexivity|]. by repeat split.
Qed.

End WorkerMore.

(* ===================================================================== *)
(** ** The status and statistics routes, and what a submission leaves *)
(* ===================================================================== *)

Module RoutesMore.
Import Routes.

(** The answers of [GET /v1/download/status/{jobId}]: 400 from the request
    validator, 404 with its message and the [x-request-id] header of the
    request, or 200 with the [Cache-Control] header and the body. *)
Inductive StatusResponse : Type :=
  | StatusInvalid400
  | StatusNotFound404 (message : string) (requestId : option string)
  | StatusOk200 (cacheControl : string) (view : JobView) (createdAt updatedAt : Z).

(** The [Cache-Control] header of a status answer. *)
Definition cacheControl (job : JobStore.Job) : string :=
  if JobStore.isTerminal (JobStore.status job)
  then "public, max-age=3600, immutable"
  else "public, max-age=2".

(** [GET /v1/download/status/{jobId}]; [zUuid] is the test of [z.uuid()],
    which the validator applies to the parameter before the handler runs. *)
Definition jobStatus (zUuid : string → bool) (requestId : option string)
    (jobId : string) (store : JobStore.JobStore) : StatusResponse :=
  if negb (zUuid jobId) then StatusInvalid400
  else
    match JobStore.getJob jobId store with
    | None => StatusNotFound404 ("Job " +:+ jobId +:+ " not found") requestId
    | Some job =>
        StatusOk200 (cacheControl job) (viewOf job) (JobStore.createdAt job)
          (JobStore.updatedAt job)
    end.

(** The body of [GET /v1/download/queue/stats]:
    [{ queue: { size, activeJobs }, jobs: stats.jobStats }]. *)
Definition queueStats (sys : Worker.System) : (nat * Z) * JobStore.Stats :=
  let stats := Worker.getQueueStats sys in
  ((stats.1.1, stats.1.2), stats.2).

End RoutesMore.

Section RoutesMoreFacts.
Import Routes RoutesMore.

(** X23: for an id that passes both validators,
    [GET /v1/download/status/{jobId}] and the subscription route agree.
    Both answer 404 for an id that is not stored. For a [ready] or
    [failed] job the status answer may be cached for an hour and the
    subscription answers at once with the same job fields. For a live job
    the status answer is cached for 2 seconds and the subscription opens a
    stream that starts at the same status and progress. *)
Theorem status_and_subscribe_agree (zUuid : string → bool) requestId jobId store :
  zUuid jobId = true → uuidRegexTest jobId = true →
  match jobStatus zUuid requestId jobId store with
  | StatusInvalid400 => False
  | StatusNotFound404 message _ =>
      JobStore.getJob jobId store = None ∧
      message = "Job " +:+ jobId +:+ " not found" ∧
      subscribe jobId store = JobNotFound404 jobId
  | StatusOk200 cc view created updated =>
      ∃ job, JobStore.getJob jobId store = Some job ∧ view = viewOf job ∧
        created = JobStore.createdAt job ∧ updated = JobStore.updatedAt job ∧
        if JobStore.isTerminal (JobStore.status job)
        then cc = "public, max-age=3600, immutable" ∧
             subscribe jobId store = AlreadyCompleted200 view
        else cc = "public, max-age=2" ∧
             subscribe jobId store =
               StreamSSE (view_jobId view) (view_status view) (view_progress view)
  end.
Proof.
  intros Hz Hre. unfold jobStatus, subscribe, cacheControl. rewrite Hz, Hre.
  cbn [negb]. destruct (JobStore.getJob jobId store) as [job|]; [|done].
  exists job. split; [done|]. split; [done|]. split; [done|]. split; [done|].
  by destruct (JobStore.isTerminal (JobStore.status job)).
Qed.

(** X20: [POST /v1/download/async] accepts a body exactly when
    [file_ids] has between 1 and 1000 entries, each between 10000 and
    100000000. It then answers 202 with the new id, [queued], the number
    of files and the status URL, and the process is the one
    [queueDownloadJob] leaves; otherwise it answers 400 and nothing
    changes. *)
Theorem asyncDownload_accepts_iff now uuid file_ids sys :
  let r := asyncDownload now uuid file_ids sys in
  let valid :=
    (1 ≤ length file_ids ≤ 1000)%nat ∧
    ∀ n, n ∈ file_ids → 10000 ≤ n ≤ 100000000 in
  (valid →
     r.1 = Accepted202
             [mkAccepted uuid JobStore.queued (length file_ids)
                ("/v1/download/status/" +:+ uuid)] ∧
     r.2 = Worker.queueDownloadJob now uuid file_ids sys) ∧
  (¬ valid → r = (InvalidInput400, sys)).
Proof.
  cbv zeta. unfold asyncDownload.
  assert (fileIdsSchema file_ids = true ↔
          (1 ≤ length file_ids ≤ 1000)%nat ∧
          ∀ n, n ∈ file_ids → 10000 ≤ n ≤ 100000000) as Hiff.
  { unfold fileIdsSchema, fileIdSchema.
    rewrite !andb_true_iff, forallb_forall, !Nat.leb_le.
    split.
    - intros [[Hall H1] H2]. split; [lia|]. intros n Hn.
      apply list_elem_of_In in Hn. specialize (Hall n Hn).
      apply andb_true_iff in Hall as [Ha Hb].
      apply Z.leb_le in Ha, Hb. lia.
    - intros [Hlen Hall]. split; [split|]; [|lia..]. intros n Hn.
      apply list_elem_of_In in Hn. specialize (Hall n Hn).
      apply andb_true_iff. split; apply Z.leb_le; lia. }
  split.
  - intros Hvalid. rewrite (proj2 Hiff Hvalid). done.
  - intros Hinvalid. destruct (fileIdsSchema file_ids) eqn:Hs; [|done].
    destruct Hinvalid. by apply Hiff.
Qed.

(** X21: [POST /v1/download/batch] with a valid body (1 to 10 jobs, each
    with valid [file_ids]) answers 202 with one entry per job in the order
    of the body, and leaves the process as the single submissions one
    after the other would; with no job or with more than 10 it answers 400
    and changes nothing. *)
Theorem batchDownload_is_sequence now uuids reqs sys :
  let pairs := zip uuids reqs in
  (batchSchema reqs = true → length uuids = length reqs →
     batchDownload now uuids reqs sys =
       (Accepted202
          (map (λ p, mkAccepted p.1 JobStore.queued (length p.2) (statusUrl p.1)) pairs),
        foldl (λ s p, (asyncDownload now p.1 p.2 s).2) sys pairs) ∧
     (1 ≤ length reqs ≤ 10)%nat) ∧
  (length reqs = 0%nat ∨ (10 < length reqs)%nat →
     batchDownload now uuids reqs sys = (InvalidInput400, sys)).
Proof.
  cbv zeta. split.
  - intros Hschema Hlen. unfold batchDownload. rewrite Hschema.
    unfold batchSchema in Hschema.
    apply andb_true_iff in Hschema as [Hschema H10].
    apply andb_true_iff in Hschema as [Hall H1].
    apply Nat.leb_le in H1, H10. split; [|lia].
    clear H1 H10.
    assert (∀ uuids sys, length uuids = length reqs →
      submitAll now uuids reqs sys =
        (map (λ p, mkAccepted p.1 JobStore.queued (length p.2) (statusUrl p.1))
           (zip uuids reqs),
         foldl (λ s p, (asyncDownload now p.1 p.2 s).2) sys (zip uuids reqs)))
      as Hgen.
    { clear uuids sys Hlen.
      induction reqs as [|file_ids reqs IH]; intros uuids sys Hlen.
      - destruct uuids; [done|done].
      - destruct uuids as [|id uuids]; [done|].
        cbn [forallb] in Hall. apply andb_true_iff in Hall as [Hone Hall].
        assert ((asyncDownload now id file_ids sys).2 =
                Worker.queueDownloadJob now id file_ids sys) as Hsingle
          by (unfold asyncDownload; by rewrite Hone).
        cbn [submitAll zip zip_with map foldl submitOne fst snd].
        injection Hlen as Hlen. rewrite (IH Hall uuids _ Hlen), Hsingle. done. }
    by rewrite (Hgen uuids sys Hlen).
  - intros Hbad. unfold batchDownload, batchSchema.
    assert (((1 <=? length reqs)%nat && (length reqs <=? 10)%nat) = false) as Hf.
    { destruct Hbad as [-> | Hbig]; [done|].
      rewrite (proj2 (Nat.leb_gt (length reqs) 10)) by lia. apply andb_false_r. }
    rewrite <- andb_assoc, Hf, andb_false_r. done.
Qed.

End RoutesMoreFacts.

Section ProcessMore.
Import Queue Worker App Routes RoutesMore.

Implicit Types (st : JobStore.JobStore) (e : QueueJob) (id : string).

(** What the loop of [tryProcess] does to one job: nothing, or, when it
    starts the entry of the job, the update an attempt starts with. *)
Lemma tryProcessLoop_job now pending :
  ∀ (q : DownloadQueue) st id job,
    handler q = Some processDownloadJob →
    NoDup (map jobId pending) →
    JobStore.jobs st !! id = Some job →
    let r := tryProcessLoop now pending q st in
    JobStore.jobs r.2 !! id = Some job ∨
    JobStore.jobs r.2 !! id =
      Some (JobStore.applyUpdates now job (startUpdates now)).
Proof.
  induction pending as [|e rest IH]; intros q st id job Hh Hnd Hjob.
  - unfold tryProcessLoop. by left.
  - cbv zeta. rewrite tryProcessLoop_cons.
    destruct (activeJobs q <? concurrency q); [|by left].
    unfold processJob. cbn [handler set_queue]. rewrite Hh.
    apply NoDup_cons in Hnd as [Hnotin Hnd].
    destruct (decide (id = jobId e)) as [->|Hne].
    + rewrite (processDownloadJob_found now (bumpAttempts e) st job) by done.
      cbn [fst snd].
      change (Queue.jobId (bumpAttempts e)) with (jobId e).
      match goal with |- context [tryProcessLoop now rest ?q1 ?st1] =>
        destruct (tryProcessLoop_entries now rest q1 st1) as (_ & _ & Hothers) end;
        [done|].
      destruct (Hothers (jobId e) Hnotin) as [_ ->]. right.
      by rewrite updateJob_lookup, decide_True, Hjob.
    + pose proof (start_others now e st id Hne) as Hsame.
      destruct (processDownloadJob now (bumpAttempts e) st) as [st1 c].
      cbn [fst snd] in *.
      match goal with |- context [tryProcessLoop now rest ?q1 st1] =>
        apply (IH q1 st1 id job) end; [done|done|by rewrite Hsame].
Qed.

(** X22: in every state of the process a valid submission under a fresh
    id is accepted. Afterwards the job is stored under that id with the
    files of the request and the time of the request as its creation date,
    at progress 0 without URL or error, [queued] or already [processing];
    the queue holds an entry for the id, and the ids of its entries are
    still distinct. *)
Theorem accepted_submission (s3 : S3Service) optConcurrency optMaxRetries
    sys now uuid file_ids :
  reachable s3 optConcurrency optMaxRetries sys →
  fresh uuid sys = true → fileIdsSchema file_ids = true →
  let r := asyncDownload now uuid file_ids sys in
  r.1 = Accepted202
          [mkAccepted uuid JobStore.queued (length file_ids)
             ("/v1/download/status/" +:+ uuid)] ∧
  step s3 (PostAsync now uuid file_ids) sys = Some r.2 ∧
  (∃ job,
     JobStore.jobs (jobStore r.2) !! uuid = Some job ∧
     JobStore.jobId job = uuid ∧ JobStore.fileIds job = file_ids ∧
     JobStore.createdAt job = now ∧ JobStore.progress job = 0 ∧
     JobStore.downloadUrl job = None ∧ JobStore.error job = None ∧
     (JobStore.status job = JobStore.queued ∨
      JobStore.status job = JobStore.processing)) ∧
  uuid ∈ entryIds (downloadQueue r.2) ∧
  NoDup (entryIds (downloadQueue r.2)).
Proof.
  intros Hreach Hfresh Hschema. cbv zeta.
  assert (step s3 (PostAsync now uuid file_ids) sys =
          Some (asyncDownload now uuid file_ids sys).2) as Hstep
    by (cbn [step]; by rewrite Hfresh).
  assert (reachable s3 optConcurrency optMaxRetries
            (asyncDownload now uuid file_ids sys).2) as Hreach'
    by (by eapply reachable_step).
  destruct (progressInv_reachable s3 _ _ _ Hreach') as [_ (Hnd' & _ & _)].
  destruct (progressInv_reachable s3 _ _ _ Hreach) as [Hh (Hnd & _ & _)].
  unfold fresh in Hfresh.
  apply andb_true_iff in Hfresh as [Hfresh _].
  apply andb_true_iff in Hfresh as [_ Hnotin].
  apply bool_decide_eq_true in Hnotin.
  split; [unfold asyncDownload; by rewrite Hschema|]. split; [exact Hstep|].
  split; [|split; [|exact Hnd']].
  - clear Hnd' Hreach' Hstep. unfold asyncDownload. rewrite Hschema.
    cbn [snd submitOne]. unfold queueDownloadJob, ofPair, add.
    cbn [jobStore downloadQueue].
    set (st1 := (JobStore.createJob now (JobStore.mkCreateJobInput uuid file_ids)
                   (jobStore sys)).1).
    set (job0 := JobStore.mkJob uuid file_ids JobStore.queued 0 None None None
                   now now None None).
    assert (JobStore.jobs st1 !! uuid = Some job0) as Hjob0
      by apply createJob_lookup.
    unfold tryProcess.
    destruct (negb (isRunning _) || negb (bool_decide (is_Some (handler _))))
      eqn:Hoff; cbn [fst snd].
    + exists job0. split; [done|]. repeat split; try done. by left.
    + apply orb_false_iff in Hoff as [_ Hsome].
      apply negb_false_iff, bool_decide_eq_true in Hsome.
      cbn [handler emit set_queue] in Hsome.
      destruct Hh as [Hh|Hh]; [rewrite Hh in Hsome; by destruct Hsome|].
      match goal with |- context [tryProcessLoop now ?pending ?q1 st1] =>
        destruct (tryProcessLoop_job now pending q1 st1 uuid job0) as [Hj|Hj] end.
      * done.
      * cbn [queue emit set_queue]. rewrite map_app. cbn [map jobId].
        unfold idsOf in Hnd. apply NoDup_app in Hnd as (Hq & _ & _).
        apply NoDup_app. split; [done|]. split; [|apply NoDup_singleton].
        intros x Hx Hx'. apply list_elem_of_singleton in Hx' as ->.
        apply Hnotin. unfold entryIds. apply elem_of_app. by left.
      * done.
      * exists job0. split; [done|]. repeat split; try done. by left.
      * eexists. split; [exact Hj|]. repeat split; try done. by right.
  - unfold asyncDownload. rewrite Hschema.
    cbn [snd submitOne]. unfold queueDownloadJob, ofPair, add.
    cbn [jobStore downloadQueue].
    match goal with |- context [tryProcess now ?q0 ?st1] =>
      destruct (tryProcess_entries now q0 st1) as (_ & Hids & _) end; [done|].
    rewrite entryIds_idsOf, Hids. cbn [queue calls emit set_queue].
    rewrite idsOf_waiting_end. left.
Qed.

Lemma filter_values_length (P : JobStore.Job → bool) (l : list (string * JobStore.Job)) :
  length (List.filter P (l.*2)) =
    length (filter (λ kv, P kv.2 = true) l).
Proof.
  induction l as [|[k j] l IH]; [done|].
  cbn [fmap list_fmap List.filter snd].
  destruct (P j) eqn:HP.
  - rewrite filter_cons_True by done. cbn [length]. f_equal. apply IH.
  - rewrite filter_cons_False by (cbn; by rewrite HP). apply IH.
Qed.

(** X19: the body of [GET /v1/download/queue/stats]: in every state of
    the process the number of [processing] jobs it reports is at most the
    [activeJobs] it reports, which is the counter of the queue and at most
    the concurrency. *)
Theorem processing_count_within_ceiling (s3 : S3Service) optConcurrency
    optMaxRetries sys :
  reachable s3 optConcurrency optMaxRetries sys →
  let body := queueStats sys in
  Z.of_nat (JobStore.stats_processing body.2) ≤ body.1.2 ∧
  body.1.2 = activeJobs (downloadQueue sys) ∧
  body.1.2 ≤ Z.max 0 (default 1 optConcurrency).
Proof.
  intros Hreach. cbv zeta. unfold queueStats, getQueueStats, getActiveCount.
  cbn [fst snd].
  destruct (ceilingInv_reachable s3 _ _ sys Hreach) as (Hc & Hb & Hcc & _).
  unfold counted, capped in *. rewrite Hcc in Hb.
  split; [|by split]. rewrite Hc. apply inj_le.
  pose proof (processingOk_reachable s3 _ _ sys Hreach) as Hproc.
  unfold JobStore.getStats, JobStore.getAllJobs. cbn [JobStore.stats_processing].
  rewrite filter_values_length.
  set (L := filter _ (map_to_list (JobStore.jobs (jobStore sys)))).
  rewrite <- (length_fmap fst L).
  rewrite <- (length_fmap (λ x : QueueJob * Call, jobId x.1)
                (calls (downloadQueue sys))).
  apply submseteq_length, NoDup_submseteq.
  - apply (sublist_NoDup _ ((map_to_list (JobStore.jobs (jobStore sys))).*1)).
    + apply NoDup_fst_map_to_list.
    + apply fmap_sublist. apply sublist_filter.
  - intros id Hid. apply list_elem_of_fmap in Hid as ([id' job] & -> & Hin).
    subst L. apply list_elem_of_filter in Hin as [Hs Hin]. cbn [fst snd] in *.
    apply elem_of_map_to_list in Hin. apply bool_decide_eq_true in Hs.
    destruct (Hproc id' job Hin Hs) as (e & p & He & <-).
    apply list_elem_of_fmap. by exists (e, Awaiting p).
Qed.

End ProcessMore.

(* ===================================================================== *)
(** ** The id test of the subscription route *)
(* ===================================================================== *)

Section UuidFormat.
Import Routes.

(** All characters of a string are hex digits, of either case. *)
Fixpoint allHex (s : string) : bool :=
  match s with
  | EmptyString => true
  | String c rest => isHex c && allHex rest
  end.

Lemma hexGroup_spec n : ∀ s r,
  hexGroup n s = Some r ↔
  ∃ g, s = g +:+ r ∧ String.length g = n ∧ allHex g = true.
Proof.
  induction n as [|n IH]; intros s r; cbn [hexGroup].
  - split.
    + intros [= ->]. by exists "".
    + intros (g & -> & Hlen & _). destruct g; [done|discriminate].
  - destruct s as [|c s].
    + split; [done|]. intros (g & Hs & Hlen & _).
      destruct g; [discriminate|discriminate].
    + destruct (isHex c) eqn:Hc.
      * rewrite IH. split.
        -- intros (g & -> & Hlen & Hg). exists (String c g).
           split; [done|]. split; [cbn; lia|]. cbn. by rewrite Hc.
        -- intros (g & Hs & Hlen & Hg). destruct g as [|c' g]; [discriminate|].
           cbn in Hs. injection Hs as -> ->. cbn in Hlen, Hg.
           apply andb_true_iff in Hg as [_ Hg]. exists g.
           split; [done|]. split; [lia|done].
      * split; [done|]. intros (g & Hs & Hlen & Hg).
        destruct g as [|c' g]; [discriminate|].
        cbn in Hs. injection Hs as -> ->. cbn in Hg. by rewrite Hc in Hg.
Qed.

Lemma dash_spec s r : dash s = Some r ↔ s = "-" +:+ r.
Proof.
  destruct s as [|c s]; cbn; [done|].
  destruct c as [[] [] [] [] [] [] [] []]; cbn;
    (split; [intros [= ->]; done || done | intros [= ]; subst; done || done]).
Qed.

Lemma string_app_nil_r (s : string) : s +:+ "" = s.
Proof.
  induction s as [|c s IH]; [done|].
  change (String c s +:+ "") with (String c (s +:+ "")). by f_equal.
Qed.

(** X24: the id test of the subscription route accepts exactly the
    strings made of five groups of 8, 4, 4, 4 and 12 hexadecimal digits, of
    either case, joined by dashes. The version and variant digits of a
    UUID are not looked at. *)
Theorem uuidRegexTest_spec jobId :
  uuidRegexTest jobId = true ↔
  ∃ a b c d e,
    jobId = a +:+ "-" +:+ b +:+ "-" +:+ c +:+ "-" +:+ d +:+ "-" +:+ e ∧
    String.length a = 8%nat ∧ String.length b = 4%nat ∧
    String.length c = 4%nat ∧ String.length d = 4%nat ∧
    String.length e = 12%nat ∧
    allHex a = true ∧ allHex b = true ∧ allHex c = true ∧
    allHex d = true ∧ allHex e = true.
Proof.
  unfold uuidRegexTest. cbn [hexGroups]. split.
  - destruct (hexGroup 8 jobId) as [s1|] eqn:H1; [|done].
    destruct (dash s1) as [s2|] eqn:D1; [|done].
    destruct (hexGroup 4 s2) as [s3|] eqn:H2; [|done].
    destruct (dash s3) as [s4|] eqn:D2; [|done].
    destruct (hexGroup 4 s4) as [s5|] eqn:H3; [|done].
    destruct (dash s5) as [s6|] eqn:D3; [|done].
    destruct (hexGroup 4 s6) as [s7|] eqn:H4; [|done].
    destruct (dash s7) as [s8|] eqn:D4; [|done].
    destruct (hexGroup 12 s8) as [s9|] eqn:H5; [|done].
    destruct s9; [|done]. intros _.
    apply hexGroup_spec in H1 as (a & -> & ? & ?).
    apply dash_spec in D1 as ->.
    apply hexGroup_spec in H2 as (b & -> & ? & ?).
    apply dash_spec in D2 as ->.
    apply hexGroup_spec in H3 as (c & -> & ? & ?).
    apply dash_spec in D3 as ->.
    apply hexGroup_spec in H4 as (d & -> & ? & ?).
    apply dash_spec in D4 as ->.
    apply hexGroup_spec in H5 as (e & -> & ? & ?).
    exists a, b, c, d, e. rewrite string_app_nil_r. by repeat split.
  - intros (a & b & c & d & e & -> & Ha & Hb & Hc & Hd & He & Xa & Xb & Xc & Xd & Xe).
    rewrite (proj2 (hexGroup_spec 8 _ ("-" +:+ b +:+ "-" +:+ c +:+ "-" +:+ d +:+ "-" +:+ e)))
      by (by exists a).
    rewrite (proj2 (dash_spec _ (b +:+ "-" +:+ c +:+ "-" +:+ d +:+ "-" +:+ e)))
      by done.
    rewrite (proj2 (hexGroup_spec 4 _ ("-" +:+ c +:+ "-" +:+ d +:+ "-" +:+ e)))
      by (by exists b).
    rewrite (proj2 (dash_spec _ (c +:+ "-" +:+ d +:+ "-" +:+ e))) by done.
    rewrite (proj2 (hexGroup_spec 4 _ ("-" +:+ d +:+ "-" +:+ e))) by (by exists c).
    rewrite (proj2 (dash_spec _ (d +:+ "-" +:+ e))) by done.
    rewrite (proj2 (hexGroup_spec 4 _ ("-" +:+ e))) by (by exists d).
    rewrite (proj2 (dash_spec _ e)) by done.
    rewrite (proj2 (hexGroup_spec 12 e "")); [done|].
    exists e. by rewrite string_app_nil_r.
Qed.

End UuidFormat.

(* ===================================================================== *)
(** ** The accuracy and the range of the progress *)
(* ===================================================================== *)

Section PercentAccuracy.
Import Worker.

(** The percentages the loop writes for [t] files against the exact share:
    with [c1] files done, [p] is within a half of [100 * c1 / t]. *)
Fixpoint turnsNear (fuel : nat) (c t : Z) : bool :=
  match fuel with
  | O => true
  | S fuel1 =>
      if c <? t then
        let c1 := Z.min (c + 3) t in
        (Z.abs (2 * t * percent c1 t - 200 * c1) <=? t)
        && turnsNear fuel1 (c + 3) t
      else true
  end.

Fixpoint totalsNear (fuel : nat) (t : Z) : bool :=
  match fuel with
  | O => true
  | S fuel1 => turnsNear 334 0 t && totalsNear fuel1 (t + 1)
  end.

Lemma totalsNear_to_1000 : totalsNear 1000 1 = true.
Proof. vm_cast_no_check (eq_refl true). Qed.

Lemma turnsNear_spec fuel :
  ∀ c t, turnsNear fuel c t = true →
  ∀ j : nat, (j < fuel)%nat → c + 3 * Z.of_nat j < t →
    let c1 := Z.min (c + 3 * Z.of_nat j + 3) t in
    Z.abs (2 * t * percent c1 t - 200 * c1) ≤ t.
Proof.
  induction fuel as [|fuel IH]; intros c t Hok j Hj Hlt; [lia|].
  cbn [turnsNear] in Hok.
  assert ((c <? t) = true) as Hc by (apply Z.ltb_lt; lia).
  rewrite Hc in Hok. cbv zeta in Hok.
  apply andb_true_iff in Hok as [Hhere Hrest]. apply Z.leb_le in Hhere.
  destruct j as [|j].
  - cbv zeta. replace (c + 3 * Z.of_nat 0 + 3) with (c + 3) by lia. done.
  - specialize (IH (c + 3) t Hrest j). cbv zeta in *.
    replace (c + 3 * Z.of_nat (S j) + 3) with (c + 3 + 3 * Z.of_nat j + 3) by lia.
    apply IH; lia.
Qed.

Lemma totalsNear_spec fuel :
  ∀ t0, totalsNear fuel t0 = true →
  ∀ t, t0 ≤ t < t0 + Z.of_nat fuel → turnsNear 334 0 t = true.
Proof.
  induction fuel as [|fuel IH]; intros t0 Hok t Ht; [lia|].
  cbn [totalsNear] in Hok. apply andb_true_iff in Hok as [Hhere Hrest].
  destruct (decide (t = t0)) as [->|Hne]; [done|].
  apply (IH (t0 + 1) Hrest). lia.
Qed.

Lemma percent_near (k total : nat) :
  (total ≤ 1000)%nat → (3 * k < total)%nat →
  let c := ((3 * k + 3) `min` total)%nat in
  Z.abs (2 * Z.of_nat total * progressOf c total - 200 * Z.of_nat c)
    ≤ Z.of_nat total.
Proof.
  intros Hmax Hlt.
  pose proof (totalsNear_spec 1000 1 totalsNear_to_1000 (Z.of_nat total)) as Hturns.
  pose proof (turnsNear_spec 334 0 (Z.of_nat total) (Hturns ltac:(lia)) k) as Hk.
  cbv zeta in *. unfold progressOf.
  rewrite Nat2Z.inj_min, Nat2Z.inj_add, Nat2Z.inj_mul. change (Z.of_nat 3) with 3.
  replace (0 + 3 * Z.of_nat k + 3) with (3 * Z.of_nat k + 3) in Hk by lia.
  apply Hk; lia.
Qed.

Lemma percent_range (k total : nat) :
  (total ≤ 1000)%nat → (3 * k < total)%nat →
  0 ≤ progressOf ((3 * k + 3) `min` total) total ≤ 100.
Proof.
  intros Hmax Hlt. pose proof (percent_near k total Hmax Hlt) as Hnear.
  cbv zeta in Hnear. apply Z.abs_le in Hnear.
  assert (0 ≤ Z.of_nat ((3 * k + 3) `min` total) ≤ Z.of_nat total) by lia.
  nia.
Qed.

(** X25: the progress the worker stores after a batch, for a job of at
    most 1000 files (the limit of the route), is the whole percentage
    nearest to the share of the files done: it is within half a point of
    [100 * done / total], lies between 0 and 100, and is 100 when all
    files are done. The floating-point division and product and
    [Math.round] lose nothing. *)
Theorem progress_is_nearest_percentage (k total : nat) :
  (total ≤ 1000)%nat → (3 * k < total)%nat →
  let c := ((3 * k + 3) `min` total)%nat in
  let p := progressOf c total in
  Z.abs (2 * Z.of_nat total * p - 200 * Z.of_nat c) ≤ Z.of_nat total ∧
  0 ≤ p ≤ 100 ∧
  (c = total → p = 100).
Proof.
  intros Hmax Hlt c p. pose proof (percent_near k total Hmax Hlt) as Hnear.
  fold c in Hnear. fold p in Hnear.
  assert (0 < Z.of_nat total) as Hpos by lia.
  assert (0 ≤ Z.of_nat c ≤ Z.of_nat total) as Hc by (unfold c; lia).
  split; [exact Hnear|]. apply Z.abs_le in Hnear. split; [nia|].
  intros Heq. assert (Z.of_nat c = Z.of_nat total) as Hz by (by rewrite Heq).
  rewrite Hz in Hnear.
  destruct (Z.lt_trichotomy p 100) as [Hlow|[Heq100|Hhigh]]; [|done|].
  - assert (2 * Z.of_nat total * p ≤ 2 * Z.of_nat total * 99) by nia. lia.
  - assert (2 * Z.of_nat total * 101 ≤ 2 * Z.of_nat total * p) by nia. lia.
Qed.

End PercentAccuracy.

Section ProgressRange.
Import Queue Worker App.

Implicit Types (st : JobStore.JobStore) (e : QueueJob) (id : string).

(** Every stored progress is a percentage. *)
Definition rangeOk st : Prop :=
  ∀ id job, JobStore.jobs st !! id = Some job → 0 ≤ JobStore.progress job ≤ 100.

Lemma rangeOk_update now id u st :
  rangeOk st →
  (∀ job, JobStore.jobs st !! id = Some job →
     0 ≤ JobStore.progress (JobStore.applyUpdates now job u) ≤ 100) →
  rangeOk (JobStore.updateJob now id u st).1.
Proof.
  intros Hst Hnew id' job. rewrite updateJob_lookup.
  destruct (decide (id' = id)) as [->|Hne]; [|apply Hst].
  destruct (JobStore.jobs st !! id) as [job0|] eqn:Hjob0; [|done].
  cbn. intros [= <-]. by apply Hnew.
Qed.

Lemma tryProcessLoop_rangeOk now pending :
  ∀ (q : DownloadQueue) st,
    handler q = Some processDownloadJob → rangeOk st →
    rangeOk (tryProcessLoop now pending q st).2.
Proof.
  induction pending as [|e rest IH]; intros q st Hh Hst.
  - unfold tryProcessLoop. by cbn.
  - rewrite tryProcessLoop_cons.
    destruct (activeJobs q <? concurrency q); [|by cbn].
    unfold processJob. cbn [handler set_queue]. rewrite Hh.
    assert (rangeOk (processDownloadJob now (bumpAttempts e) st).1) as Hst1.
    { unfold processDownloadJob, JobStore.getJob.
      destruct (JobStore.jobs st !! _) as [job|]; cbn [fst]; [|done].
      apply rangeOk_update; [done|]. intros job0 _. cbn. lia. }
    destruct (processDownloadJob now (bumpAttempts e) st) as [st1 c].
    cbn [fst snd] in *. by apply IH.
Qed.

Lemma tryProcess_rangeOk now (q : DownloadQueue) st :
  handler q = None ∨ handler q = Some processDownloadJob → rangeOk st →
  rangeOk (tryProcess now q st).2.
Proof.
  intros Hh Hst. unfold tryProcess.
  destruct (negb (isRunning q)); cbn [orb]; [done|].
  destruct Hh as [Hh|Hh]; rewrite Hh; [done|].
  rewrite bool_decide_eq_true_2 by eauto. cbn [negb].
  by apply tryProcessLoop_rangeOk.
Qed.

Lemma resume_rangeOk (s3 : S3Service) now e p st :
  callOk st (e, Awaiting p) → rangeOk st → rangeOk (resume s3 now e p st).1.
Proof.
  intros [Hsized Hp] Hst. cbn [fst snd] in Hsized, Hp. unfold resume, catchClause.
  destruct p as [i c keys|key].
  - destruct Hp as (k & -> & -> & Hlt & _).
    destruct (processBatch s3 now (batchAt (3 * k) (fileIds e))) as [r|err];
      cbn [fst]; (apply rangeOk_update; [done|]); intros job Hjob; cbn;
      [|by eapply Hst].
    match goal with
    | |- context [progressOf ?c _] =>
        replace c with ((3 * k + 3) `min` length (fileIds e))%nat
          by (rewrite length_take, length_drop;
              unfold PARALLEL_FILE_BATCH_SIZE; lia)
    end.
    by apply percent_range.
  - destruct (generatePresignedUrl s3 now key) as [url|err];
      cbn [fst]; (apply rangeOk_update; [done|]); intros job Hjob; cbn;
      [lia|by eapply Hst].
Qed.

Lemma rangeOk_step (s3 : S3Service) op sys sys' :
  progressInv sys → rangeOk (jobStore sys) → step s3 op sys = Some sys' →
  rangeOk (jobStore sys').
Proof.
  destruct sys as [st q]. intros [Hh (_ & _ & Hcalls)] Hst.
  cbn [jobStore downloadQueue] in Hh, Hcalls, Hst.
  destruct op as [now|now uuid file_ids|now k|now age| |now| |now t|now k];
    cbn [step jobStore downloadQueue].
  - intros [= <-]. unfold initializeWorker, ofPair, process.
    cbn [jobStore downloadQueue]. apply tryProcess_rangeOk; [by right|done].
  - destruct (fresh uuid (mkSystem st q)); [|done]. intros [= <-].
    unfold Routes.asyncDownload.
    destruct (Routes.fileIdsSchema file_ids); [|done].
    cbn [snd Routes.submitOne]. unfold queueDownloadJob, ofPair, add.
    cbn [jobStore downloadQueue]. apply tryProcess_rangeOk; [done|].
    intros id job. rewrite createJob_lookup_any.
    destruct (decide (id = uuid)); [|apply Hst]. intros [= <-]. cbn. lia.
  - unfold wake. cbn [jobStore downloadQueue].
    destruct (calls q !! k) as [[e c]|] eqn:Hk; [|done].
    pose proof (Forall_lookup_1 _ _ _ _ Hcalls Hk) as Hcall.
    destruct c as [p| |err].
    + pose proof (resume_rangeOk s3 now e p st Hcall Hst) as Hst1.
      destruct (resume s3 now e p st) as [st1 c1]. by intros [= <-].
    + unfold processJobSettled. rewrite Hk.
      cbn [fmap option_fmap option_map]. intros [= <-].
      unfold processJobFinally, ofPair. cbn [jobStore].
      by apply tryProcess_rangeOk.
    + unfold processJobSettled. rewrite Hk.
      cbn [fmap option_fmap option_map]. intros [= <-].
      unfold processJobFinally, ofPair. cbn [jobStore].
      apply tryProcess_rangeOk; [|done].
      cbn [maxRetries set_calls]. by destruct (attempts e <? maxRetries q).
  - intros [= <-]. cbn [jobStore].
    change (JobStore.mkJobStore _ _) with (JobStore.cleanup now age st).1.
    intros id job. rewrite cleanup_lookup.
    destruct (JobStore.jobs st !! id) as [j|] eqn:Hj; [|done].
    destruct (JobStore.isOld now _ j); [done|]. intros [= <-]. by apply (Hst id).
  - by intros [= <-].
  - intros [= <-]. unfold ofPair, Queue.resume. cbn [jobStore].
    by apply tryProcess_rangeOk.
  - by intros [= <-].
  - by intros [= <-].
  - destruct (shutdownWake now k q); [|done]. by intros [= <-].
Qed.

(** X26: in every state of the process the progress of every stored job
    is between 0 and 100. *)
Theorem progress_within_bounds (s3 : S3Service) optConcurrency optMaxRetries
    sys id job :
  reachable s3 optConcurrency optMaxRetries sys →
  JobStore.jobs (jobStore sys) !! id = Some job →
  0 ≤ JobStore.progress job ≤ 100.
Proof.
  intros Hreach. revert id job. change (rangeOk (jobStore sys)).
  induction Hreach as [|sys op sys' Hreach IH Hstep].
  - intros id job. cbn. by rewrite lookup_empty.
  - eapply rangeOk_step; [|exact IH|exact Hstep].
    by eapply progressInv_reachable.
Qed.

End ProgressRange.

(* ===================================================================== *)
(** ** The queue: submissions between [pause] and [resume] *)
(* ===================================================================== *)

Section QueuePause.
Import Queue.
Context {World Pending : Type}.

Local Abbreviation SQ := (SimpleQueue World Pending).
Implicit Types (q : SQ) (w : World) (job : QueueJob) (id : string).

(** The [job:added] event of a submission. *)
Definition addedEvent (sub : Z * string * list Z) : Queue.Emitted :=
  mkEmitted "job:added" (Some (newEntry sub)) None.

(** One [add] on a queue that does not dispatch. *)
Lemma add_when_off now id files q w :
  isRunning q = false →
  add now id files q w =
    (emit "job:added" (Some (mkQueueJob id files now 0)) None
       (set_queue (queue q ++ [mkQueueJob id files now 0]) q), w).
Proof.
  intros Hoff. unfold add, tryProcess. cbn [isRunning emit set_queue].
  by rewrite Hoff.
Qed.

Lemma addAll_paused subs q w :
  isRunning q = false →
  let r := addAll subs q w in
  r.2 = w ∧ queue r.1 = queue q ++ map newEntry subs ∧
  emitted r.1 = emitted q ++ map addedEvent subs ∧
  calls r.1 = calls q ∧ activeJobs r.1 = activeJobs q ∧
  isRunning r.1 = false ∧ sameSetup q r.1.
Proof.
  intros Hoff. cbv zeta. unfold addAll.
  induction subs as [|sub subs IH] using rev_ind.
  - cbn. rewrite !app_nil_r. repeat split; try done.
  - rewrite foldl_app. cbn [foldl].
    destruct (foldl _ (q, w) subs) as [q1 w1]. cbn [fst snd] in *.
    destruct IH as (Hw & Hq & He & Hc & Ha & Hr & Hs).
    rewrite add_when_off by done.
    cbn [fst snd queue calls activeJobs emitted isRunning emit set_queue].
    rewrite Hq, He, !map_app, <- !app_assoc.
    split; [done|]. split; [done|]. split; [done|]. split; [done|].
    split; [done|]. split; [done|].
    destruct Hs as (? & ? & ? & ? & ?). by repeat split.
Qed.

(** X27: submissions made between [pause] and [resume] of a queue with
    a handler wait behind the entries that were waiting, and none is
    started while the queue is paused. [resume] then starts the first [n]
    of all waiting entries in their order, [n] being the smaller of their
    number and the number of free slots; the queue has emitted
    [queue:paused], one [job:added] per submission, [queue:resumed] and
    one [job:processing] per started entry, in this order. *)
Theorem pause_holds_until_resume now h subs q w :
  handler q = Some h →
  let r1 := addAll subs (pause q) w in
  let r2 := resume now r1.1 r1.2 in
  let waiting := queue q ++ map newEntry subs in
  let n := Nat.min (length waiting) (room q) in
  (r1.2 = w ∧ queue r1.1 = waiting ∧ calls r1.1 = calls q ∧
   activeJobs r1.1 = activeJobs q) ∧
  isRunning r2.1 = true ∧
  queue r2.1 = drop n waiting ∧
  (calls r2.1).*1 = (calls q).*1 ++ map bumpAttempts (take n waiting) ∧
  activeJobs r2.1 = activeJobs q + Z.of_nat n ∧
  r2.2 = runHandler h now (take n waiting) w ∧
  emitted r2.1 =
    emitted q ++ [mkEmitted "queue:paused" None None] ++ map addedEvent subs
    ++ [mkEmitted "queue:resumed" None None]
    ++ map startEvent (take n waiting).
Proof.
  intros Hh. cbv zeta.
  destruct (addAll_paused subs (pause q) w eq_refl)
    as (Hw & Hq & He & Hc & Ha & Hr & Hs).
  destruct (addAll subs (pause q) w) as [q1 w1]. cbn [fst snd] in *. subst w1.
  unfold pause in Hq, He, Hc, Ha, Hs.
  cbn [queue calls activeJobs emitted emit set_isRunning] in Hq, He, Hc, Ha.
  destruct Hs as (Hcc & Hmr & Hhh & _).
  cbn [concurrency maxRetries handler emit set_isRunning] in Hcc, Hmr, Hhh.
  split; [done|]. unfold resume, tryProcess.
  cbn [isRunning handler emit set_isRunning]. rewrite Hhh, Hh.
  rewrite bool_decide_eq_true_2 by eauto. cbn [negb orb queue emit set_isRunning].
  match goal with |- context [tryProcessLoop now ?p ?q0 w] =>
    destruct (tryProcessLoop_starts now h p q0 w)
      as (Hq2 & Hc2 & Ha2 & He2 & Hw2 & Hs2) end.
  { cbn [handler emit set_isRunning]. by rewrite Hhh. }
  assert (room (emit "queue:resumed" None None (set_isRunning true q1)) = room q)
    as Hroom by (unfold room; cbn [concurrency activeJobs emit set_isRunning];
                 by rewrite Hcc, Ha).
  rewrite Hroom, Hq in *.
  cbn [calls activeJobs emitted emit set_isRunning] in Hc2, Ha2, He2.
  destruct Hs2 as (_ & _ & _ & Hrun & _).
  cbn [isRunning emit set_isRunning] in Hrun.
  split; [done|]. split; [done|]. split; [by rewrite Hc2, Hc|].
  split; [by rewrite Ha2, Ha|]. split; [done|].
  rewrite He2, He, <- !app_assoc. done.
Qed.

End QueuePause.

(* ===================================================================== *)
(** ** Sample runs of the process, and the theorems above at them *)
(* ===================================================================== *)

Module SampleRuns.
Import Queue Worker App.

(** A storage service that is down until the time 3500. *)
Definition s3Flaky : S3Service :=
  mkS3Service
    (λ now _,
       if now <? 3500 then RejectedWith (ErrorObject "storage unavailable")
       else Fulfilled ("downloads/file.zip", 1024))
    (λ _ key, Fulfilled ("https://storage/" +:+ key)).

(** The worker is initialised and a job of two files is submitted. *)
Definition submitted : list Op :=
  [InitializeWorker 1000; PostAsync 2000 Sample.uuid1 [10001; 10002]].

(** The first attempt fails, the second uploads both files. *)
Definition retried : list Op :=
  submitted ++ [Wake 3000 0; Wake 3100 0; Wake 4000 0].

Definition after (s3 : S3Service) (ops : list Op) : System :=
  default initial (run s3 ops initial).

Definition jobAfter (s3 : S3Service) (ops : list Op) : JobStore.Job :=
  default Sample.failedJob (JobStore.jobs (jobStore (after s3 ops)) !! Sample.uuid1).

End SampleRuns.

Section Witnesses.
Import Queue Worker App Routes SampleRuns.

Lemma reachable_run (s3 : S3Service) oc om ops :
  ∀ sys sys', reachable s3 oc om sys → run s3 ops sys = Some sys' →
    reachable s3 oc om sys'.
Proof.
  induction ops as [|op ops IH]; intros sys sys' Hreach; cbn [run].
  - by intros [= <-].
  - destruct (step s3 op sys) as [sys1|] eqn:Hstep; [|done]. cbn.
    apply IH. by eapply reachable_step.
Qed.

Lemma reachable_after (s3 : S3Service) ops :
  (if run s3 ops initial is Some _ then True else False) →
  reachable s3 (Some 5) (Some 3) (after s3 ops).
Proof.
  unfold after. destruct (run s3 ops initial) as [sys|] eqn:Hrun; [|done].
  intros _. cbn. eapply reachable_run; [apply reachable_boot|exact Hrun].
Qed.

(** X6 at a job that was created and then started. *)
Lemma stored_job_has_its_key_witness :
  let ops :=
    [CreateJob 1000 (JobStore.mkCreateJobInput Sample.uuid1 [10001]);
     UpdateJob 2000 Sample.uuid1 (Sample.startUpdate 2000)] in
  let job :=
    JobStore.mkJob Sample.uuid1 [10001] JobStore.processing 0 None None None
      1000 2000 (Some 2000) None in
  JobStore.jobId job = Sample.uuid1 ∧
  ∃ now files,
    CreateJob now (JobStore.mkCreateJobInput Sample.uuid1 files) ∈ ops ∧
    JobStore.fileIds job = files ∧ JobStore.createdAt job = now.
Proof.
  intros ops job. refine (stored_job_has_its_key ops Sample.uuid1 job _).
  vm_compute. reflexivity.
Defined.

(** A queue of plain values: two slots, three entries waiting. *)
Definition plainQueue : SimpleQueue unit unit :=
  mkSimpleQueue
    [mkQueueJob "a" [1] 10 0; mkQueueJob "b" [2] 20 0; mkQueueJob "c" [3] 30 1]
    false (Some (λ _ _ w, (w, Resolved))) 2 0 3 true [] [] [].

(** X7 at that queue: the first two entries are started. *)
Lemma tryProcess_starts_head_witness :
  queue (tryProcess 100 plainQueue tt).1 = [mkQueueJob "c" [3] 30 1] ∧
  (calls (tryProcess 100 plainQueue tt).1).*1 =
    [mkQueueJob "a" [1] 10 1; mkQueueJob "b" [2] 20 1].
Proof.
  pose proof (tryProcess_starts_head 100 (λ _ _ w, (w, Resolved)) plainQueue tt
                eq_refl eq_refl) as (Hq & Hc & _).
  split; [exact Hq|exact Hc].
Defined.

(** X8 at a queue without a handler. *)
Lemma add_while_not_dispatching_witness :
  let q : SimpleQueue unit unit := create (Some 2) None in
  let r := addAll [(1000, "a", [1]); (2000, "b", [2])] q tt in
  queue r.1 = [mkQueueJob "a" [1] 1000 0; mkQueueJob "b" [2] 2000 0] ∧
  calls r.1 = [] ∧ activeJobs r.1 = 0.
Proof.
  intros q r.
  pose proof (add_while_not_dispatching [(1000, "a", [1]); (2000, "b", [2])] q tt
                (or_introl eq_refl)) as (Hq & Hc & Ha & _).
  split; [exact Hq|]. split; [exact Hc|exact Ha].
Defined.

(** A queue with one call in flight whose handler has rejected. *)
Definition rejectedQueue : SimpleQueue unit unit :=
  mkSimpleQueue [mkQueueJob "b" [2] 20 0] false (Some (λ _ _ w, (w, Resolved)))
    1 1 3 true [] [(mkQueueJob "a" [1] 10 1, Rejected OtherValue)] [].

(** X9 at that queue: stopped, and then the failed entry is put back. *)
Lemma stop_leaves_calls_in_flight_witness :
  ∃ q',
    processJobSettled 100 0 (stop rejectedQueue) tt = Some (q', tt) ∧
    queue q' = [mkQueueJob "a" [1] 10 1] ∧
    calls q' = [] ∧ activeJobs q' = 0 ∧ isRunning q' = false.
Proof.
  exact (proj2 (proj2 (proj2 (proj2 (proj2
    (stop_leaves_calls_in_flight 100 0 (mkQueueJob "a" [1] 10 1)
       (Rejected OtherValue) rejectedQueue tt eq_refl eq_refl)))))).
Defined.

(** X10 at that queue: the failed entry is put back, then dropped. *)
Lemma shutdown_drops_retried_entry_witness :
  ∃ q2 q3,
    processJobSettled 200 0 (shutdown 100 None rejectedQueue) tt = Some (q2, tt) ∧
    queue q2 = [mkQueueJob "b" [2] 20 0; mkQueueJob "a" [1] 10 1] ∧
    shutdownWake 300 0 q2 = Some q3 ∧
    queue q3 = [] ∧
    emitted q3 =
      [mkEmitted "job:retry" (Some (mkQueueJob "a" [1] 10 1)) (Some OtherValue);
       mkEmitted "queue:shutdown" None None].
Proof.
  assert (@attempts (mkQueueJob "a" [1] 10 1) < maxRetries rejectedQueue) as Hlt
    by (cbn; lia).
  assert (0 ≤ default 30000 (@None Z)) as Ht by (cbn; lia).
  destruct (shutdown_drops_retried_entry 100 None 200 300 0
              (mkQueueJob "a" [1] 10 1) OtherValue rejectedQueue tt
              eq_refl Hlt eq_refl Ht)
    as (_ & _ & _ & _ & _ & q2 & q3 & H1 & H2 & _ & _ & _ & H3 & H4 & _ & _ & H5).
  exists q2, q3. split; [exact H1|]. split; [exact H2|]. split; [exact H3|].
  split; [exact H4|exact H5].
Defined.

(** X11 in the second attempt of the retried run. *)
Lemma attempts_accounted_witness :
  let sys := after s3Flaky retried in
  let evs := Queue.emitted (downloadQueue sys) in
  countJobEvent "job:processing" Sample.uuid1 evs =
    (countJobEvent "job:completed" Sample.uuid1 evs
     + countJobEvent "job:retry" Sample.uuid1 evs
     + countJobEvent "job:failed" Sample.uuid1 evs
     + inFlight Sample.uuid1 (calls (downloadQueue sys)))%nat ∧
  (inFlight Sample.uuid1 (calls (downloadQueue sys)) ≤ 1)%nat.
Proof.
  refine (attempts_accounted s3Flaky (Some 5) (Some 3) (after s3Flaky retried)
            Sample.uuid1 _).
  apply reachable_after. vm_compute. exact I.
Defined.

(** X12 at the job of the retried run. *)
Lemma job_records_consistent_witness :
  let job := jobAfter s3Flaky retried in
  JobStore.jobId job = Sample.uuid1 ∧
  (JobStore.status job = JobStore.ready ↔ is_Some (JobStore.downloadUrl job)).
Proof.
  intros job.
  destruct (job_records_consistent s3Flaky (Some 5) (Some 3)
              (after s3Flaky retried) Sample.uuid1 job) as (H1 & H2 & _).
  - apply reachable_after. vm_compute. exact I.
  - vm_compute. reflexivity.
  - split; [exact H1|exact H2].
Defined.

(** X13 in the retried run. *)
Lemma entries_match_records_witness :
  NoDup (entryIds (downloadQueue (after s3Flaky retried))).
Proof.
  refine (proj1 (entries_match_records s3Flaky (Some 5) (Some 3)
                   (after s3Flaky retried) _)).
  apply reachable_after. vm_compute. exact I.
Defined.

(** X14 at the job of the retried run, which is processing. *)
Lemma processing_job_has_call_in_flight_witness :
  JobStore.status (jobAfter s3Flaky retried) = JobStore.processing ↔
  ∃ e p, (e, Awaiting p) ∈ calls (downloadQueue (after s3Flaky retried)) ∧
         jobId e = Sample.uuid1.
Proof.
  refine (processing_job_has_call_in_flight s3Flaky (Some 5) (Some 3)
            (after s3Flaky retried) Sample.uuid1 (jobAfter s3Flaky retried) _ _).
  - apply reachable_after. vm_compute. exact I.
  - vm_compute. reflexivity.
Defined.

(** X15 at the end of the retried run: the second attempt gets its URL. *)
Lemma retried_success_keeps_error_witness :
  ∃ sys' job',
    step s3Flaky (Wake 5000 0) (after s3Flaky retried) = Some sys' ∧
    JobStore.jobs (jobStore sys') !! Sample.uuid1 = Some job' ∧
    JobStore.status job' = JobStore.ready ∧
    JobStore.downloadUrl job' = Some "https://storage/downloads/file.zip" ∧
    is_Some (JobStore.error job') ∧
    JobStore.error job' = Some "storage unavailable".
Proof.
  refine (retried_success_keeps_error s3Flaky (Some 5) (Some 3)
            (after s3Flaky retried) 5000 0
            (mkQueueJob Sample.uuid1 [10001; 10002] 2000 2) "downloads/file.zip"
            "https://storage/downloads/file.zip" (jobAfter s3Flaky retried)
            _ _ _ _ _).
  - apply reachable_after. vm_compute. exact I.
  - vm_compute. reflexivity.
  - cbn. lia.
  - vm_compute. reflexivity.
  - vm_compute. reflexivity.
Defined.

(** X16 at the one batch of the submitted job. *)
Lemma url_requested_for_last_file_witness :
  ∃ lastFile key size sys',
    last [10001; 10002] = Some lastFile ∧
    uploadFile Sample.s3Up 3000 lastFile = Fulfilled (key, size) ∧
    step Sample.s3Up (Wake 3000 0) (after Sample.s3Up submitted) = Some sys' ∧
    calls (downloadQueue sys') !! 0%nat =
      Some (mkQueueJob Sample.uuid1 [10001; 10002] 2000 1, Awaiting (AwaitUrl key)).
Proof.
  refine (url_requested_for_last_file Sample.s3Up (Some 5) (Some 3)
            (after Sample.s3Up submitted) 3000 0
            (mkQueueJob Sample.uuid1 [10001; 10002] 2000 1) 0 0 []
            ["downloads/file.zip"; "downloads/file.zip"] _ _ _ _).
  - apply reachable_after. vm_compute. exact I.
  - vm_compute. reflexivity.
  - cbn. lia.
  - vm_compute. reflexivity.
Defined.

(** X17 for a job of four files on the queue of the worker module. *)
Lemma job_runs_to_completion_witness :
  ∃ sys' job url,
    run Sample.s3Up (wakes [3000; 4000; 5000; 6000])
      (queueDownloadJob 2000 Sample.uuid1 [10001; 10002; 10003; 10004]
         (initializeWorker 1000 initial)) = Some sys' ∧
    idle sys' ∧
    Queue.emitted (downloadQueue sys') =
      Queue.emitted (downloadQueue (initializeWorker 1000 initial)) ++
      [Queue.mkEmitted "job:added"
         (Some (mkQueueJob Sample.uuid1 [10001; 10002; 10003; 10004] 2000 0)) None;
       Queue.mkEmitted "job:processing"
         (Some (mkQueueJob Sample.uuid1 [10001; 10002; 10003; 10004] 2000 1)) None;
       Queue.mkEmitted "job:completed"
         (Some (mkQueueJob Sample.uuid1 [10001; 10002; 10003; 10004] 2000 1)) None] ∧
    JobStore.jobs (jobStore sys') !! Sample.uuid1 = Some job ∧
    JobStore.status job = JobStore.ready ∧
    JobStore.progress job = 100 ∧
    JobStore.downloadUrl job = Some url.
Proof.
  refine (job_runs_to_completion Sample.s3Up (initializeWorker 1000 initial) 2000
            Sample.uuid1 [10001; 10002; 10003; 10004] [3000; 4000; 5000; 6000]
            _ _ _ _).
  - intros now fileId. eexists. reflexivity.
  - intros now key. eexists. reflexivity.
  - unfold idle. cbn. repeat split; try reflexivity; lia.
  - reflexivity.
Defined.

(** X18 with a storage service that takes no upload. *)
Lemma empty_job_needs_no_upload_witness :
  ∃ sys' job,
    run s3Flaky (wakes [3000])
      (queueDownloadJob 2000 Sample.uuid1 [] (initializeWorker 1000 initial))
      = Some sys' ∧
    calls (downloadQueue sys') =
      [(mkQueueJob Sample.uuid1 [] 2000 1, Resolved)] ∧
    JobStore.jobs (jobStore sys') !! Sample.uuid1 = Some job ∧
    JobStore.status job = JobStore.ready ∧
    JobStore.progress job = 100 ∧
    JobStore.downloadUrl job =
      Some "https://storage/downloads/123e4567-e89b-42d3-a456-426614174000.zip".
Proof.
  refine (empty_job_needs_no_upload s3Flaky (initializeWorker 1000 initial) 2000
            Sample.uuid1 3000 _ _ _).
  - unfold idle. cbn. repeat split; try reflexivity; lia.
  - reflexivity.
Defined.

(** X19 after the submission. *)
Lemma processing_count_within_ceiling_witness :
  let body := RoutesMore.queueStats (after Sample.s3Up submitted) in
  Z.of_nat (JobStore.stats_processing body.2) ≤ body.1.2 ∧
  body.1.2 = activeJobs (downloadQueue (after Sample.s3Up submitted)) ∧
  body.1.2 ≤ Z.max 0 5.
Proof.
  refine (processing_count_within_ceiling Sample.s3Up (Some 5) (Some 3)
            (after Sample.s3Up submitted) _).
  apply reachable_after. vm_compute. exact I.
Defined.

(** X22 for the first submission to the initialised worker. *)
Lemma accepted_submission_witness :
  let r := asyncDownload 2000 Sample.uuid1 [10001; 10002]
             (after Sample.s3Up [InitializeWorker 1000]) in
  r.1 = Accepted202
          [mkAccepted Sample.uuid1 JobStore.queued 2
             "/v1/download/status/123e4567-e89b-42d3-a456-426614174000"] ∧
  Sample.uuid1 ∈ entryIds (downloadQueue r.2).
Proof.
  intros r.
  destruct (accepted_submission Sample.s3Up (Some 5) (Some 3)
              (after Sample.s3Up [InitializeWorker 1000]) 2000 Sample.uuid1
              [10001; 10002]) as (H1 & _ & _ & H2 & _).
  - apply reachable_after. vm_compute. exact I.
  - vm_compute. reflexivity.
  - vm_compute. reflexivity.
  - split; [exact H1|exact H2].
Defined.

(** X23 at the failed sample job. *)
Lemma status_and_subscribe_agree_witness :
  ∃ job,
    JobStore.getJob Sample.uuid1 Sample.store = Some job ∧
    viewOf Sample.failedJob = viewOf job ∧
    1000 = JobStore.createdAt job ∧ 5000 = JobStore.updatedAt job ∧
    if JobStore.isTerminal (JobStore.status job)
    then "public, max-age=3600, immutable" = "public, max-age=3600, immutable" ∧
         subscribe Sample.uuid1 Sample.store =
           AlreadyCompleted200 (viewOf Sample.failedJob)
    else "public, max-age=3600, immutable" = "public, max-age=2" ∧
         subscribe Sample.uuid1 Sample.store =
           StreamSSE (view_jobId (viewOf Sample.failedJob))
             (view_status (viewOf Sample.failedJob))
             (view_progress (viewOf Sample.failedJob)).
Proof.
  exact (status_and_subscribe_agree uuidRegexTest None Sample.uuid1 Sample.store
           eq_refl eq_refl).
Defined.

(** X25 at the nineteenth batch of a job of 200 files: 57 files done. *)
Lemma progress_is_nearest_percentage_witness :
  (200 ≤ 1000)%nat ∧ (3 * 18 < 200)%nat ∧
  Z.abs (2 * Z.of_nat 200 * progressOf 57 200 - 200 * Z.of_nat 57) ≤ Z.of_nat 200 ∧
  0 ≤ progressOf 57 200 ≤ 100.
Proof.
  assert (200 ≤ 1000)%nat as Hmax by lia.
  assert (3 * 18 < 200)%nat as Hlt by lia.
  split; [exact Hmax|]. split; [exact Hlt|].
  destruct (progress_is_nearest_percentage 18 200 Hmax Hlt) as (H1 & H2 & _).
  split; [exact H1|exact H2].
Defined.

(** X26 at the job of the retried run. *)
Lemma progress_within_bounds_witness :
  0 ≤ JobStore.progress (jobAfter s3Flaky retried) ≤ 100.
Proof.
  refine (progress_within_bounds s3Flaky (Some 5) (Some 3)
            (after s3Flaky retried) Sample.uuid1 (jobAfter s3Flaky retried) _ _).
  - apply reachable_after. vm_compute. exact I.
  - vm_compute. reflexivity.
Defined.

(** X27 at the queue of plain values, with one submission while paused. *)
Lemma pause_holds_until_resume_witness :
  let r1 := addAll [(40, "d", [4])] (pause plainQueue) tt in
  let r2 := Queue.resume 100 r1.1 r1.2 in
  queue r1.1 =
    [mkQueueJob "a" [1] 10 0; mkQueueJob "b" [2] 20 0; mkQueueJob "c" [3] 30 1;
     mkQueueJob "d" [4] 40 0] ∧
  calls r1.1 = [] ∧
  queue r2.1 = [mkQueueJob "c" [3] 30 1; mkQueueJob "d" [4] 40 0] ∧
  activeJobs r2.1 = 2.
Proof.
  intros r1 r2.
  destruct (pause_holds_until_resume 100 (λ _ _ w, (w, Resolved))
              [(40, "d", [4])] plainQueue tt eq_refl)
    as ((_ & H1 & H2 & _) & _ & H3 & _ & H4 & _).
  split; [exact H1|]. split; [exact H2|]. split; [exact H3|exact H4].
Defined.

End Witnesses.

(* ===================================================================== *)
(** ** The progress after a batch against the exact share of the files *)
(* ===================================================================== *)

Module LongRun.
Import Queue Worker App.

(** A job of 120 files. *)
Definition files : list Z := map (λ n, 10001 + Z.of_nat n) (seq 0 120).

(** The worker is initialised, the job is submitted, and [k] batches are
    uploaded. *)
Definition batchesDone (k : nat) : list Op :=
  [InitializeWorker 1000; PostAsync 2000 Sample.uuid1 files]
  ++ wakes (replicate k 3000).

(** The job of the run, as [GET /v1/download/status] would find it. *)
Definition jobAfter (s3 : S3Service) (ops : list Op) : option JobStore.Job :=
  sys ← run s3 ops initial; JobStore.getJob Sample.uuid1 (jobStore sys).

End LongRun.

Section BatchProgress.
Import Queue Worker App.

(** C5: in every state the process can reach, for every call of the worker
    in flight and the job of its entry. The loop takes the batches
    [fileIds.slice(i, i + 3)] for [i = 0, 3, 6, ...], which make up the
    list in order. When the uploads of the batch at [i] have succeeded,
    [filesCompleted] is [min (i + 3) totalFiles] and the worker stores
    [Math.round((filesCompleted / totalFiles) * 100)], computed in doubles,
    as the progress of the job: a whole number within half a point of the
    exact percentage [100 * filesCompleted / totalFiles], between 0 and
    100, and 100 after the last batch; then it goes on to the next batch
    or, after the last one, to the URL. When the URL has been issued it
    stores the job as [ready] with progress 100 and that URL. *)
Theorem worker_batches_progress_ready (s3 : S3Service) optConcurrency
    optMaxRetries sys now (k : nat) e :
  reachable s3 optConcurrency optMaxRetries sys →
  let files := fileIds e in
  let total := length files in
  let id := jobId e in
  concat (map (λ j, batchAt (3 * j) files) (seq 0 (batchCount total))) = files ∧
  (∀ i c keys job batchKeys,
     calls (downloadQueue sys) !! k = Some (e, Awaiting (AwaitBatch i c keys)) →
     JobStore.jobs (jobStore sys) !! id = Some job →
     processBatch s3 now (batchAt i files) = Fulfilled batchKeys →
     let filesCompleted := ((i + 3) `min` total)%nat in
     (∃ j : nat, i = (3 * j)%nat) ∧ c = i ∧ (i < total)%nat ∧
     (c + length (batchAt i files))%nat = filesCompleted ∧
     ∃ sys' job',
       step s3 (Wake now k) sys = Some sys' ∧
       JobStore.jobs (jobStore sys') !! id = Some job' ∧
       JobStore.progress job' = progressOf filesCompleted total ∧
       Z.abs (2 * Z.of_nat total * JobStore.progress job'
              - 200 * Z.of_nat filesCompleted) ≤ Z.of_nat total ∧
       0 ≤ JobStore.progress job' ≤ 100 ∧
       (filesCompleted = total → JobStore.progress job' = 100) ∧
       JobStore.status job' = JobStore.status job ∧
       calls (downloadQueue sys') !! k =
         Some (e, Awaiting
                    (if (i + 3 <? total)%nat
                     then AwaitBatch (i + 3) filesCompleted (keys ++ batchKeys)
                     else afterLoop id (keys ++ batchKeys)))) ∧
  (∀ key job url,
     calls (downloadQueue sys) !! k = Some (e, Awaiting (AwaitUrl key)) →
     JobStore.jobs (jobStore sys) !! id = Some job →
     generatePresignedUrl s3 now key = Fulfilled url →
     ∃ sys' job',
       step s3 (Wake now k) sys = Some sys' ∧
       JobStore.jobs (jobStore sys') !! id = Some job' ∧
       JobStore.status job' = JobStore.ready ∧
       JobStore.progress job' = 100 ∧
       JobStore.downloadUrl job' = Some url ∧
       calls (downloadQueue sys') !! k = Some (e, Resolved)).
Proof.
  intros Hreach files total id.
  destruct (wake_after_batch_or_url s3 _ _ sys now k e Hreach)
    as (Hparts & Hbatch & Hurl).
  destruct (progressInv_reachable s3 _ _ sys Hreach) as [_ (_ & _ & Hcalls)].
  split; [exact Hparts|]. split; [|exact Hurl].
  intros i c keys job batchKeys Hk Hjob Hup filesCompleted.
  pose proof (Forall_lookup_1 _ _ _ _ Hcalls Hk) as [Hsized _].
  cbn [fst] in Hsized. unfold sized in Hsized. fold files total in Hsized.
  destruct (Hbatch i c keys job batchKeys Hk Hjob Hup)
    as ([j ->] & Hc & Hlt & Hdone & sys' & job' & Hstep & Hjob' & Hp & Hst & Hnext).
  fold files total in Hlt, Hdone, Hp, Hnext.
  pose proof (percent_near j total Hsized Hlt) as Hnear. cbv zeta in Hnear.
  fold filesCompleted in Hnear, Hp, Hdone, Hnext. rewrite <- Hp in Hnear.
  split; [by exists j|]. split; [done|]. split; [done|]. split; [done|].
  exists sys', job'. split; [done|]. split; [done|]. split; [done|].
  split; [exact Hnear|].
  assert (0 ≤ Z.of_nat filesCompleted ≤ Z.of_nat total) as Hrange
    by (unfold filesCompleted; lia).
  assert (0 < Z.of_nat total) as Hpos by lia.
  apply Z.abs_le in Hnear. split; [nia|]. split; [|by split].
  intros Hall. rewrite Hall in Hnear.
  destruct (Z.lt_trichotomy (JobStore.progress job') 100) as [Hlow|[?|Hhigh]];
    [|done|].
  - assert (2 * Z.of_nat total * JobStore.progress job'
            ≤ 2 * Z.of_nat total * 99) by nia. lia.
  - assert (2 * Z.of_nat total * 101
            ≤ 2 * Z.of_nat total * JobStore.progress job') by nia. lia.
Qed.

(** C5 at the first batch of a job of seven files: three of seven files
    done, progress 43 for 42.857..., and the second batch is next. *)
Lemma worker_batches_progress_ready_witness :
  let files := [10001; 10002; 10003; 10004; 10005; 10006; 10007] in
  let sys := queueDownloadJob 2000 Sample.uuid1 files (initializeWorker 1000 initial) in
  ∃ sys' job',
    step Sample.s3Up (Wake 3000 0) sys = Some sys' ∧
    JobStore.jobs (jobStore sys') !! Sample.uuid1 = Some job' ∧
    JobStore.progress job' = 43 ∧
    Z.abs (2 * 7 * JobStore.progress job' - 200 * 3) ≤ 7 ∧
    JobStore.status job' = JobStore.processing ∧
    calls (downloadQueue sys') !! 0%nat =
      Some (mkQueueJob Sample.uuid1 files 2000 1,
            Awaiting (AwaitBatch 3 3
                        ["downloads/file.zip"; "downloads/file.zip";
                         "downloads/file.zip"])).
Proof.
  intros files sys.
  assert (reachable Sample.s3Up (Some 5) (Some 3) sys) as Hreach.
  { eapply reachable_step with (op := PostAsync 2000 Sample.uuid1 files).
    - eapply reachable_step with (op := InitializeWorker 1000).
      + apply reachable_boot.
      + reflexivity.
    - reflexivity. }
  destruct (proj1 (proj2
    (worker_batches_progress_ready Sample.s3Up (Some 5) (Some 3) sys 3000 0
       (mkQueueJob Sample.uuid1 files 2000 1) Hreach))
    0%nat 0%nat []
    (JobStore.mkJob Sample.uuid1 files JobStore.processing 0 None None None
       2000 2000 (Some 2000) None)
    ["downloads/file.zip"; "downloads/file.zip"; "downloads/file.zip"]
    eq_refl eq_refl eq_refl)
    as (_ & _ & _ & _ & sys' & job' & H1 & H2 & H3 & H4 & _ & _ & H5 & H6).
  exists sys', job'. split; [exact H1|]. split; [exact H2|].
  split; [exact H3|]. split; [exact H4|]. split; [exact H5|exact H6].
Defined.

(** C5, the claim as stated, fails: with 69 of 120 files uploaded the
    exact percentage is 57.5, which rounds to 58; in doubles the quotient
    times 100 is just below 57.5, and the job is stored with progress 57.
    One batch before, with 66 files, the progress is the exact 55. *)
Lemma progress_69_of_120_is_57 :
  length LongRun.files = 120%nat ∧
  JobStore.progress <$> LongRun.jobAfter Sample.s3Up (LongRun.batchesDone 22)
    = Some 55 ∧
  JobStore.status <$> LongRun.jobAfter Sample.s3Up (LongRun.batchesDone 23)
    = Some JobStore.processing ∧
  JobStore.progress <$> LongRun.jobAfter Sample.s3Up (LongRun.batchesDone 23)
    = Some 57 ∧
  progressOf 69 120 = 57 ∧
  2 * (100 * 69) = (2 * 57 + 1) * 120 ∧
  (2 * (100 * 69) + 120) / (2 * 120) = 58.
Proof. repeat split; vm_compute; reflexivity. Qed.

End BatchProgress.
